(** * Schelling segregation model: a shallow embedding of
      [networks_schellingmodel.py] and the properties of its grid,
      relocation policies and driver.

    Modelling conventions.
    - Python object references to [Node] instances are indices into an
      arena ([nodes]); two references are the same object exactly when the
      indices are equal, which is what [list.remove], [==] and [in] observe
      for a class without [__eq__].
    - Python floats are modelled by exact rationals ([Q]); every float the
      program compares is a quotient of two small counters or a parameter.
      The rounding of float products in the constructor is not modelled.
    - A [while] loop takes a budget of iterations ([fuel]) and reports
      [OutOfFuel] when it is spent; termination is proved separately.
    - The module [random] is an oracle [rng : nat -> nat] read at position
      [drawn]; [_randbelow n] is the next oracle value reduced modulo [n].
      Theorems quantify over every oracle.
    - Exceptions are values ([Raise]); the state reached when the exception
      is raised is kept, as in Python.
    - [print] is not modelled. *)

From Stdlib Require Import QArith.
From stdpp Require Import gmap strings list.

Local Open Scope nat_scope.

(** ** Colours and nodes *)

Inductive Color : Set := white | red | blue.

#[global] Instance Color_eq_dec : EqDecision Color.
Proof. solve_decision. Defined.

Module Node.
Record t : Type := mk {
  color : Color;
  x : Z;
  y : Z;
  neigh : gset nat;
  pval : Q;
  redval : Q;
  blueval : Q
}.

Definition with_color (c : Color) (n : t) : t :=
  mk c (x n) (y n) (neigh n) (pval n) (redval n) (blueval n).

Definition with_neigh (s : gset nat) (n : t) : t :=
  mk (color n) (x n) (y n) s (pval n) (redval n) (blueval n).

Definition with_vals (p r b : Q) (n : t) : t :=
  mk (color n) (x n) (y n) (neigh n) p r b.
End Node.

#[global] Instance Node_inhabited : Inhabited Node.t :=
  populate (Node.mk white 0 0 ∅ 0 0 0).

(** ** The board, the nodes it owns and the random source *)

Record Board : Type := mkBoard {
  nodes : list Node.t;
  size : nat;
  pbound : Q;
  white_count : Z;
  red_count : Z;
  blue_count : Z;
  unsatisfied : list nat;
  whiteCells : list nat;
  board : list (list nat);
  animationList : list (list (list Z));
  stopping : Q;
  rng : nat -> nat;
  drawn : nat
}.

Definition set_nodes (v : list Node.t) (b : Board) : Board :=
  mkBoard v (size b) (pbound b) (white_count b) (red_count b) (blue_count b)
    (unsatisfied b) (whiteCells b) (board b) (animationList b) (stopping b)
    (rng b) (drawn b).

Definition set_counts (w r bl : Z) (b : Board) : Board :=
  mkBoard (nodes b) (size b) (pbound b) w r bl
    (unsatisfied b) (whiteCells b) (board b) (animationList b) (stopping b)
    (rng b) (drawn b).

Definition set_unsatisfied (v : list nat) (b : Board) : Board :=
  mkBoard (nodes b) (size b) (pbound b) (white_count b) (red_count b)
    (blue_count b) v (whiteCells b) (board b) (animationList b) (stopping b)
    (rng b) (drawn b).

Definition set_whiteCells (v : list nat) (b : Board) : Board :=
  mkBoard (nodes b) (size b) (pbound b) (white_count b) (red_count b)
    (blue_count b) (unsatisfied b) v (board b) (animationList b) (stopping b)
    (rng b) (drawn b).

Definition set_board (v : list (list nat)) (b : Board) : Board :=
  mkBoard (nodes b) (size b) (pbound b) (white_count b) (red_count b)
    (blue_count b) (unsatisfied b) (whiteCells b) v (animationList b)
    (stopping b) (rng b) (drawn b).

Definition set_animationList (v : list (list (list Z))) (b : Board) : Board :=
  mkBoard (nodes b) (size b) (pbound b) (white_count b) (red_count b)
    (blue_count b) (unsatisfied b) (whiteCells b) (board b) v (stopping b)
    (rng b) (drawn b).

Definition set_drawn (v : nat) (b : Board) : Board :=
  mkBoard (nodes b) (size b) (pbound b) (white_count b) (red_count b)
    (blue_count b) (unsatisfied b) (whiteCells b) (board b) (animationList b)
    (stopping b) (rng b) v.

(** The node behind a reference, and the fields the policies read. *)
Definition node (b : Board) (i : nat) : Node.t := nodes b !!! i.

Definition color_of (b : Board) (i : nat) : Color := Node.color (node b i).

Definition set_node (i : nat) (n : Node.t) (b : Board) : Board :=
  set_nodes (<[i := n]> (nodes b)) b.

(** [p < q] on floats. *)
Definition Qltb (p q : Q) : bool := negb (Qle_bool q p).

(** ** Node.update *)

(** The counting loop of [Node.update]: one pass over the neighbours with
    the two counters [(redcount, bluecount)]. *)
Definition count_step (b : Board) (acc : nat * nat) (n : nat) : nat * nat :=
  match color_of b n with
  | blue => (acc.1, S acc.2)
  | red => (S acc.1, acc.2)
  | white => acc
  end.

Definition count_neigh (b : Board) (ns : list nat) : nat * nat :=
  foldl (count_step b) (0, 0) ns.

Definition ratio (k n : nat) : Q :=
  (inject_Z (Z.of_nat k) / inject_Z (Z.of_nat n))%Q.

(** [Node.update(self)]: returns the new [pval] and the board in which the
    node's three cached values are rewritten. *)
Definition update (i : nat) (b : Board) : Q * Board :=
  let self := node b i in
  let '(redcount, bluecount) := count_neigh b (elements (Node.neigh self)) in
  if redcount + bluecount =? 0 then
    (1%Q, set_node i (Node.with_vals 1 1 1 self) b)
  else
    let rv := ratio redcount (redcount + bluecount) in
    let bv := ratio bluecount (redcount + bluecount) in
    let pv := match Node.color self with
              | white => 1%Q
              | red => rv
              | blue => bv
              end in
    (pv, set_node i (Node.with_vals pv rv bv self) b).

(** [Node.setcolor]. *)
Definition setcolor (i : nat) (c : Color) (b : Board) : Board :=
  set_node i (Node.with_color c (node b i)) b.

(** ** Board.reload_sets *)

(** The body of the double loop: refresh the node, then file it under the
    new empty list or the new unsatisfied list. *)
Definition scan_node (acc : list nat * list nat * Board) (i : nat)
  : list nat * list nat * Board :=
  let '(new_whiteCells, new_unsatisfied, b) := acc in
  let '(pv, b') := update i b in
  match color_of b' i with
  | white => (new_whiteCells ++ [i], new_unsatisfied, b')
  | _ => if Qltb pv (pbound b')
         then (new_whiteCells, new_unsatisfied ++ [i], b')
         else (new_whiteCells, new_unsatisfied, b')
  end.

Definition scan_rows (rows : list (list nat))
    (acc : list nat * list nat * Board) : list nat * list nat * Board :=
  foldl (fun acc row => foldl scan_node acc row) acc rows.

Definition reload_sets (b : Board) : Board :=
  let '(new_whiteCells, new_unsatisfied, b') := scan_rows (board b) ([], [], b) in
  set_whiteCells new_whiteCells (set_unsatisfied new_unsatisfied b').

(** ** Exceptions, results and the state monad of the methods *)

Inductive exn : Set := ValueError | IndexError | AttributeError | ZeroDivisionError.

(** A call either yields a value, raises, or exhausts the iteration budget
    given to its [while] loops. *)
Inductive res (A : Type) : Type :=
| Val (a : A)
| Raise (e : exn)
| OutOfFuel.
Arguments Val {A} a.
Arguments Raise {A} e.
Arguments OutOfFuel {A}.

Definition M (A : Type) : Type := Board -> res A * Board.

#[global] Instance M_ret : MRet M := fun A a b => (Val a, b).

#[global] Instance M_bind : MBind M := fun A B f m b =>
  match m b with
  | (Val a, b') => f a b'
  | (Raise e, b') => (Raise e, b')
  | (OutOfFuel, b') => (OutOfFuel, b')
  end.

Definition raise {A} (e : exn) : M A := fun b => (Raise e, b).
Definition gets {A} (f : Board -> A) : M A := fun b => (Val (f b), b).
Definition modify (f : Board -> Board) : M unit := fun b => (Val tt, f b).

(** How a loop body or a block ends: fall through with the locals, [break]
    with the locals, or [return] from the enclosing method. *)
Inductive flow (L R : Type) : Type :=
| Next (l : L)
| Break (l : L)
| Return (r : R).
Arguments Next {L R} l.
Arguments Break {L R} l.
Arguments Return {L R} r.

(** [while cond: body] with locals [l]. Each iteration spends one unit of
    [fuel]; the result is [inl l] when the loop is left through its
    condition or a [break], [inr r] when the body returned [r]. *)
Fixpoint while_ {L R} (fuel : nat) (cond : L -> Board -> bool)
    (body : L -> M (flow L R)) (l : L) : M (L + R) :=
  fun b =>
    if cond l b then
      match fuel with
      | 0 => (OutOfFuel, b)
      | S fuel' =>
          match body l b with
          | (Val (Next l'), b') => while_ fuel' cond body l' b'
          | (Val (Break l'), b') => (Val (inl l'), b')
          | (Val (Return r), b') => (Val (inr r), b')
          | (Raise e, b') => (Raise e, b')
          | (OutOfFuel, b') => (OutOfFuel, b')
          end
      end
    else (Val (inl l), b).

(** ** The module [random] *)

Definition randbelow (n : nat) : M nat := fun b =>
  (Val (rng b (drawn b) mod n), set_drawn (S (drawn b)) b).

(** [random.sample(population, k=1)[0]]. *)
Definition random_sample (population : Board -> list nat) : M nat :=
  pop ← gets population;
  match pop with
  | [] => raise ValueError
  | _ => j ← randbelow (length pop); mret (pop !!! j)
  end.

Definition swap (i j : nat) (l : list nat) : list nat :=
  <[j := l !!! i]> (<[i := l !!! j]> l).

(** The loop of [random.shuffle]: [for i in reversed(range(1, len(x)))]. *)
Fixpoint shuffle_from (i : nat) (l : list nat) : M (list nat) :=
  match i with
  | 0 => mret l
  | S i' => j ← randbelow (S i); shuffle_from i' (swap i j l)
  end.

(** [random.shuffle(self.whiteCells)]. *)
Definition shuffle_whiteCells : M unit :=
  l ← gets whiteCells;
  l' ← shuffle_from (length l - 1) l;
  modify (set_whiteCells l').

(** ** Distance and the stable sort of the empty cells *)

(** The square of [distance(n1, n2)]. Sorting by the Euclidean distance and
    sorting by its square give the same order and the same ties. *)
Definition distance_sq (b : Board) (n1 n2 : nat) : Z :=
  ((Node.x (node b n1) - Node.x (node b n2)) ^ 2
   + (Node.y (node b n1) - Node.y (node b n2)) ^ 2)%Z.

Fixpoint insert_by (key : nat -> Z) (a : nat) (l : list nat) : list nat :=
  match l with
  | [] => [a]
  | h :: t => if (key a <=? key h)%Z then a :: h :: t else h :: insert_by key a t
  end.

(** [list.sort(key=...)] is stable: equal keys keep their order. *)
Definition sort_by (key : nat -> Z) (l : list nat) : list nat :=
  foldr (insert_by key) [] l.

(** [self.whiteCells.sort(key = lambda Node: distance(Moving, Node))]. *)
Definition sort_whiteCells (Moving : nat) : M unit :=
  modify (fun b => set_whiteCells (sort_by (distance_sq b Moving) (whiteCells b)) b).

(** ** Blocks shared by the eighteen policies *)

(** [self.whiteCells[0]]. *)
Definition whiteCells_0 : M nat :=
  l ← gets whiteCells;
  match l with
  | [] => raise IndexError
  | e :: _ => mret e
  end.

(** [len(self.unsatisfied) < self.stopping]. *)
Definition below_stopping (b : Board) : bool :=
  Qltb (inject_Z (Z.of_nat (length (unsatisfied b)))) (stopping b).

(** [for Candidate in self.whiteCells: if Candidate.<c>val >= self.pbound:
    Empty = Candidate; break]. *)
Fixpoint first_candidate (qualifies : nat -> bool) (l : list nat) : option nat :=
  match l with
  | [] => None
  | Candidate :: l' =>
      if qualifies Candidate then Some Candidate else first_candidate qualifies l'
  end.

(** The "Find Satisfying" block: the scan for a red mover reads [redval],
    the scan for a blue mover reads [blueval], any other colour scans
    nothing. The result is the value assigned to [Empty], if any. *)
Definition find_satisfying (c : Color) (b : Board) : option nat :=
  match c with
  | red => first_candidate (fun i => Qle_bool (pbound b) (Node.redval (node b i)))
             (whiteCells b)
  | blue => first_candidate (fun i => Qle_bool (pbound b) (Node.blueval (node b i)))
              (whiteCells b)
  | white => None
  end.

(** The "try other color" loop, [for OtherMoving in self.unsatisfied]. The
    locals are [(Moving, Empty)]; [presort] is the sort the closest variants
    make before each scan and nothing in the random variants. The check
    [if Empty == None: return False] sits inside the loop body, after the
    scan, and is skipped by [continue]. The result is [inl] of the locals
    when the loop runs to its end and [inr v] when the method returns [v]. *)
Fixpoint other_color (presort : nat -> M unit) (c : Color) (others : list nat)
    (Moving : nat) (Empty : option nat) : M (nat * option nat + bool) :=
  match others with
  | [] => mret (inl (Moving, Empty))
  | OtherMoving :: others' =>
      otherColor ← gets (fun b => color_of b OtherMoving);
      if decide (otherColor = c) then other_color presort c others' Moving Empty
      else
        presort OtherMoving;;
        found ← gets (find_satisfying otherColor);
        let '(Moving, Empty) :=
          match found with
          | Some Candidate => (OtherMoving, Some Candidate)
          | None => (Moving, Empty)
          end in
        match Empty with
        | None => mret (inr false)
        | Some _ => other_color presort c others' Moving Empty
        end
  end.

Definition no_sort (_ : nat) : M unit := mret tt.

(** [if Empty == None: for OtherMoving in self.unsatisfied: ...]. *)
Definition try_other_color (presort : nat -> M unit) (c : Color)
    (Moving : nat) (Empty : option nat) : M (nat * option nat + bool) :=
  match Empty with
  | Some _ => mret (inl (Moving, Empty))
  | None => others ← gets unsatisfied; other_color presort c others Moving Empty
  end.

(** [Empty.setcolor(Moving.color); Moving.setcolor('white')]. [Empty] is
    [None] when no assignment reached it, and [None.setcolor] raises. *)
Definition relocate (Moving : nat) (Empty : option nat) : M unit :=
  match Empty with
  | None => raise AttributeError
  | Some e =>
      modify (fun b => setcolor e (color_of b Moving) b);;
      modify (setcolor Moving white)
  end.

(** [list.remove(x)]: drops the first occurrence, raises when there is none. *)
Fixpoint remove_first (a : nat) (l : list nat) : option (list nat) :=
  match l with
  | [] => None
  | h :: t => if decide (h = a) then Some t else cons h <$> remove_first a t
  end.

(** [self.whiteCells.remove(Empty)]; [None] is in no list of nodes. *)
Definition whiteCells_remove (Empty : option nat) : M unit :=
  match Empty with
  | None => raise ValueError
  | Some e =>
      l ← gets whiteCells;
      match remove_first e l with
      | None => raise ValueError
      | Some l' => modify (set_whiteCells l')
      end
  end.

(** [self.unsatisfied.remove(Moving)]. *)
Definition unsatisfied_remove (Moving : nat) : M unit :=
  l ← gets unsatisfied;
  match remove_first Moving l with
  | None => raise ValueError
  | Some l' => modify (set_unsatisfied l')
  end.

(** [self.whiteCells.append(Moving)]. *)
Definition whiteCells_append (Moving : nat) : M unit :=
  modify (fun b => set_whiteCells (whiteCells b ++ [Moving]) b).

(** ** Snapshots *)

Definition colorcode (c : Color) : Z :=
  match c with
  | white => 0
  | red => 100
  | blue => -100
  end%Z.

(** [to_np_colorcode]: indexes [self.board[i][j]] for [i], [j] in
    [range(self.size)]; an index outside the board raises. *)
Definition to_np_colorcode : M (list (list Z)) := fun b =>
  match mapM (fun i => mapM (fun j => row ← board b !! i; n ← row !! j;
                                      Some (colorcode (color_of b n)))
                            (seq 0 (size b)))
             (seq 0 (size b)) with
  | Some values => (Val values, b)
  | None => (Raise IndexError, b)
  end.

(** [self.animationList.append(self.to_np_colorcode())]. *)
Definition snapshot : M unit :=
  values ← to_np_colorcode;
  modify (fun b => set_animationList (animationList b ++ [values]) b).

(** The tail of every policy that reaches its end: [self.reload_sets()],
    the snapshot, [return True]. *)
Definition finish_step : M bool :=
  modify reload_sets;; snapshot;; mret true.

(** ** Mover and destination: the six selection blocks

    Each of the eighteen policies opens with one of six blocks, repeated
    verbatim in its single, whitebatch and batch form. A block ends with
    the locals [(Moving, Empty)] or with the value the method returns. *)

Definition select_random : M (nat * option nat + bool) :=
  Moving ← random_sample unsatisfied;
  Empty ← random_sample whiteCells;
  mret (inl (Moving, Some Empty)).

Definition select_randomSat_stop : M (nat * option nat + bool) :=
  Moving ← random_sample unsatisfied;
  shuffle_whiteCells;;
  color ← gets (fun b => color_of b Moving);
  Empty ← gets (find_satisfying color);
  try_other_color no_sort color Moving Empty.

Definition select_randomSat_cont : M (nat * option nat + bool) :=
  Moving ← random_sample unsatisfied;
  shuffle_whiteCells;;
  color ← gets (fun b => color_of b Moving);
  Empty ← gets (find_satisfying color);
  match Empty with
  | Some _ => mret (inl (Moving, Empty))
  | None => Empty ← random_sample whiteCells; mret (inl (Moving, Some Empty))
  end.

Definition select_closest : M (nat * option nat + bool) :=
  Moving ← random_sample unsatisfied;
  sort_whiteCells Moving;;
  Empty ← whiteCells_0;
  stop ← gets below_stopping;
  if (stop : bool) then mret (inr false) else mret (inl (Moving, Some Empty)).

Definition select_closestSat_stop : M (nat * option nat + bool) :=
  Moving ← random_sample unsatisfied;
  sort_whiteCells Moving;;
  color ← gets (fun b => color_of b Moving);
  stop ← gets below_stopping;
  if (stop : bool) then mret (inr false) else
  Empty ← gets (find_satisfying color);
  try_other_color sort_whiteCells color Moving Empty.

Definition select_closestSat_cont : M (nat * option nat + bool) :=
  Moving ← random_sample unsatisfied;
  sort_whiteCells Moving;;
  color ← gets (fun b => color_of b Moving);
  stop ← gets below_stopping;
  if (stop : bool) then mret (inr false) else
  Empty ← gets (find_satisfying color);
  match Empty with
  | Some _ => mret (inl (Moving, Empty))
  | None => Empty ← whiteCells_0; mret (inl (Moving, Some Empty))
  end.

(** ** Granularity: one move, or a drain of the unsatisfied list *)

(** A single policy: select, retype, refresh, snapshot, [return True]. *)
Definition single (select : M (nat * option nat + bool)) : M bool :=
  r ← select;
  match r with
  | inr v => mret v
  | inl (Moving, Empty) => relocate Moving Empty;; finish_step
  end.

(** The list bookkeeping of a micro-move. The random policies and the plain
    closest policy remove the destination first; the closest satisfy
    policies remove the mover first. The whitebatch policies append the
    mover to the empty cells, the batch policies do not. *)
Definition take_white_first (giveback : bool) (Moving : nat) (Empty : option nat)
  : M unit :=
  whiteCells_remove Empty;;
  unsatisfied_remove Moving;;
  if giveback then whiteCells_append Moving else mret tt.

Definition take_mover_first (giveback : bool) (Moving : nat) (Empty : option nat)
  : M unit :=
  unsatisfied_remove Moving;;
  whiteCells_remove Empty;;
  if giveback then whiteCells_append Moving else mret tt.

(** The body of a drain loop. *)
Definition micro_move (select : M (nat * option nat + bool))
    (bookkeeping : nat -> option nat -> M unit) : M (flow unit bool) :=
  r ← select;
  match r with
  | inr v => mret (Return v)
  | inl (Moving, Empty) =>
      bookkeeping Moving Empty;;
      relocate Moving Empty;;
      mret (Next tt)
  end.

(** [while self.unsatisfied and self.whiteCells]. *)
Definition both_nonempty (b : Board) : bool :=
  match unsatisfied b, whiteCells b with
  | _ :: _, _ :: _ => true
  | _, _ => false
  end.

(** The loop of a batch or whitebatch policy on its own. *)
Definition drain_loop (fuel : nat) (body : M (flow unit bool)) : M (unit + bool) :=
  while_ fuel (fun _ => both_nonempty) (fun _ => body) tt.

(** A batch or whitebatch policy: the loop, then refresh, snapshot,
    [return True]. *)
Definition drain (fuel : nat) (body : M (flow unit bool)) : M bool :=
  r ← drain_loop fuel body;
  match r with
  | inr v => mret v
  | inl _ => finish_step
  end.

(** ** The eighteen policies *)

Definition step_single_random : M bool := single select_random.
Definition step_single_randomSat_stop : M bool := single select_randomSat_stop.
Definition step_single_randomSat_cont : M bool := single select_randomSat_cont.
Definition step_single_closest : M bool := single select_closest.
Definition step_single_closestSat_stop : M bool := single select_closestSat_stop.
Definition step_single_closestSat_cont : M bool := single select_closestSat_cont.

Definition step_whitebatch_random (fuel : nat) : M bool :=
  drain fuel (micro_move select_random (take_white_first true)).
Definition step_batch_random (fuel : nat) : M bool :=
  drain fuel (micro_move select_random (take_white_first false)).
Definition step_whitebatch_randomSat_stop (fuel : nat) : M bool :=
  drain fuel (micro_move select_randomSat_stop (take_white_first true)).
Definition step_batch_randomSat_stop (fuel : nat) : M bool :=
  drain fuel (micro_move select_randomSat_stop (take_white_first false)).
Definition step_whitebatch_randomSat_cont (fuel : nat) : M bool :=
  drain fuel (micro_move select_randomSat_cont (take_white_first true)).
Definition step_batch_randomSat_cont (fuel : nat) : M bool :=
  drain fuel (micro_move select_randomSat_cont (take_white_first false)).
Definition step_whitebatch_closest (fuel : nat) : M bool :=
  drain fuel (micro_move select_closest (take_white_first true)).
Definition step_batch_closest (fuel : nat) : M bool :=
  drain fuel (micro_move select_closest (take_white_first false)).
Definition step_whitebatch_closestSat_stop (fuel : nat) : M bool :=
  drain fuel (micro_move select_closestSat_stop (take_mover_first true)).
Definition step_batch_closestSat_stop (fuel : nat) : M bool :=
  drain fuel (micro_move select_closestSat_stop (take_mover_first false)).
Definition step_whitebatch_closestSat_cont (fuel : nat) : M bool :=
  drain fuel (micro_move select_closestSat_cont (take_mover_first true)).
Definition step_batch_closestSat_cont (fuel : nat) : M bool :=
  drain fuel (micro_move select_closestSat_cont (take_mover_first false)).

(** ** Board.run *)

Definition algoDict (fuel : nat) : gmap string (M bool) :=
  list_to_map
    [("singleRandom", step_single_random);
     ("singleClosest", step_single_closest);
     ("singleRandomSatisfyStop", step_single_randomSat_stop);
     ("singleRandomSatisfyContinue", step_single_randomSat_cont);
     ("singleClosestSatisfyStop", step_single_closestSat_stop);
     ("singleClosestSatisfyContinue", step_single_closestSat_cont);
     ("whitebatchRandom", step_whitebatch_random fuel);
     ("batchRandom", step_batch_random fuel);
     ("whitebatchRandomSatisfyStop", step_whitebatch_randomSat_stop fuel);
     ("batchRandomSatisfyStop", step_batch_randomSat_stop fuel);
     ("whitebatchRandomSatisfyContinue", step_whitebatch_randomSat_cont fuel);
     ("batchRandomSatisfyContinue", step_batch_randomSat_cont fuel);
     ("whitebatchClosest", step_whitebatch_closest fuel);
     ("batchClosest", step_batch_closest fuel);
     ("whitebatchClosestSatisfyStop", step_whitebatch_closestSat_stop fuel);
     ("batchClosestSatisfyStop", step_batch_closestSat_stop fuel);
     ("whitebatchClosestSatisfyContinue", step_whitebatch_closestSat_cont fuel);
     ("batchClosestSatisfyContinue", step_batch_closestSat_cont fuel)].

(** The body of the driver loop, with the locals [(i, Running)]. *)
Definition run_body (stepfunction : M bool) (l : nat * bool)
  : M (flow (nat * bool) nat) :=
  u ← gets unsatisfied;
  match u with
  | [] => mret (Break l)
  | _ => Running ← stepfunction; mret (Next (S l.1, Running))
  end.

(** [run(iters, assignAlgorithm)]. [fuel] bounds the iterations of every
    [while] loop the call enters. *)
Definition run (fuel : nat) (iters : Z) (assignAlgorithm : string) : M nat :=
  match algoDict fuel !! assignAlgorithm with
  | None => raise ValueError
  | Some stepfunction =>
      r ← while_ fuel (fun l _ => (Z.of_nat l.1 <? iters)%Z && l.2)
            (run_body stepfunction) (0, true);
      match r with
      | inl l => mret l.1
      | inr i => mret i
      end
  end.

(** ** Board.averagepval *)

Definition add_pval (b : Board) (pvalcount : Q) (i : nat) : Q :=
  match color_of b i with
  | white => pvalcount
  | _ => (pvalcount + Node.pval (node b i))%Q
  end.

Definition averagepval : M Q := fun b =>
  let pvalcount := foldl (fun acc row => foldl (add_pval b) acc row) 0%Q (board b) in
  let denom := (Z.of_nat (size b) ^ 2 - Z.of_nat (length (whiteCells b)))%Z in
  if (denom =? 0)%Z then (Raise ZeroDivisionError, b)
  else (Val (pvalcount / inject_Z denom)%Q, b).

(** ** Construction: Node(...), bind_nodes, sample_color, build_board *)

(** [Node(color, x, y)]: a fresh object with no neighbours; [__init__] ends
    with [self.update()]. *)
Definition new_Node (c : Color) (x y : Z) : M nat := fun b =>
  let i := length (nodes b) in
  let b1 := set_nodes (nodes b ++ [Node.mk c x y ∅ 0 0 0]) b in
  (Val i, (update i b1).2).

Definition neigh_add (n1 n2 : nat) (b : Board) : Board :=
  set_node n1 (Node.with_neigh (Node.neigh (node b n1) ∪ {[n2]}) (node b n1)) b.

Definition bind_nodes (n1 n2 : nat) : M unit :=
  modify (neigh_add n1 n2);;
  modify (neigh_add n2 n1);;
  modify (fun b => (update n1 b).2);;
  modify (fun b => (update n2 b).2).

(** [random.sample(['white', 'red', 'blue'], counts=[...], k=1)[0]]: one
    draw below the total of the counts, located among the cumulated counts
    by bisection; an empty total raises. The drawn colour's count is then
    decremented. *)
Definition sample_color : M Color :=
  w ← gets white_count;
  r ← gets red_count;
  bl ← gets blue_count;
  let total := (w + r + bl)%Z in
  if (total <=? 0)%Z then raise ValueError else
  s ← randbelow (Z.to_nat total);
  if (Z.of_nat s <? w + r)%Z then
    if (Z.of_nat s <? w)%Z
    then modify (set_counts (w - 1) r bl);; mret white
    else modify (set_counts w (r - 1) bl);; mret red
  else modify (set_counts w r (bl - 1));; mret blue.

(** [for a in l: body], with the locals threaded through. *)
Fixpoint for_ {A L} (l : list A) (body : A -> L -> M L) (acc : L) : M L :=
  match l with
  | [] => mret acc
  | a :: l' => acc' ← body a acc; for_ l' body acc'
  end.

(** [board[i][j]] on the list of rows under construction. *)
Definition at_ (rows : list (list nat)) (i j : nat) : M nat :=
  match rows !! i ≫= (.!! j) with
  | Some n => mret n
  | None => raise IndexError
  end.

(** [board[i].append(n)]. *)
Definition row_append (i n : nat) (rows : list (list nat)) : list (list nat) :=
  <[i := (rows !!! i) ++ [n]]> rows.

Definition build_first_row (sz : nat) (rows : list (list nat)) : M (list (list nat)) :=
  for_ (seq 1 (sz - 1)) (fun j rows =>
    c ← sample_color;
    new_node ← new_Node c 0 (Z.of_nat j);
    left ← at_ rows 0 (j - 1);
    bind_nodes left new_node;;
    mret (row_append 0 new_node rows)) rows.

Definition build_cell (sz i j : nat) (rows : list (list nat)) : M (list (list nat)) :=
  c ← sample_color;
  new_node ← new_Node c (Z.of_nat i) (Z.of_nat j);
  (if decide (j = 0) then
     n ← at_ rows (i - 1) (j + 1); bind_nodes n new_node
   else if decide (j = sz - 1) then
     n ← at_ rows i (j - 1); bind_nodes n new_node;;
     n ← at_ rows (i - 1) (j - 1); bind_nodes n new_node
   else
     n ← at_ rows i (j - 1); bind_nodes n new_node;;
     n ← at_ rows (i - 1) (j - 1); bind_nodes n new_node;;
     n ← at_ rows (i - 1) (j + 1); bind_nodes n new_node);;
  n ← at_ rows (i - 1) j;
  bind_nodes n new_node;;
  mret (row_append i new_node rows).

Definition build_rest (sz : nat) (rows : list (list nat)) : M (list (list nat)) :=
  for_ (seq 1 (sz - 1)) (fun i rows =>
    for_ (seq 0 sz) (build_cell sz i) (rows ++ [[]])) rows.

(** [build_board]: the cells in row-major order, then the first fill of
    [self.whiteCells] and [self.unsatisfied]. *)
Definition build_board : M (list (list nat)) :=
  sz ← gets size;
  c ← sample_color;
  n ← new_Node c 0 0;
  rows ← build_first_row sz [[n]];
  rows ← build_rest sz rows;
  modify (fun b =>
    let '(w, u, b') := scan_rows rows (whiteCells b, unsatisfied b, b) in
    set_whiteCells w (set_unsatisfied u b'));;
  mret rows.

(** [int(q)] for a float [q]: truncation toward zero. *)
Definition int_of (q : Q) : Z := (Qnum q ÷ Z.pos (Qden q))%Z.

(** [Board(size, whiteP, redP, pbound, stopping)] under the oracle [rand]. *)
Definition Board_init (sz : nat) (whiteP redP pb stop : Q) (rand : nat -> nat)
  : res unit * Board :=
  let area := inject_Z (Z.of_nat sz ^ 2) in
  let wc := int_of (area * whiteP) in
  let rc := int_of (area * redP * (1 - whiteP)) in
  let self := mkBoard [] sz pb wc rc (Z.of_nat sz ^ 2 - rc - wc) [] [] [] [] stop
                rand 0 in
  (rows ← build_board; modify (set_board rows)) self.

(** ** Node.color_and_update *)

(** The body of [for n in self.neigh]: refresh the neighbour and collect it
    when it is occupied and below the bound. *)
Definition refresh_neighbor (pbound : Q) (acc : list nat * Board) (n : nat)
  : list nat * Board :=
  let '(unsatisfied, b) := acc in
  let '(npval, b') := update n b in
  if Qltb npval pbound && bool_decide (color_of b' n ≠ white)
  then (unsatisfied ++ [n], b')
  else (unsatisfied, b').

(** [Node.color_and_update(self, color, pbound)]: returns the list
    [unsatisfied] and the board after the refreshes. The neighbours are
    visited in the order of [elements]. *)
Definition color_and_update (i : nat) (c : Color) (pbound : Q) (b : Board)
  : list nat * Board :=
  let b1 := setcolor i c b in
  let b2 := (update i b1).2 in
  let '(unsatisfied, b3) :=
    foldl (refresh_neighbor pbound) ([], b2) (elements (Node.neigh (node b2 i))) in
  if Qltb (Node.pval (node b3 i)) pbound && bool_decide (color_of b3 i ≠ white)
  then (unsatisfied ++ [i], b3)
  else (unsatisfied, b3).

(** ** Board.to_np_pvals *)

(** [to_np_pvals]: the cached [pval] of [self.board[i][j]] for [i], [j] in
    [range(self.size)]; an index outside the board raises. *)
Definition to_np_pvals : M (list (list Q)) := fun b =>
  match mapM (fun i => mapM (fun j => row ← board b !! i; n ← row !! j;
                                      Some (Node.pval (node b n)))
                            (seq 0 (size b)))
             (seq 0 (size b)) with
  | Some values => (Val values, b)
  | None => (Raise IndexError, b)
  end.

(** ** Board.animate: the frames it plays *)

(** [l[::k]] for a non-zero step [k]: the elements at [0, k, 2k, ...] when
    [k] is positive, at [len - 1, len - 1 + k, ...] when it is negative. *)
Definition slice_step {A} `{Inhabited A} (k : Z) (l : list A) : list A :=
  let n := Z.of_nat (length l) in
  let count := Z.to_nat ((n + Z.abs k - 1) / Z.abs k) in
  (fun i => if (0 <? k)%Z then l !!! (i * Z.to_nat k)
            else l !!! (length l - 1 - i * Z.to_nat (- k))) <$> seq 0 count.

(** The list of frames [animate(total_frames, frame_jump, ...)] hands to the
    animation: the default stride, the first snapshot (drawn before the
    animation starts), the slice and the final snapshot. The figure and the
    drawing calls are not modelled. *)
Definition animate_frames (total_frames : Z) (frame_jump : option Z)
  : M (list (list (list Z))) := fun b =>
  let snapshots := animationList b in
  let stride :=
    match frame_jump with
    | Some k => Val k
    | None => if (total_frames =? 0)%Z then Raise ZeroDivisionError
              else Val (Z.of_nat (length snapshots) / total_frames + 1)%Z
    end in
  match stride with
  | Val k =>
      match snapshots with
      | [] => (Raise IndexError, b)
      | _ :: _ =>
          if (k =? 0)%Z then (Raise ValueError, b)
          else (Val (slice_step k snapshots
                     ++ [snapshots !!! (length snapshots - 1)]), b)
      end
  | Raise e => (Raise e, b)
  | OutOfFuel => (OutOfFuel, b)
  end.

(** * Specification vocabulary *)

(** The occupied neighbours of a cell, and those of its own colour. *)
Definition occupied_neighbors (b : Board) (i : nat) : list nat :=
  filter (λ n, color_of b n ≠ white) (elements (Node.neigh (node b i))).

Definition same_neighbors (b : Board) (i : nat) : list nat :=
  filter (λ n, color_of b n = color_of b i) (occupied_neighbors b i).

Definition colored (b : Board) (c : Color) (l : list nat) : list nat :=
  filter (λ n, color_of b n = c) l.

(** The satisfaction a refresh of cell [i] would compute now. *)
Definition fresh (b : Board) (i : nat) : Q := (update i b).1.

(** What one pass of the scan leaves behind, for any starting lists. *)
Record scanned (l w u : list nat) (b : Board)
    (r : list nat * list nat * Board) : Prop := {
  sc_white : r.1.1 = w ++ colored b white l;
  sc_unsat : r.1.2 = u ++ filter (λ i, color_of b i ≠ white
                                      ∧ Qltb (fresh b i) (pbound b) = true) l;
  sc_color : ∀ j, color_of r.2 j = color_of b j;
  sc_neigh : ∀ j, Node.neigh (node r.2 j) = Node.neigh (node b j);
  sc_length : length (nodes r.2) = length (nodes b);
  sc_pval : ∀ i, i ∈ l → i < length (nodes b) →
            Node.pval (node r.2 i) = fresh b i;
  sc_other : ∀ i, i ∉ l → node r.2 i = node b i;
  sc_frame : size r.2 = size b ∧ pbound r.2 = pbound b ∧ board r.2 = board b
             ∧ animationList r.2 = animationList b ∧ stopping r.2 = stopping b
             ∧ rng r.2 = rng b ∧ drawn r.2 = drawn b
}.

(** [wp m Q b]: the call [m] from state [b] ends in a result and a state
    that satisfy [Q]. *)
Definition wp {A} (m : M A) (Q : res A → Board → Prop) (b : Board) : Prop :=
  Q (m b).1 (m b).2.

(** [shuffled b b']: [b'] is [b] up to the order of the empty-cell list and
    the position in the random source: what the selection of a mover and a
    destination may change. *)
Record shuffled (b b' : Board) : Prop := {
  sh_nodes : nodes b' = nodes b;
  sh_unsatisfied : unsatisfied b' = unsatisfied b;
  sh_whiteCells : whiteCells b' ≡ₚ whiteCells b;
  sh_board : board b' = board b;
  sh_size : size b' = size b;
  sh_pbound : pbound b' = pbound b;
  sh_stopping : stopping b' = stopping b;
  sh_animationList : animationList b' = animationList b;
  sh_rng : rng b' = rng b
}.

(** What every selection block guarantees: the state is only shuffled, a
    mover comes from the unsatisfied list, a destination (when one was
    assigned) from the empty-cell list, the only value returned early is
    [False], and no loop is involved. *)
Definition sel_post (b : Board) (r : res (nat * option nat + bool)) (b' : Board)
  : Prop :=
  shuffled b b'
  ∧ match r with
    | Val (inl (m, e)) => m ∈ unsatisfied b ∧ ∀ x, e = Some x → x ∈ whiteCells b'
    | Val (inr v) => v = false
    | Raise _ => True
    | OutOfFuel => False
    end.

Definition sel_ok (select : M (nat * option nat + bool)) : Prop :=
  ∀ b, wp select (sel_post b) b.

Definition presort_ok (presort : nat → M unit) : Prop :=
  ∀ m b, wp (presort m) (λ r b', r = Val tt ∧ shuffled b b') b.

(** The fields no policy writes before its final refresh and snapshot. *)
Definition same_frame (b b' : Board) : Prop :=
  board b' = board b ∧ size b' = size b ∧ pbound b' = pbound b
  ∧ stopping b' = stopping b ∧ animationList b' = animationList b
  ∧ rng b' = rng b.

(** [Node.setcolor] on the arena alone. *)
Definition paint (i : nat) (c : Color) (ns : list Node.t) : list Node.t :=
  <[i := Node.with_color c (ns !!! i)]> ns.

(** The two assignments of a relocation: the destination [e] takes the
    mover's colour, then the mover [m] becomes white. *)
Definition retype (m e : nat) (ns : list Node.t) : list Node.t :=
  paint m white (paint e (Node.color (ns !!! m)) ns).

(** A completed micro-move of a drain from [b] to [b']: mover [m] left the
    unsatisfied list, destination [e] left the (reordered) empty-cell list
    [wc], the mover was appended to it iff [giveback], and the two cells
    were retyped. *)
Inductive moved (giveback : bool) (b b' : Board) : Prop :=
| Moved (m e : nat) (wc wl : list nat)
    (mv_mover : m ∈ unsatisfied b)
    (mv_perm : wc ≡ₚ whiteCells b)
    (mv_unsat : remove_first m (unsatisfied b) = Some (unsatisfied b'))
    (mv_dest : remove_first e wc = Some wl)
    (mv_white : whiteCells b' = if giveback then wl ++ [m] else wl)
    (mv_nodes : nodes b' = retype m e (nodes b))
    (mv_frame : same_frame b b').

(** A micro-move that ended the call instead (by [return False] or by an
    exception): no cell was written, the empty-cell list was at most
    reordered and the unsatisfied list lost at most the mover. *)
Definition halted (b b' : Board) : Prop :=
  nodes b' = nodes b
  ∧ (unsatisfied b' = unsatisfied b
     ∨ ∃ m, remove_first m (unsatisfied b) = Some (unsatisfied b'))
  ∧ whiteCells b' ≡ₚ whiteCells b
  ∧ same_frame b b'.

Definition is_bookkeeping (giveback : bool) (bk : nat → option nat → M unit)
  : Prop :=
  bk = take_white_first giveback ∨ bk = take_mover_first giveback.

Inductive search : Set := Random | Closest.
Inductive acceptance : Set := Plain | SatisfyStop | SatisfyContinue.
Inductive granularity : Set := Single | Whitebatch | Batch.

#[global] Instance search_eq_dec : EqDecision search.
Proof. solve_decision. Defined.
#[global] Instance acceptance_eq_dec : EqDecision acceptance.
Proof. solve_decision. Defined.
#[global] Instance granularity_eq_dec : EqDecision granularity.
Proof. solve_decision. Defined.

(** The eighteen methods, indexed by their axes. *)
Definition policy (g : granularity) (s : search) (a : acceptance) (fuel : nat)
  : M bool :=
  match g, s, a with
  | Single, Random, Plain => step_single_random
  | Single, Random, SatisfyStop => step_single_randomSat_stop
  | Single, Random, SatisfyContinue => step_single_randomSat_cont
  | Single, Closest, Plain => step_single_closest
  | Single, Closest, SatisfyStop => step_single_closestSat_stop
  | Single, Closest, SatisfyContinue => step_single_closestSat_cont
  | Whitebatch, Random, Plain => step_whitebatch_random fuel
  | Whitebatch, Random, SatisfyStop => step_whitebatch_randomSat_stop fuel
  | Whitebatch, Random, SatisfyContinue => step_whitebatch_randomSat_cont fuel
  | Whitebatch, Closest, Plain => step_whitebatch_closest fuel
  | Whitebatch, Closest, SatisfyStop => step_whitebatch_closestSat_stop fuel
  | Whitebatch, Closest, SatisfyContinue => step_whitebatch_closestSat_cont fuel
  | Batch, Random, Plain => step_batch_random fuel
  | Batch, Random, SatisfyStop => step_batch_randomSat_stop fuel
  | Batch, Random, SatisfyContinue => step_batch_randomSat_cont fuel
  | Batch, Closest, Plain => step_batch_closest fuel
  | Batch, Closest, SatisfyStop => step_batch_closestSat_stop fuel
  | Batch, Closest, SatisfyContinue => step_batch_closestSat_cont fuel
  end.

Definition select_of (s : search) (a : acceptance) : M (nat * option nat + bool) :=
  match s, a with
  | Random, Plain => select_random
  | Random, SatisfyStop => select_randomSat_stop
  | Random, SatisfyContinue => select_randomSat_cont
  | Closest, Plain => select_closest
  | Closest, SatisfyStop => select_closestSat_stop
  | Closest, SatisfyContinue => select_closestSat_cont
  end.

Definition bookkeeping_of (s : search) (a : acceptance) (giveback : bool)
  : nat → option nat → M unit :=
  match s, a with
  | Closest, SatisfyStop | Closest, SatisfyContinue => take_mover_first giveback
  | _, _ => take_white_first giveback
  end.

(** Whether the vacated cell returns to the empty-cell candidates. *)
Definition giveback (g : granularity) : bool :=
  match g with
  | Whitebatch => true
  | _ => false
  end.

(** The loop body of the drain policy with these axes. *)
Definition body_of (g : granularity) (s : search) (a : acceptance)
  : M (flow unit bool) :=
  micro_move (select_of s a) (bookkeeping_of s a (giveback g)).

(** The board is a square of [size] rows of [size] distinct, allocated
    cells. *)
Definition board_ok (b : Board) : Prop :=
  NoDup (concat (board b))
  ∧ Forall (λ i, i < length (nodes b)) (concat (board b))
  ∧ length (board b) = size b
  ∧ Forall (λ row : list nat, length row = size b) (board b).

(** The two membership lists name distinct cells of the board, occupied
    ones in [unsatisfied] and empty ones in [whiteCells]. *)
Definition lists_ok (b : Board) : Prop :=
  NoDup (unsatisfied b)
  ∧ NoDup (whiteCells b)
  ∧ Forall (λ i, i ∈ concat (board b) ∧ color_of b i ≠ white) (unsatisfied b)
  ∧ Forall (λ i, i ∈ concat (board b) ∧ color_of b i = white) (whiteCells b).

Definition Inv (b : Board) : Prop := board_ok b ∧ lists_ok b.

(** The number of cells of the grid that have colour [c]. *)
Definition census (b : Board) (c : Color) : nat :=
  length (colored b c (concat (board b))).

(** What a policy call keeps of the grid: the census of each colour, the
    layout of the board and the arena's extent. *)
Definition kept (b b' : Board) : Prop :=
  (∀ c, census b' c = census b c)
  ∧ board b' = board b ∧ size b' = size b
  ∧ length (nodes b') = length (nodes b).

(** The eighteen policy identifiers with their axes, in the order of
    [algoDict]. *)
Definition policy_table : list (string * (granularity * search * acceptance)) :=
  [("singleRandom", (Single, Random, Plain));
   ("singleClosest", (Single, Closest, Plain));
   ("singleRandomSatisfyStop", (Single, Random, SatisfyStop));
   ("singleRandomSatisfyContinue", (Single, Random, SatisfyContinue));
   ("singleClosestSatisfyStop", (Single, Closest, SatisfyStop));
   ("singleClosestSatisfyContinue", (Single, Closest, SatisfyContinue));
   ("whitebatchRandom", (Whitebatch, Random, Plain));
   ("batchRandom", (Batch, Random, Plain));
   ("whitebatchRandomSatisfyStop", (Whitebatch, Random, SatisfyStop));
   ("batchRandomSatisfyStop", (Batch, Random, SatisfyStop));
   ("whitebatchRandomSatisfyContinue", (Whitebatch, Random, SatisfyContinue));
   ("batchRandomSatisfyContinue", (Batch, Random, SatisfyContinue));
   ("whitebatchClosest", (Whitebatch, Closest, Plain));
   ("batchClosest", (Batch, Closest, Plain));
   ("whitebatchClosestSatisfyStop", (Whitebatch, Closest, SatisfyStop));
   ("batchClosestSatisfyStop", (Batch, Closest, SatisfyStop));
   ("whitebatchClosestSatisfyContinue", (Whitebatch, Closest, SatisfyContinue));
   ("batchClosestSatisfyContinue", (Batch, Closest, SatisfyContinue))].

Definition policy_names : list string := policy_table.*1.

Definition policy_entry (fuel : nat)
    (e : string * (granularity * search * acceptance)) : string * M bool :=
  (e.1, policy e.2.1.1 e.2.1.2 e.2.2 fuel).

(** Any sequence of policy calls, whatever each one returns or raises. *)
Fixpoint calls (ps : list (granularity * search * acceptance * nat)) (b : Board)
  : Board :=
  match ps with
  | [] => b
  | (g, s, a, fuel) :: ps' => calls ps' (policy g s a fuel b).2
  end.

(** The cached values of every cell are those of [b]. *)
Definition same_cache (b b' : Board) : Prop :=
  ∀ i, Node.pval (node b' i) = Node.pval (node b i)
       ∧ Node.redval (node b' i) = Node.redval (node b i)
       ∧ Node.blueval (node b' i) = Node.blueval (node b i).

(** The occupied cells of the grid, in board order. *)
Definition occupied_cells (b : Board) : list nat :=
  filter (λ i, color_of b i ≠ white) (concat (board b)).

(** The sum of the cached satisfaction of the cells of a list. *)
Definition sum_pval (b : Board) (l : list nat) : Q :=
  foldr (λ i acc, (Node.pval (node b i) + acc)%Q) 0%Q l.

(** The empty-cell list holds the empty cells of the grid, each once. *)
Definition whiteCells_consistent (b : Board) : Prop :=
  whiteCells b ≡ₚ colored b white (concat (board b)).

(** No empty cell meets the bound for a mover of colour [c]. *)
Definition no_candidate (b : Board) (c : Color) : Prop :=
  ∀ e, e ∈ whiteCells b →
    match c with
    | red => Qle_bool (pbound b) (Node.redval (node b e)) = false
    | blue => Qle_bool (pbound b) (Node.blueval (node b e)) = false
    | white => True
    end.

#[global] Instance Inv_dec b : Decision (Inv b).
Proof. unfold Inv, board_ok, lists_ok. apply _. Defined.

(** [Board(2, 0.25, 0.5, 0.5, 1)] under an oracle that draws white, red,
    blue, blue: one empty cell, one red and two blue cells, all adjacent.
    Only the red cell is unsatisfied. *)
Definition board_A : Board :=
  (Board_init 2 (1#4) (1#2) (1#2) 1 (λ k, nth k [0; 0; 1; 0] 0)).2.

(** [Board(2, 0.25, 0.5, 1, 3)] under the same oracle: the same colours
    with bound 1, so the three occupied cells are unsatisfied; floor 3. *)
Definition board_B : Board :=
  (Board_init 2 (1#4) (1#2) 1 3 (λ k, nth k [0; 0; 1; 0] 0)).2.

(** [Board(2, 0, 0.5, 1, 5)]: no empty cell, two red and two blue cells,
    all unsatisfied; floor 5. *)
Definition board_C : Board :=
  (Board_init 2 0 (1#2) 1 5 (λ k, nth k [0; 2; 0; 0] 0)).2.

(** [Board(2, 0.25, 0.5, 1, 5)]: as [board_B] with floor 5. *)
Definition board_D : Board :=
  (Board_init 2 (1#4) (1#2) 1 5 (λ k, nth k [0; 0; 1; 0] 0)).2.

(** [Board(2, 0.25, 0.5, 0, 1)]: the colours of [board_A] with bound 0, so
    no cell is unsatisfied. *)
Definition board_E : Board :=
  (Board_init 2 (1#4) (1#2) 0 1 (λ k, nth k [0; 0; 1; 0] 0)).2.

(** [Board(2, 0.25, 0.5, 0.6, 1)]: the colours of [board_A] with bound 3/5.
    The three occupied cells are unsatisfied; the empty cell has a blue
    share of 2/3 and a red share of 1/3. *)
Definition board_F : Board :=
  (Board_init 2 (1#4) (1#2) (3#5) 1 (λ k, nth k [0; 0; 1; 0] 0)).2.

(** The cached values of cell [i] are current: a refresh changes nothing. *)
Definition uptodate (b : Board) (i : nat) : Prop := (update i b).2 = b.

(** What only [setcolor] can change of a node, and what nothing changes. *)
Definition label (n : Node.t) : Color * Z * Z :=
  (Node.color n, Node.x n, Node.y n).

(** Everything in the state but the arena. *)
Definition outside_arena (b : Board) :=
  (size b, pbound b, white_count b, red_count b, blue_count b, unsatisfied b,
   whiteCells b, board b, animationList b, stopping b, rng b, drawn b).

(** While the board is built: the rows are the complete rows [full] and
    the row under construction [cur]; the cells, read row by row, are the
    references allocated so far, in allocation order. *)
Definition building (sz : nat) (full : list (list nat)) (cur : list nat)
    (b : Board) : Prop :=
  concat (full ++ [cur]) = seq 0 (length (nodes b))
  ∧ Forall (λ row : list nat, length row = sz) full.

(** What construction leaves alone until its final scan. *)
Definition unscanned (b0 b : Board) : Prop :=
  size b = size b0 ∧ pbound b = pbound b0 ∧ unsatisfied b = unsatisfied b0
  ∧ whiteCells b = whiteCells b0 ∧ board b = board b0.

(** No cell allocated, nothing scanned. *)
Definition settled (b b' : Board) : Prop :=
  length (nodes b') = length (nodes b) ∧ unscanned b b'.

(** The cached share of colour [c] around the empty cell [x] meets the
    bound: the test of the "Find Satisfying" scans. *)
Definition qualifies (b : Board) (c : Color) (x : nat) : Prop :=
  match c with
  | red => Qle_bool (pbound b) (Node.redval (node b x)) = true
  | blue => Qle_bool (pbound b) (Node.blueval (node b x)) = true
  | white => False
  end.

(** The index of the cell in row [i], column [j] of a grid of width [sz]
    whose cells are numbered row by row. *)
Definition cell (sz i j : nat) : nat := i * sz + j.

(** Cells [p] and [q] of such a grid are distinct and at most one row and
    one column apart. *)
Definition near (sz p q : nat) : Prop :=
  p ≠ q ∧ p / sz ≤ q / sz + 1 ∧ q / sz ≤ p / sz + 1
  ∧ p mod sz ≤ q mod sz + 1 ∧ q mod sz ≤ p mod sz + 1.

(** The number of allocated nodes of colour [c]. *)
Definition population (b : Board) (c : Color) : nat :=
  length (colored b c (seq 0 (length (nodes b)))).

(** The state of the constructor between two cells, for the population
    targets [wc], [rc], [bc]: the counters hold what is left to draw, one
    draw was made per node, every node sits at the coordinates of its index
    and is adjacent to exactly the allocated cells around it. *)
Record constructing (sz : nat) (wc rc bc : Z) (b : Board) : Prop := {
  cs_white : white_count b = (wc - Z.of_nat (population b white))%Z;
  cs_red : red_count b = (rc - Z.of_nat (population b red))%Z;
  cs_blue : blue_count b = (bc - Z.of_nat (population b blue))%Z;
  cs_nonneg : (0 <= white_count b ∧ 0 <= red_count b ∧ 0 <= blue_count b)%Z;
  cs_drawn : drawn b = length (nodes b);
  cs_xy : ∀ p, p < length (nodes b) →
          Node.x (node b p) = Z.of_nat (p / sz)
          ∧ Node.y (node b p) = Z.of_nat (p mod sz);
  cs_neigh : ∀ p q, q ∈ Node.neigh (node b p) ↔
             p < length (nodes b) ∧ q < length (nodes b) ∧ near sz p q;
  cs_size : size b = sz
}.

(** From [b] to [b'] the node [n] was bound to the nodes of [B], and nothing
    else happened but cache refreshes. *)
Definition bound_to (n : nat) (B : gset nat) (b b' : Board) : Prop :=
  length (nodes b') = length (nodes b)
  ∧ outside_arena b' = outside_arena b
  ∧ (∀ j, label (node b' j) = label (node b j))
  ∧ Node.neigh (node b' n) = Node.neigh (node b n) ∪ B
  ∧ (∀ p, p ≠ n →
       Node.neigh (node b' p)
       = Node.neigh (node b p) ∪ (if decide (p ∈ B) then {[n]} else ∅)).

(** One draw of colour [c], counted under colour [c']. *)
Definition drew (c c' : Color) : Z := if decide (c = c') then 1%Z else 0%Z.

(** What drawing a colour [c] and allocating a node for it does to the state. *)
Record allocated (c : Color) (x y : Z) (b b' : Board) : Prop := {
  al_length : length (nodes b') = S (length (nodes b));
  al_old : ∀ p, p < length (nodes b) → node b' p = node b p;
  al_label : label (node b' (length (nodes b))) = (c, x, y);
  al_neigh : Node.neigh (node b' (length (nodes b))) = ∅;
  al_white : white_count b' = (white_count b - drew c white)%Z;
  al_red : red_count b' = (red_count b - drew c red)%Z;
  al_blue : blue_count b' = (blue_count b - drew c blue)%Z;
  al_nonneg : (0 <= white_count b' ∧ 0 <= red_count b' ∧ 0 <= blue_count b')%Z;
  al_drawn : drawn b' = S (drawn b);
  al_size : size b' = size b
}.

(** * Properties *)

(** ** The arena *)

Lemma node_set_node_eq i n b :
  i < length (nodes b) → node (set_node i n b) i = n.
Proof. intros H. unfold node, set_node. simpl. by apply list_lookup_total_insert_eq. Qed.

Lemma node_set_node_ne i j n b : i ≠ j → node (set_node i n b) j = node b j.
Proof. intros H. unfold node, set_node. simpl. by apply list_lookup_total_insert_ne. Qed.

Lemma node_set_node_ge i n b : length (nodes b) ≤ i → set_node i n b = b.
Proof.
  intros H. unfold set_node. rewrite list_insert_ge by done. by destruct b.
Qed.

Lemma length_nodes_set_node i n b :
  length (nodes (set_node i n b)) = length (nodes b).
Proof. unfold set_node. simpl. apply length_insert. Qed.

(** Writing a node that keeps its colour keeps every colour. *)
Lemma color_of_set_node i n b j :
  Node.color n = color_of b i → color_of (set_node i n b) j = color_of b j.
Proof.
  intros H. unfold color_of.
  destruct (decide (i = j)) as [<-|Hne]; [|by rewrite node_set_node_ne].
  destruct (decide (i < length (nodes b))).
  - by rewrite node_set_node_eq.
  - rewrite node_set_node_ge by lia. done.
Qed.

Lemma neigh_set_node i n b j :
  Node.neigh n = Node.neigh (node b i) →
  Node.neigh (node (set_node i n b) j) = Node.neigh (node b j).
Proof.
  intros H.
  destruct (decide (i = j)) as [<-|Hne]; [|by rewrite node_set_node_ne].
  destruct (decide (i < length (nodes b))).
  - by rewrite node_set_node_eq.
  - rewrite node_set_node_ge by lia. done.
Qed.

(** ** Node.update *)

Lemma count_neigh_acc b l r0 b0 :
  foldl (count_step b) (r0, b0) l
  = (r0 + length (colored b red l), b0 + length (colored b blue l)).
Proof.
  revert r0 b0. induction l as [|n l IH]; intros r0 b0; simpl.
  - f_equal; lia.
  - unfold colored in *. rewrite !filter_cons. unfold count_step at 2.
    destruct (color_of b n) eqn:E; simpl;
      repeat case_decide; try congruence; rewrite IH; simpl; f_equal; lia.
Qed.

Lemma count_neigh_spec b l :
  count_neigh b l = (length (colored b red l), length (colored b blue l)).
Proof. unfold count_neigh. by rewrite count_neigh_acc. Qed.

Lemma length_occupied b l :
  length (filter (λ n, color_of b n ≠ white) l)
  = length (colored b red l) + length (colored b blue l).
Proof.
  unfold colored. induction l as [|n l IH]; [done|].
  rewrite !filter_cons.
  destruct (color_of b n) eqn:E; repeat case_decide; try congruence; simpl; lia.
Qed.

Lemma same_of_colored b i c :
  color_of b i = c → c ≠ white →
  same_neighbors b i = colored b c (elements (Node.neigh (node b i))).
Proof.
  intros Hc Hw. unfold same_neighbors, occupied_neighbors, colored.
  rewrite Hc. rewrite list_filter_filter. apply list_filter_iff.
  intros n. split; [tauto|]. intros ->. done.
Qed.

Lemma ratio_sum r b : 0 < r + b → (ratio r (r + b) + ratio b (r + b) == 1)%Q.
Proof.
  intros H. unfold ratio.
  assert (Hnz : ¬ (inject_Z (Z.of_nat (r + b)) == 0)%Q).
  { unfold Qeq. simpl. lia. }
  rewrite Nat2Z.inj_add in *. rewrite inject_Z_plus in *. field. exact Hnz.
Qed.

Lemma update_color i b j : color_of (update i b).2 j = color_of b j.
Proof.
  unfold update.
  destruct (count_neigh b _) as [r bl].
  destruct (r + bl =? 0); simpl; by apply color_of_set_node.
Qed.

Lemma update_neigh i b j :
  Node.neigh (node (update i b).2 j) = Node.neigh (node b j).
Proof.
  unfold update.
  destruct (count_neigh b _) as [r bl].
  destruct (r + bl =? 0); simpl; by apply neigh_set_node.
Qed.

Lemma update_returns_pval i b :
  i < length (nodes b) → (update i b).1 = Node.pval (node (update i b).2 i).
Proof.
  intros Hi. unfold update.
  destruct (count_neigh b _) as [r bl].
  destruct (r + bl =? 0); simpl; by rewrite node_set_node_eq.
Qed.

(** C4. After [Node.update] on a cell: with no occupied neighbour the three
    cached values are 1; with at least one, [redval + blueval] is 1, an
    empty cell has [pval] 1 and an occupied cell's [pval] is the share of
    its occupied neighbours that have its own colour. Colours are untouched
    and the value returned is the new [pval]. *)
Theorem update_values (b : Board) (i : nat) :
  i < length (nodes b) →
  let b' := (update i b).2 in
  let n' := node b' i in
  let occ := length (occupied_neighbors b i) in
  (update i b).1 = Node.pval n'
  ∧ (∀ j, color_of b' j = color_of b j)
  ∧ (occ = 0 →
       Node.redval n' = 1%Q ∧ Node.blueval n' = 1%Q ∧ Node.pval n' = 1%Q)
  ∧ (0 < occ →
       (Node.redval n' + Node.blueval n' == 1)%Q
       ∧ (color_of b i = white → Node.pval n' = 1%Q)
       ∧ (color_of b i ≠ white →
            Node.pval n' = ratio (length (same_neighbors b i)) occ)).
Proof.
  intros Hi b' n' occ.
  split; [by apply update_returns_pval|].
  split; [intros j; apply update_color|].
  subst b' n' occ. unfold occupied_neighbors at 1 2. rewrite length_occupied.
  unfold update. rewrite count_neigh_spec.
  set (r := length (colored b red _)). set (bl := length (colored b blue _)).
  destruct (r + bl =? 0) eqn:E; simpl; rewrite node_set_node_eq by done; simpl.
  - apply Nat.eqb_eq in E. split; [done|lia].
  - apply Nat.eqb_neq in E. split; [lia|]. intros _.
    split; [apply ratio_sum; lia|].
    fold (color_of b i). split.
    + by intros ->.
    + intros Hw. unfold occupied_neighbors. rewrite length_occupied.
      fold r bl.
      destruct (color_of b i) eqn:Hc; [done| |].
      * by rewrite (same_of_colored b i red).
      * by rewrite (same_of_colored b i blue).
Qed.

(** ** Board.reload_sets *)

Lemma colored_ext b1 b2 c l :
  (∀ j, color_of b1 j = color_of b2 j) → colored b1 c l = colored b2 c l.
Proof.
  intros H. unfold colored. apply list_filter_iff. intros n. by rewrite H.
Qed.

Lemma fresh_ext b1 b2 i :
  (∀ j, color_of b1 j = color_of b2 j) →
  Node.neigh (node b1 i) = Node.neigh (node b2 i) →
  fresh b1 i = fresh b2 i.
Proof.
  intros Hc Hn. unfold fresh, update. rewrite !count_neigh_spec, Hn.
  rewrite !(colored_ext b1 b2) by done.
  fold (color_of b1 i) (color_of b2 i). rewrite Hc.
  destruct (_ =? 0); simpl; done.
Qed.

Lemma update_other i b j : i ≠ j → node (update i b).2 j = node b j.
Proof.
  intros H. unfold update.
  destruct (count_neigh b _) as [r bl].
  destruct (r + bl =? 0); simpl; by rewrite node_set_node_ne.
Qed.

Lemma update_length i b : length (nodes (update i b).2) = length (nodes b).
Proof.
  unfold update.
  destruct (count_neigh b _) as [r bl].
  destruct (r + bl =? 0); simpl; apply length_insert.
Qed.

Lemma update_frame i b :
  let b' := (update i b).2 in
  size b' = size b ∧ pbound b' = pbound b ∧ unsatisfied b' = unsatisfied b
  ∧ whiteCells b' = whiteCells b ∧ board b' = board b
  ∧ animationList b' = animationList b ∧ stopping b' = stopping b
  ∧ rng b' = rng b ∧ drawn b' = drawn b.
Proof.
  unfold update.
  destruct (count_neigh b _) as [r bl].
  destruct (r + bl =? 0); simpl; done.
Qed.

Lemma fresh_update j b i : fresh (update j b).2 i = fresh b i.
Proof. apply fresh_ext; [apply update_color | apply update_neigh]. Qed.


Lemma scan_node_scanned i w u b : scanned [i] w u b (scan_node (w, u, b) i).
Proof.
  unfold scan_node.
  pose proof (update_frame i b) as (Hs & Hp & _ & _ & Hb & Ha & Hst & Hr & Hd).
  pose proof (update_color i b) as Hc.
  destruct (update i b) as [pv b'] eqn:E.
  assert (Hpv : pv = fresh b i) by (unfold fresh; by rewrite E).
  assert (Hb' : b' = (update i b).2) by (by rewrite E).
  simpl in *. rewrite Hc, Hp.
  assert (Hrest : ∀ r : list nat * list nat * Board,
    r.2 = b' →
    r.1.1 = w ++ colored b white [i] →
    r.1.2 = u ++ filter (λ i, color_of b i ≠ white
                              ∧ Qltb (fresh b i) (pbound b) = true) [i] →
    scanned [i] w u b r).
  { intros r Hr2 Hr1 Hru. split; rewrite ?Hr2; try done.
    - intros j. rewrite Hb'. apply update_neigh.
    - rewrite Hb'. apply update_length.
    - intros k Hk Hlt. apply list_elem_of_singleton in Hk as ->.
      rewrite Hb'. by rewrite <- update_returns_pval.
    - intros k Hk. rewrite Hb'. apply update_other.
      intros ->. apply Hk. by apply list_elem_of_singleton. }
  unfold colored in *. subst pv.
  destruct (color_of b i) eqn:Ecol.
  - apply Hrest; simpl; [done| |].
    + rewrite filter_cons_True by done. done.
    + rewrite filter_cons_False by (rewrite Ecol; tauto). by rewrite app_nil_r.
  - destruct (Qltb (fresh b i) (pbound b)) eqn:Elt; apply Hrest; simpl; try done.
    + rewrite filter_cons_False by (rewrite Ecol; done). by rewrite app_nil_r.
    + rewrite filter_cons_True by (rewrite Ecol; done). done.
    + rewrite filter_cons_False by (rewrite Ecol; done). by rewrite app_nil_r.
    + rewrite filter_cons_False by (rewrite Elt; intros [_ ?]; done).
      by rewrite app_nil_r.
  - destruct (Qltb (fresh b i) (pbound b)) eqn:Elt; apply Hrest; simpl; try done.
    + rewrite filter_cons_False by (rewrite Ecol; done). by rewrite app_nil_r.
    + rewrite filter_cons_True by (rewrite Ecol; done). done.
    + rewrite filter_cons_False by (rewrite Ecol; done). by rewrite app_nil_r.
    + rewrite filter_cons_False by (rewrite Elt; intros [_ ?]; done).
      by rewrite app_nil_r.
Qed.

Lemma scanned_nil w u b : scanned [] w u b (w, u, b).
Proof.
  split; simpl; try done.
  - by rewrite app_nil_r.
  - by rewrite app_nil_r.
  - intros i Hi. by apply elem_of_nil in Hi.
Qed.

Lemma scanned_app l1 l2 w u b r1 r2 :
  scanned l1 w u b r1 → scanned l2 r1.1.1 r1.1.2 r1.2 r2 →
  scanned (l1 ++ l2) w u b r2.
Proof.
  intros H1 H2.
  destruct H1 as [Hw1 Hu1 Hc1 Hn1 Hl1 Hp1 Ho1 (Hs1 & Hpb1 & Hb1 & Ha1 & Hst1 & Hr1 & Hd1)].
  destruct H2 as [Hw2 Hu2 Hc2 Hn2 Hl2 Hp2 Ho2 (Hs2 & Hpb2 & Hb2 & Ha2 & Hst2 & Hr2 & Hd2)].
  assert (Hfresh : ∀ i, fresh r1.2 i = fresh b i).
  { intros i. by apply fresh_ext. }
  split.
  - rewrite Hw2, Hw1. unfold colored. rewrite filter_app, <- app_assoc.
    f_equal. f_equal. by apply colored_ext.
  - rewrite Hu2, Hu1. rewrite filter_app, <- app_assoc. f_equal. f_equal.
    apply list_filter_iff. intros i. by rewrite Hc1, Hfresh, Hpb1.
  - intros j. by rewrite Hc2.
  - intros j. by rewrite Hn2.
  - by rewrite Hl2.
  - intros i Hi Hlt. destruct (decide (i ∈ l2)) as [Hin|Hnin].
    + rewrite Hp2 by (done || by rewrite Hl1). apply Hfresh.
    + rewrite Ho2 by done. apply Hp1; [|done].
      apply elem_of_app in Hi. tauto.
  - intros i Hi. rewrite Ho2, Ho1; [done| |]; intros ?; apply Hi;
      apply elem_of_app; tauto.
  - repeat split; congruence.
Qed.

Lemma scan_row_scanned l w u b : scanned l w u b (foldl scan_node (w, u, b) l).
Proof.
  revert w u b. induction l as [|i l IH]; intros w u b; [apply scanned_nil|].
  change (foldl scan_node (w, u, b) (i :: l))
    with (foldl scan_node (scan_node (w, u, b) i) l).
  change (i :: l) with ([i] ++ l).
  eapply scanned_app; [apply scan_node_scanned|].
  destruct (scan_node (w, u, b) i) as [[w1 u1] b1]. apply IH.
Qed.

Lemma scan_rows_scanned rows w u b :
  scanned (concat rows) w u b (scan_rows rows (w, u, b)).
Proof.
  unfold scan_rows. revert w u b.
  induction rows as [|row rows IH]; intros w u b; [apply scanned_nil|].
  change (foldl _ (w, u, b) (row :: rows))
    with (foldl (λ acc row, foldl scan_node acc row)
            (foldl scan_node (w, u, b) row) rows).
  change (concat (row :: rows)) with (row ++ concat rows).
  eapply scanned_app; [apply scan_row_scanned|].
  destruct (foldl scan_node (w, u, b) row) as [[w1 u1] b1]. apply IH.
Qed.

(** The lists [reload_sets] leaves, in scan order. *)
Lemma reload_sets_lists b :
  let b' := reload_sets b in
  whiteCells b' = colored b white (concat (board b))
  ∧ unsatisfied b' = filter (λ i, color_of b i ≠ white
                                  ∧ Qltb (fresh b i) (pbound b) = true)
                            (concat (board b))
  ∧ (∀ j, color_of b' j = color_of b j)
  ∧ (∀ j, Node.neigh (node b' j) = Node.neigh (node b j))
  ∧ length (nodes b') = length (nodes b)
  ∧ (∀ i, i ∈ concat (board b) → i < length (nodes b) →
          Node.pval (node b' i) = fresh b i)
  ∧ (∀ i, i ∉ concat (board b) → node b' i = node b i)
  ∧ size b' = size b ∧ pbound b' = pbound b ∧ board b' = board b
  ∧ animationList b' = animationList b ∧ stopping b' = stopping b
  ∧ rng b' = rng b ∧ drawn b' = drawn b.
Proof.
  unfold reload_sets.
  pose proof (scan_rows_scanned (board b) [] [] b) as H.
  destruct (scan_rows (board b) ([], [], b)) as [[w u] b1].
  destruct H as [Hw Hu Hc Hn Hl Hp Ho (Hs & Hpb & Hb & Ha & Hst & Hr & Hd)].
  simpl in *. repeat split; try done.
Qed.


(** ** Reasoning about method calls *)

#[local] Arguments Nat.modulo : simpl never.
#[local] Arguments Z.pow : simpl never.

Lemma wp_bind {A B} (m : M A) (f : A → M B) (Q : res B → Board → Prop) b :
  wp m (λ r b', match r with
                | Val a => wp (f a) Q b'
                | Raise e => Q (Raise e) b'
                | OutOfFuel => Q OutOfFuel b'
                end) b →
  wp (m ≫= f) Q b.
Proof.
  unfold wp, mbind, M_bind. destruct (m b) as [[a|e|] b1]; simpl; auto.
Qed.

Lemma wp_mono {A} (m : M A) (Q Q' : res A → Board → Prop) b :
  wp m Q b → (∀ r b', Q r b' → Q' r b') → wp m Q' b.
Proof. unfold wp. auto. Qed.

Lemma wp_ret {A} (a : A) (Q : res A → Board → Prop) b : Q (Val a) b → wp (mret a) Q b.
Proof. done. Qed.

Lemma wp_gets {A} (f : Board → A) (Q : res A → Board → Prop) b :
  Q (Val (f b)) b → wp (gets f) Q b.
Proof. done. Qed.

Lemma wp_modify (f : Board → Board) (Q : res unit → Board → Prop) b :
  Q (Val tt) (f b) → wp (modify f) Q b.
Proof. done. Qed.

Lemma wp_raise {A} e (Q : res A → Board → Prop) b : Q (Raise e) b → wp (raise e) Q b.
Proof. done. Qed.

Lemma shuffled_refl b : shuffled b b.
Proof. by split. Qed.

Lemma shuffled_trans b1 b2 b3 : shuffled b1 b2 → shuffled b2 b3 → shuffled b1 b3.
Proof.
  intros [] []. split; try congruence. etrans; eassumption.
Qed.

Lemma shuffled_drawn k b : shuffled b (set_drawn k b).
Proof. by split. Qed.

Lemma shuffled_whiteCells l b : l ≡ₚ whiteCells b → shuffled b (set_whiteCells l b).
Proof. intros H. by split. Qed.

Lemma shuffled_color b b' i : shuffled b b' → color_of b' i = color_of b i.
Proof. intros []. unfold color_of, node. congruence. Qed.

Lemma shuffled_white_elem b b' i :
  shuffled b b' → i ∈ whiteCells b' ↔ i ∈ whiteCells b.
Proof. intros []. by rewrite sh_whiteCells0. Qed.

(** *** The random source *)

Lemma random_sample_wp (f : Board → list nat) b :
  wp (random_sample f)
     (λ r b', shuffled b b'
              ∧ match r with
                | Val a => a ∈ f b
                | Raise e => e = ValueError ∧ f b = [] ∧ b' = b
                | OutOfFuel => False
                end) b.
Proof.
  unfold wp, random_sample, mbind, M_bind, gets. simpl.
  destruct (f b) as [|a l] eqn:E.
  - split; [apply shuffled_refl|done].
  - unfold randbelow, mret, M_ret. cbn [fst snd].
    split; [apply shuffled_drawn|].
    apply list_elem_of_lookup_total_2.
    apply Nat.mod_upper_bound. done.
Qed.

Lemma swap_perm i j l : i < length l → j < length l → swap i j l ≡ₚ l.
Proof.
  intros Hi Hj. unfold swap.
  destruct (lookup_lt_is_Some_2 l i Hi) as [a Ha].
  destruct (lookup_lt_is_Some_2 l j Hj) as [c Hc].
  rewrite (list_lookup_total_correct _ _ _ Ha), (list_lookup_total_correct _ _ _ Hc).
  by apply Permutation_insert_swap.
Qed.

Lemma randbelow_wp n b (Q : res nat → Board → Prop) :
  (∀ j, (0 < n → j < n) → Q (Val j) (set_drawn (S (drawn b)) b)) →
  wp (randbelow n) Q b.
Proof.
  intros H. unfold wp, randbelow. cbn [fst snd]. apply H.
  intros Hn. apply Nat.mod_upper_bound. lia.
Qed.

Lemma shuffle_from_wp i l b :
  i < length l ∨ i = 0 →
  wp (shuffle_from i l)
     (λ r b', shuffled b b' ∧ ∃ l', r = Val l' ∧ l' ≡ₚ l) b.
Proof.
  revert l b. induction i as [|i IH]; intros l b Hi.
  - simpl. apply wp_ret. split; [apply shuffled_refl|by exists l].
  - destruct Hi as [Hi|Hi]; [|done].
    cbn [shuffle_from]. apply wp_bind. apply randbelow_wp. intros j Hj.
    assert (Hperm : swap (S i) j l ≡ₚ l) by (apply swap_perm; lia).
    eapply wp_mono.
    + apply IH. left. rewrite Hperm. lia.
    + cbv beta. intros r b' [Hsh (l' & -> & Hl')]. split.
      * eapply shuffled_trans; [apply shuffled_drawn|done].
      * exists l'. split; [done|by rewrite Hl'].
Qed.

Lemma shuffle_whiteCells_wp b :
  wp shuffle_whiteCells (λ r b', r = Val tt ∧ shuffled b b') b.
Proof.
  unfold shuffle_whiteCells. apply wp_bind, wp_gets. apply wp_bind.
  eapply wp_mono.
  - apply (shuffle_from_wp (length (whiteCells b) - 1) (whiteCells b)).
    destruct (whiteCells b); simpl; lia.
  - cbv beta. intros r b' [Hsh (l' & -> & Hl')]. apply wp_modify.
    split; [done|]. eapply shuffled_trans; [done|].
    apply shuffled_whiteCells. rewrite Hl'. symmetry. apply Hsh.
Qed.

Lemma insert_by_perm key a l : insert_by key a l ≡ₚ a :: l.
Proof.
  induction l as [|h t IH]; simpl; [done|].
  destruct (key a <=? key h)%Z; [done|]. rewrite IH. apply Permutation_swap.
Qed.

Lemma sort_by_perm key l : sort_by key l ≡ₚ l.
Proof.
  unfold sort_by. induction l as [|a l IH]; simpl; [done|].
  by rewrite insert_by_perm, IH.
Qed.

Lemma sort_whiteCells_wp m b :
  wp (sort_whiteCells m) (λ r b', r = Val tt ∧ shuffled b b') b.
Proof.
  unfold sort_whiteCells. apply wp_modify. split; [done|].
  apply shuffled_whiteCells, sort_by_perm.
Qed.

Lemma no_sort_wp m b : wp (no_sort m) (λ r b', r = Val tt ∧ shuffled b b') b.
Proof. apply wp_ret. split; [done|apply shuffled_refl]. Qed.

(** *** The scans *)

Lemma first_candidate_Some q l a :
  first_candidate q l = Some a → a ∈ l ∧ q a = true.
Proof.
  induction l as [|h t IH]; simpl; [done|].
  destruct (q h) eqn:E.
  - intros [= <-]. split; [left|done].
  - intros H. destruct (IH H). split; [by right|done].
Qed.

Lemma first_candidate_None q l :
  first_candidate q l = None ↔ ∀ a, a ∈ l → q a = false.
Proof.
  induction l as [|h t IH]; simpl.
  - split; [|done]. intros _ a Ha. by apply elem_of_nil in Ha.
  - destruct (q h) eqn:E.
    + split; [done|]. intros H. rewrite H in E; [done|left].
    + rewrite IH. split.
      * intros H a Ha. apply elem_of_cons in Ha as [->|Ha]; auto.
      * intros H a Ha. apply H. by right.
Qed.

Lemma find_satisfying_elem c b a : find_satisfying c b = Some a → a ∈ whiteCells b.
Proof.
  destruct c; simpl; try done; intros H; by apply first_candidate_Some in H as [].
Qed.

(** *** Selection blocks *)

Lemma other_color_wp presort c others m e b :
  presort_ok presort →
  (∀ x, e = Some x → x ∈ whiteCells b) →
  wp (other_color presort c others m e)
     (λ r b', shuffled b b'
              ∧ match r with
                | Val (inl (m', e')) =>
                    (m' = m ∨ m' ∈ others) ∧ ∀ x, e' = Some x → x ∈ whiteCells b'
                | Val (inr v) => v = false
                | Raise _ => False
                | OutOfFuel => False
                end) b.
Proof.
  intros Hpre. revert m e b.
  induction others as [|o others IH]; intros m e b He.
  - apply wp_ret. split; [apply shuffled_refl|]. split; [by left|done].
  - cbn [other_color]. apply wp_bind, wp_gets.
    assert (Hweaken : ∀ m1 e1 b1, shuffled b b1 →
              (m1 = m ∨ m1 = o) → (∀ x, e1 = Some x → x ∈ whiteCells b1) →
              wp (other_color presort c others m1 e1)
                 (λ r b', shuffled b b'
                   ∧ match r with
                     | Val (inl (m', e')) =>
                         (m' = m ∨ m' ∈ o :: others)
                         ∧ ∀ x, e' = Some x → x ∈ whiteCells b'
                     | Val (inr v) => v = false
                     | Raise _ => False
                     | OutOfFuel => False
                     end) b1).
    { intros m1 e1 b1 Hsh Hm1 He1. eapply wp_mono; [by apply IH|].
      cbv beta. intros r b' [Hsh' Hr]. split; [by eapply shuffled_trans|].
      destruct r as [[[m' e']|v]| |]; try done.
      destruct Hr as [Hm' He']. split; [|done].
      destruct Hm' as [->|Hm'].
      - destruct Hm1 as [->| ->]; [by left|right; left].
      - right. by right. }
    destruct (decide (color_of b o = c)).
    + apply Hweaken; [apply shuffled_refl|by left|done].
    + apply wp_bind. eapply wp_mono; [apply Hpre|].
      cbv beta. intros r b1 [-> Hsh]. apply wp_bind, wp_gets.
      destruct (find_satisfying (color_of b o) b1) as [cand|] eqn:Ef.
      * apply Hweaken; [done|by right|].
        intros x [= <-]. by eapply find_satisfying_elem.
      * destruct e as [x|].
        -- apply Hweaken; [done|by left|].
           intros ? [= <-]. rewrite (shuffled_white_elem b b1) by done. auto.
        -- apply wp_ret. split; done.
Qed.

Lemma try_other_color_wp presort c m e b :
  presort_ok presort →
  (∀ x, e = Some x → x ∈ whiteCells b) →
  wp (try_other_color presort c m e)
     (λ r b', shuffled b b'
              ∧ match r with
                | Val (inl (m', e')) =>
                    (m' = m ∨ m' ∈ unsatisfied b)
                    ∧ ∀ x, e' = Some x → x ∈ whiteCells b'
                | Val (inr v) => v = false
                | Raise _ => False
                | OutOfFuel => False
                end) b.
Proof.
  intros Hpre He. unfold try_other_color. destruct e as [x|].
  - apply wp_ret. split; [apply shuffled_refl|]. split; [by left|done].
  - apply wp_bind, wp_gets. by apply other_color_wp.
Qed.

Ltac wp_sample a b1 H Hs :=
  apply wp_bind; eapply wp_mono; [apply random_sample_wp|];
  cbv beta; intros [a|?|] b1 [Hs H];
  [|split; [eauto using shuffled_trans|exact I]|destruct H].

Ltac wp_shuffle lem b1 Hs :=
  apply wp_bind; eapply wp_mono; [apply lem|];
  cbv beta; intros ? b1 [-> Hs].

Lemma sel_post_of_try b b1 m r b' :
  shuffled b b1 → m ∈ unsatisfied b →
  (shuffled b1 b'
   ∧ match r with
     | Val (inl (m', e')) =>
         (m' = m ∨ m' ∈ unsatisfied b1) ∧ ∀ x, e' = Some x → x ∈ whiteCells b'
     | Val (inr v) => v = false
     | Raise _ => False
     | OutOfFuel => False
     end) →
  sel_post b r b'.
Proof.
  intros Hsh Hm [Hsh' Hr]. split; [by eapply shuffled_trans|].
  destruct r as [[[m' e']|v]| |]; try done.
  destruct Hr as [Hm' He']. split; [|done].
  destruct Hm' as [->|Hm']; [done|]. by rewrite <- (sh_unsatisfied _ _ Hsh).
Qed.

Lemma select_random_ok : sel_ok select_random.
Proof.
  intros b. unfold select_random.
  wp_sample m b1 Hm Hs1. wp_sample e b2 He Hs2.
  apply wp_ret. split; [by eapply shuffled_trans|].
  split; [done|]. intros x [= <-].
  by rewrite (shuffled_white_elem _ _ _ Hs2).
Qed.

Lemma select_randomSat_stop_ok : sel_ok select_randomSat_stop.
Proof.
  intros b. unfold select_randomSat_stop.
  wp_sample m b1 Hm Hs1. wp_shuffle shuffle_whiteCells_wp b' Hs2.
  apply wp_bind, wp_gets. apply wp_bind, wp_gets.
  eapply wp_mono.
  - apply try_other_color_wp; [exact no_sort_wp|].
    intros x Hx. by eapply find_satisfying_elem.
  - cbv beta. intros r b2 H.
    eapply sel_post_of_try; [|exact Hm|exact H]. by eapply shuffled_trans.
Qed.

Lemma select_randomSat_cont_ok : sel_ok select_randomSat_cont.
Proof.
  intros b. unfold select_randomSat_cont.
  wp_sample m b1 Hm Hs1. wp_shuffle shuffle_whiteCells_wp b' Hs2.
  apply wp_bind, wp_gets. apply wp_bind, wp_gets.
  assert (Hs : shuffled b b') by (by eapply shuffled_trans).
  destruct (find_satisfying _ b') as [x|] eqn:Ef.
  - apply wp_ret. split; [done|]. split; [done|].
    intros ? [= <-]. by eapply find_satisfying_elem.
  - apply wp_bind. eapply wp_mono; [apply random_sample_wp|].
    cbv beta. intros [e|e|] b2 [Hs3 He]; [|split; [by eapply shuffled_trans|done]|done].
    apply wp_ret. split; [by eapply shuffled_trans|]. split; [done|].
    intros ? [= <-]. by rewrite (shuffled_white_elem _ _ _ Hs3).
Qed.

Lemma whiteCells_0_wp b :
  wp whiteCells_0
     (λ r b', b' = b
              ∧ match r with
                | Val e => e ∈ whiteCells b
                | Raise e => e = IndexError ∧ whiteCells b = []
                | OutOfFuel => False
                end) b.
Proof.
  unfold whiteCells_0. apply wp_bind, wp_gets.
  destruct (whiteCells b) as [|e l] eqn:E.
  - apply wp_raise. done.
  - apply wp_ret. split; [done|left].
Qed.

Lemma select_closest_ok : sel_ok select_closest.
Proof.
  intros b. unfold select_closest.
  wp_sample m b1 Hm Hs1. wp_shuffle sort_whiteCells_wp b' Hs2.
  assert (Hs : shuffled b b') by (by eapply shuffled_trans).
  apply wp_bind. eapply wp_mono; [apply whiteCells_0_wp|].
  cbv beta. intros [e|e|] ? [-> He]; [|by split|done].
  apply wp_bind, wp_gets. destruct (below_stopping b'); apply wp_ret.
  - by split.
  - split; [done|]. split; [done|]. by intros ? [= <-].
Qed.

Lemma select_closestSat_stop_ok : sel_ok select_closestSat_stop.
Proof.
  intros b. unfold select_closestSat_stop.
  wp_sample m b1 Hm Hs1. wp_shuffle sort_whiteCells_wp b' Hs2.
  assert (Hs : shuffled b b') by (by eapply shuffled_trans).
  apply wp_bind, wp_gets. apply wp_bind, wp_gets.
  destruct (below_stopping b'); [apply wp_ret; by split|].
  apply wp_bind, wp_gets.
  eapply wp_mono.
  - apply try_other_color_wp; [exact sort_whiteCells_wp|].
    intros x Hx. by eapply find_satisfying_elem.
  - cbv beta. intros r b2 H. eapply sel_post_of_try; [exact Hs|exact Hm|exact H].
Qed.

Lemma select_closestSat_cont_ok : sel_ok select_closestSat_cont.
Proof.
  intros b. unfold select_closestSat_cont.
  wp_sample m b1 Hm Hs1. wp_shuffle sort_whiteCells_wp b' Hs2.
  assert (Hs : shuffled b b') by (by eapply shuffled_trans).
  apply wp_bind, wp_gets. apply wp_bind, wp_gets.
  destruct (below_stopping b'); [apply wp_ret; by split|].
  apply wp_bind, wp_gets.
  destruct (find_satisfying _ b') as [x|] eqn:Ef.
  - apply wp_ret. split; [done|]. split; [done|].
    intros ? [= <-]. by eapply find_satisfying_elem.
  - apply wp_bind. eapply wp_mono; [apply whiteCells_0_wp|].
    cbv beta. intros [e|e|] ? [-> He]; [|by split|done].
    apply wp_ret. split; [done|]. split; [done|]. by intros ? [= <-].
Qed.

(** *** List removal *)

Lemma remove_first_elem a l : a ∈ l → is_Some (remove_first a l).
Proof.
  induction l as [|h t IH]; intros Ha; [by apply elem_of_nil in Ha|].
  simpl. destruct (decide (h = a)); [done|].
  apply elem_of_cons in Ha as [->|Ha]; [done|].
  destruct (IH Ha) as [l' ->]. done.
Qed.

Lemma remove_first_perm a l l' : remove_first a l = Some l' → l ≡ₚ a :: l'.
Proof.
  revert l'. induction l as [|h t IH]; intros l'; simpl; [done|].
  destruct (decide (h = a)) as [->|Hne].
  - by intros [= ->].
  - destruct (remove_first a t) as [t'|]; [|done]. simpl. intros [= <-].
    rewrite (IH t') by done. apply Permutation_swap.
Qed.

Lemma remove_first_length a l l' :
  remove_first a l = Some l' → length l = S (length l').
Proof. intros H. by rewrite (remove_first_perm _ _ _ H). Qed.

Lemma remove_first_sublist a l l' : remove_first a l = Some l' → sublist l' l.
Proof.
  revert l'. induction l as [|h t IH]; intros l'; simpl; [done|].
  destruct (decide (h = a)) as [->|Hne].
  - intros [= ->]. by apply sublist_cons.
  - destruct (remove_first a t) as [t'|]; [|done]. simpl. intros [= <-].
    apply sublist_skip. by apply IH.
Qed.

(** *** One micro-move *)

Lemma shuffled_halted b b' : shuffled b b' → halted b b'.
Proof. intros []. repeat split; auto. Qed.

Lemma whiteCells_remove_Some e l' b :
  remove_first e (whiteCells b) = Some l' →
  whiteCells_remove (Some e) b = (Val tt, set_whiteCells l' b).
Proof.
  intros H. unfold whiteCells_remove, mbind, M_bind, gets. simpl. by rewrite H.
Qed.

Lemma unsatisfied_remove_Some m l' b :
  remove_first m (unsatisfied b) = Some l' →
  unsatisfied_remove m b = (Val tt, set_unsatisfied l' b).
Proof.
  intros H. unfold unsatisfied_remove, mbind, M_bind, gets. simpl. by rewrite H.
Qed.

Lemma bookkeeping_Some gb bk m e ul wl b :
  is_bookkeeping gb bk →
  remove_first m (unsatisfied b) = Some ul →
  remove_first e (whiteCells b) = Some wl →
  ∃ b', bk m (Some e) b = (Val tt, b')
        ∧ unsatisfied b' = ul
        ∧ whiteCells b' = (if gb then wl ++ [m] else wl)
        ∧ nodes b' = nodes b ∧ same_frame b b'.
Proof.
  intros [-> | ->] Hu Hw.
  - unfold take_white_first, mbind, M_bind.
    rewrite (whiteCells_remove_Some _ _ _ Hw).
    rewrite (unsatisfied_remove_Some _ ul) by done.
    destruct gb; eexists; (split; [reflexivity|]); repeat split.
  - unfold take_mover_first, mbind, M_bind.
    rewrite (unsatisfied_remove_Some _ _ _ Hu).
    rewrite (whiteCells_remove_Some _ wl) by done.
    destruct gb; eexists; (split; [reflexivity|]); repeat split.
Qed.

Lemma bookkeeping_None gb bk m ul b :
  is_bookkeeping gb bk →
  remove_first m (unsatisfied b) = Some ul →
  ∃ b', bk m None b = (Raise ValueError, b') ∧ halted b b'.
Proof.
  intros [-> | ->] Hu.
  - exists b. split; [done|]. apply shuffled_halted, shuffled_refl.
  - unfold take_mover_first, mbind, M_bind.
    rewrite (unsatisfied_remove_Some _ _ _ Hu).
    eexists. split; [reflexivity|].
    split; [done|]. split; [right; by exists m|]. split; [done|]. repeat split.
Qed.

Lemma relocate_Some m e b :
  relocate m (Some e) b
  = (Val tt, set_nodes (retype m e (nodes b)) b).
Proof. done. Qed.

(** Every micro-move either completes as [moved] or ends the call as
    [halted], and a [return] inside it returns [False]. *)
Lemma micro_move_wp select bk gb b :
  sel_ok select → is_bookkeeping gb bk →
  wp (micro_move select bk)
     (λ r b', match r with
              | Val (Next _) => moved gb b b'
              | Val (Return v) => v = false ∧ halted b b'
              | Raise _ => halted b b'
              | Val (Break _) | OutOfFuel => False
              end) b.
Proof.
  intros Hsel Hbk. unfold micro_move. apply wp_bind.
  eapply wp_mono; [apply Hsel|]. cbv beta.
  intros [[[m e]|v]|ex|] b1 [Hsh Hr]; try done.
  - destruct Hr as [Hm He].
    destruct (remove_first_elem m (unsatisfied b1)) as [ul Hul];
      [by rewrite (sh_unsatisfied _ _ Hsh)|].
    assert (Hhalt : ∀ b2, halted b1 b2 → halted b b2).
    { intros b2 (Hn & Hu & Hw & Hf).
      destruct Hsh. destruct Hf as (? & ? & ? & ? & ? & ?).
      repeat split; try congruence.
      - rewrite <- sh_unsatisfied0. done.
      - by rewrite Hw. }
    destruct e as [e|].
    + destruct (remove_first_elem e (whiteCells b1)) as [wl Hwl]; [by apply He|].
      destruct (bookkeeping_Some gb bk m e ul wl b1 Hbk Hul Hwl)
        as (b2 & Hrun & Hu2 & Hw2 & Hn2 & Hf2).
      unfold wp, mbind, M_bind. rewrite Hrun, relocate_Some. cbn [fst snd].
      destruct Hsh. destruct Hf2 as (? & ? & ? & ? & ? & ?).
      apply (Moved gb b _ m e (whiteCells b1) wl); simpl; try done.
      * rewrite <- sh_unsatisfied0, Hul. by rewrite Hu2.
      * by rewrite Hn2, sh_nodes0.
      * unfold same_frame. simpl. repeat split; congruence.
    + destruct (bookkeeping_None gb bk m ul b1 Hbk Hul) as (b2 & Hrun & Hh).
      unfold wp, mbind, M_bind. rewrite Hrun. cbn [fst snd]. by apply Hhalt.
  - apply wp_ret. split; [done|by apply shuffled_halted].
  - by apply shuffled_halted.
Qed.

(** ** The three axes of the policy family *)

Lemma policy_single s a fuel : policy Single s a fuel = single (select_of s a).
Proof. by destruct s, a. Qed.

Lemma policy_drain g s a fuel :
  g ≠ Single → policy g s a fuel = drain fuel (body_of g s a).
Proof. by destruct g, s, a. Qed.

Lemma select_of_ok s a : sel_ok (select_of s a).
Proof.
  destruct s, a; simpl;
    auto using select_random_ok, select_randomSat_stop_ok,
      select_randomSat_cont_ok, select_closest_ok, select_closestSat_stop_ok,
      select_closestSat_cont_ok.
Qed.

Lemma bookkeeping_of_ok s a gb : is_bookkeeping gb (bookkeeping_of s a gb).
Proof. destruct s, a; simpl; by (left + right). Qed.

Lemma body_of_wp g s a b :
  wp (body_of g s a)
     (λ r b', match r with
              | Val (Next _) => moved (giveback g) b b'
              | Val (Return v) => v = false ∧ halted b b'
              | Raise _ => halted b b'
              | Val (Break _) | OutOfFuel => False
              end) b.
Proof. apply micro_move_wp; [apply select_of_ok|apply bookkeeping_of_ok]. Qed.

(** ** Termination of the drains *)

Lemma moved_lengths gb b b' :
  moved gb b b' →
  length (unsatisfied b) = S (length (unsatisfied b'))
  ∧ (if gb then length (whiteCells b') = length (whiteCells b)
     else S (length (whiteCells b')) = length (whiteCells b)).
Proof.
  intros [m e wc wl Hm Hp Hu Hd Hw Hn Hf]. split.
  - by apply remove_first_length in Hu.
  - apply remove_first_length in Hd. apply Permutation_length in Hp.
    rewrite Hw. destruct gb; [|lia]. rewrite length_app. simpl. lia.
Qed.

(** A loop whose completed iterations each shorten the unsatisfied list
    ends within as many iterations as the list is long: more fuel than that
    changes nothing. *)
Lemma drain_loop_bounded (body : M (flow unit bool)) :
  (∀ b, wp body (λ r b', match r with
                         | Val (Next _) =>
                             length (unsatisfied b) = S (length (unsatisfied b'))
                         | OutOfFuel => False
                         | _ => True
                         end) b) →
  ∀ fuel b, length (unsatisfied b) ≤ fuel →
    (drain_loop fuel body b).1 ≠ OutOfFuel
    ∧ drain_loop fuel body b = drain_loop (length (unsatisfied b)) body b.
Proof.
  intros Hbody. unfold drain_loop.
  assert (Hstep : ∀ n fuel b, length (unsatisfied b) = n → n ≤ fuel →
    (while_ fuel (λ _, both_nonempty) (λ _, body) tt b).1 ≠ OutOfFuel
    ∧ while_ fuel (λ _, both_nonempty) (λ _, body) tt b
      = while_ n (λ _, both_nonempty) (λ _, body) tt b).
  { induction n as [|n IH]; intros fuel b Hlen Hle.
    - assert (Hc : both_nonempty b = false).
      { unfold both_nonempty. destruct (unsatisfied b); [done|simpl in Hlen; lia]. }
      destruct fuel; simpl; rewrite Hc; done.
    - destruct fuel as [|fuel]; [lia|]. simpl.
      destruct (both_nonempty b); [|done].
      specialize (Hbody b). unfold wp in Hbody.
      destruct (body b) as [[[[]|[]|v]|e|] b1]; simpl in *; try done.
      apply IH; lia. }
  intros fuel b Hle. by apply Hstep.
Qed.

Lemma body_of_shortens g s a b :
  wp (body_of g s a)
     (λ r b', match r with
              | Val (Next _) => length (unsatisfied b) = S (length (unsatisfied b'))
              | OutOfFuel => False
              | _ => True
              end) b.
Proof.
  eapply wp_mono; [apply body_of_wp|]. cbv beta.
  intros [[[]|[]|v]|e|] b'; try done. intros H. by apply moved_lengths in H as [].
Qed.

Lemma finish_step_fuel b : (finish_step b).1 ≠ OutOfFuel.
Proof.
  unfold finish_step, snapshot, mbind, M_bind, modify, to_np_colorcode. simpl.
  destruct (mapM _ _); done.
Qed.

(** C9. Every batch or whitebatch drain terminates: an iteration that goes
    on to the next one removes exactly one element from the unsatisfied
    list (and, in the whitebatch variants, leaves the length of the
    empty-cell list unchanged), so the call ends within as many iterations
    as the unsatisfied list has elements at entry: with that much fuel it
    does not run out, and more fuel gives the same result. *)
Theorem drain_terminates (g : granularity) (s : search) (a : acceptance)
    (b : Board) (fuel : nat) :
  g ≠ Single →
  length (unsatisfied b) ≤ fuel →
  (policy g s a fuel b).1 ≠ OutOfFuel
  ∧ policy g s a fuel b = policy g s a (length (unsatisfied b)) b
  ∧ (∀ b0 b1, body_of g s a b0 = (Val (Next tt), b1) →
       length (unsatisfied b0) = S (length (unsatisfied b1))
       ∧ (g = Whitebatch → length (whiteCells b1) = length (whiteCells b0))
       ∧ (g = Batch → S (length (whiteCells b1)) = length (whiteCells b0))).
Proof.
  intros Hg Hfuel. rewrite !policy_drain by done.
  destruct (drain_loop_bounded (body_of g s a) (body_of_shortens g s a) fuel b Hfuel)
    as [Hne Heq].
  split; [|split].
  - unfold drain, mbind, M_bind.
    destruct (drain_loop fuel (body_of g s a) b) as [[[[]|v]|e|] b1]; try done.
    apply finish_step_fuel.
  - unfold drain, mbind, M_bind. by rewrite Heq.
  - intros b0 b1 Hrun. pose proof (body_of_wp g s a b0) as H.
    unfold wp in H. rewrite Hrun in H. simpl in H.
    apply moved_lengths in H as [Hu Hw]. split; [done|].
    split; intros ->; simpl in Hw; done.
Qed.

(** ** Conservation of the three populations *)

Lemma color_of_nodes b b' i : nodes b' = nodes b → color_of b' i = color_of b i.
Proof. unfold color_of, node. by intros ->. Qed.

Lemma length_paint i c ns : length (paint i c ns) = length ns.
Proof. apply length_insert. Qed.

Lemma length_retype m e ns : length (retype m e ns) = length ns.
Proof. unfold retype. by rewrite !length_paint. Qed.

Lemma paint_lookup i c ns j :
  i < length ns →
  Node.color (paint i c ns !!! j)
  = if decide (j = i) then c else Node.color (ns !!! j).
Proof.
  intros Hi. unfold paint. case_decide as Hj.
  - subst j. by rewrite list_lookup_total_insert_eq.
  - by rewrite list_lookup_total_insert_ne.
Qed.

Lemma retype_color m e ns j :
  m < length ns → e < length ns → m ≠ e →
  Node.color (retype m e ns !!! j)
  = if decide (j = m) then white
    else if decide (j = e) then Node.color (ns !!! m)
         else Node.color (ns !!! j).
Proof.
  intros Hm He Hne. unfold retype.
  rewrite paint_lookup by (by rewrite length_paint).
  case_decide; [done|]. by rewrite paint_lookup.
Qed.

Lemma colored_length_perm b c l1 l2 :
  l1 ≡ₚ l2 → length (colored b c l1) = length (colored b c l2).
Proof. intros H. unfold colored. by rewrite H. Qed.

Lemma colored_length_ext b b' c l :
  (∀ i, i ∈ l → color_of b' i = color_of b i) →
  length (colored b' c l) = length (colored b c l).
Proof.
  unfold colored. induction l as [|h t IH]; intros H; [done|].
  rewrite !filter_cons. rewrite (H h) by left.
  case_decide; simpl; rewrite IH; auto; intros i Hi; apply H; by right.
Qed.

Lemma colored_length_cons b c h t :
  length (colored b c (h :: t))
  = (if decide (color_of b h = c) then 1 else 0) + length (colored b c t).
Proof. unfold colored. rewrite filter_cons. by case_decide. Qed.

(** Swapping the colours of an occupied and an empty cell of a duplicate-free
    list of cells keeps the number of cells of each colour. *)
Lemma census_swap b b' l m e :
  NoDup l → m ∈ l → e ∈ l →
  color_of b m ≠ white → color_of b e = white →
  color_of b' m = white → color_of b' e = color_of b m →
  (∀ i, i ≠ m → i ≠ e → color_of b' i = color_of b i) →
  ∀ c, length (colored b' c l) = length (colored b c l).
Proof.
  intros Hnd Hm He Hcm Hce Hcm' Hce' Hother c.
  assert (Hne : m ≠ e) by (intros ->; done).
  apply elem_of_Permutation in Hm as [l1 Hl1].
  assert (He1 : e ∈ l1).
  { rewrite Hl1 in He. apply elem_of_cons in He as [->|]; done. }
  apply elem_of_Permutation in He1 as [l2 Hl2].
  assert (Hl : l ≡ₚ m :: e :: l2) by (by rewrite Hl1, Hl2).
  rewrite Hl in Hnd. apply NoDup_cons in Hnd as [Hm2 Hnd].
  apply NoDup_cons in Hnd as [He2 _].
  rewrite !(colored_length_perm _ c l (m :: e :: l2)) by done.
  rewrite !colored_length_cons, Hcm', Hce', Hce.
  rewrite (colored_length_ext b b' c l2).
  - repeat case_decide; simpl; congruence.
  - intros i Hi. apply Hother; intros ->; [apply Hm2; by right|done].
Qed.

Lemma census_sum b :
  census b white + census b red + census b blue = length (concat (board b)).
Proof.
  unfold census, colored. induction (concat (board b)) as [|h t IH]; [done|].
  rewrite !filter_cons.
  destruct (color_of b h); repeat case_decide; try congruence; simpl; lia.
Qed.

Lemma length_concat_square (rows : list (list nat)) n :
  Forall (λ row : list nat, length row = n) rows →
  length (concat rows) = length rows * n.
Proof.
  induction 1 as [|row rows Hrow _ IH]; [done|].
  simpl. rewrite length_app, IH, Hrow. done.
Qed.

Lemma board_ok_area b : board_ok b → length (concat (board b)) = size b * size b.
Proof.
  intros (_ & _ & Hlen & Hrows).
  by rewrite (length_concat_square _ _ Hrows), Hlen.
Qed.

Lemma kept_refl b : kept b b.
Proof. by repeat split. Qed.

Lemma kept_trans b1 b2 b3 : kept b1 b2 → kept b2 b3 → kept b1 b3.
Proof.
  intros (H1 & H2 & H3 & H4) (H1' & H2' & H3' & H4').
  split; [intros c; by rewrite H1', H1|]. repeat split; congruence.
Qed.

Lemma kept_same_nodes b b' :
  nodes b' = nodes b → board b' = board b → size b' = size b → kept b b'.
Proof.
  intros Hn Hb Hs. repeat split; try congruence.
  intros c. unfold census. rewrite Hb.
  apply colored_length_ext. intros i _. by apply color_of_nodes.
Qed.

Lemma board_ok_same b b' :
  board b' = board b → size b' = size b →
  length (nodes b') = length (nodes b) → board_ok b → board_ok b'.
Proof. unfold board_ok. by intros -> -> ->. Qed.

(** The retyping of a relocation, on a mover and a destination that are an
    occupied and an empty cell of the board. *)
Lemma retype_effect b b' m e :
  board_ok b →
  m ∈ concat (board b) → e ∈ concat (board b) →
  color_of b m ≠ white → color_of b e = white →
  nodes b' = retype m e (nodes b) →
  board b' = board b → size b' = size b →
  kept b b'
  ∧ color_of b' m = white
  ∧ color_of b' e = color_of b m
  ∧ (∀ i, i ≠ m → i ≠ e → color_of b' i = color_of b i).
Proof.
  intros (Hnd & Hvalid & Hsq) Hm He Hcm Hce Hn Hb Hs.
  rewrite Forall_forall in Hvalid.
  assert (Hne : m ≠ e) by (intros ->; done).
  assert (Hcol : ∀ j, color_of b' j
                      = if decide (j = m) then white
                        else if decide (j = e) then color_of b m
                             else color_of b j).
  { intros j. unfold color_of, node. rewrite Hn. apply retype_color; auto. }
  assert (Hm' : color_of b' m = white) by (rewrite Hcol; by case_decide).
  assert (He' : color_of b' e = color_of b m).
  { rewrite Hcol. repeat case_decide; congruence. }
  assert (Ho : ∀ i, i ≠ m → i ≠ e → color_of b' i = color_of b i).
  { intros i ? ?. rewrite Hcol. by repeat case_decide. }
  repeat split; try done.
  - intros c. unfold census. rewrite Hb. by apply census_swap with m e.
  - by rewrite Hn, length_retype.
Qed.

Lemma Forall_and_elem {A} (P : A → Prop) (l : list A) :
  Forall P l ↔ ∀ i, i ∈ l → P i.
Proof. apply Forall_forall. Qed.

Lemma moved_inv gb b b' : Inv b → moved gb b b' → Inv b' ∧ kept b b'.
Proof.
  intros [Hbo (Hndu & Hndw & Hu & Hw)] [m e wc wl Hm Hp Hum Hd Hwh Hn Hf].
  destruct Hf as (Hb & Hs & _).
  rewrite Forall_forall in Hu, Hw.
  assert (He : e ∈ whiteCells b).
  { rewrite <- Hp, (remove_first_perm _ _ _ Hd). left. }
  destruct (Hu m Hm) as [Hmb Hmc]. destruct (Hw e He) as [Heb Hec].
  destruct (retype_effect b b' m e Hbo Hmb Heb Hmc Hec Hn Hb Hs)
    as (Hk & Hm' & He' & Ho).
  split; [|done]. split.
  - destruct Hk as (_ & _ & _ & Hl). by apply (board_ok_same b).
  - pose proof (remove_first_perm _ _ _ Hum) as Hpu.
    pose proof (remove_first_perm _ _ _ Hd) as Hpw.
    rewrite Hpu in Hndu. apply NoDup_cons in Hndu as [Hmu Hndu'].
    rewrite <- Hp, Hpw in Hndw. apply NoDup_cons in Hndw as [Hew Hndw'].
    assert (Hin_u : ∀ i, i ∈ unsatisfied b' → i ∈ unsatisfied b).
    { intros i Hi. rewrite Hpu. by right. }
    assert (Hin_w : ∀ i, i ∈ wl → i ∈ whiteCells b).
    { intros i Hi. rewrite <- Hp, Hpw. by right. }
    assert (Hmw : m ∉ wl).
    { intros Hi. apply Hin_w, Hw in Hi as [_ Hi]. done. }
    assert (Hwl : ∀ i, i ∈ wl → i ∈ concat (board b') ∧ color_of b' i = white).
    { intros i Hi. destruct (Hw i (Hin_w i Hi)) as [Hib Hic].
      rewrite Hb. split; [done|]. rewrite Ho; [done| |]; intros ->; done. }
    repeat split.
    + done.
    + rewrite Hwh. destruct gb; [|done].
      apply NoDup_app. repeat split; [done| |apply NoDup_singleton].
      intros i Hi ->%list_elem_of_singleton. done.
    + apply Forall_forall. intros i Hi.
      destruct (Hu i (Hin_u i Hi)) as [Hib Hic]. rewrite Hb. split; [done|].
      rewrite Ho; [done| |]; intros ->; [done|]. congruence.
    + apply Forall_forall. intros i Hi. rewrite Hwh in Hi.
      destruct gb; [|by apply Hwl].
      apply elem_of_app in Hi as [Hi| ->%list_elem_of_singleton]; [by apply Hwl|].
      rewrite Hb. done.
Qed.

Lemma halted_inv b b' : Inv b → halted b b' → Inv b' ∧ kept b b'.
Proof.
  intros [Hbo (Hndu & Hndw & Hu & Hw)] (Hn & Hun & Hwh & Hb & Hs & _).
  assert (Hk : kept b b') by (by apply kept_same_nodes).
  split; [|done]. split.
  - destruct Hk as (_ & _ & _ & Hl). by apply (board_ok_same b).
  - rewrite Forall_forall in Hu, Hw.
    assert (Hsub : sublist (unsatisfied b') (unsatisfied b)).
    { destruct Hun as [->|[m Hm]]; [done|by eapply remove_first_sublist]. }
    repeat split.
    + by apply (sublist_NoDup _ (unsatisfied b)).
    + by rewrite Hwh.
    + apply Forall_forall. intros i Hi.
      rewrite Hb, (color_of_nodes b b') by done. apply Hu.
      by eapply elem_of_sublist.
    + apply Forall_forall. intros i Hi.
      rewrite Hb, (color_of_nodes b b') by done. apply Hw. by rewrite <- Hwh.
Qed.

Lemma reload_sets_inv b :
  board_ok b → Inv (reload_sets b) ∧ kept b (reload_sets b).
Proof.
  intros Hbo.
  destruct (reload_sets_lists b)
    as (Hw & Hu & Hc & Hn & Hl & Hp & Ho & Hs & Hpb & Hb & _).
  assert (Hk : kept b (reload_sets b)).
  { repeat split; try done. intros c. unfold census. rewrite Hb.
    apply colored_length_ext. auto. }
  split; [|done]. split; [by apply (board_ok_same b)|].
  destruct Hbo as (Hnd & _).
  repeat split.
  - rewrite Hu. by apply NoDup_filter.
  - rewrite Hw. by apply NoDup_filter.
  - apply Forall_forall. intros i. rewrite Hu, list_elem_of_filter, Hb, Hc. tauto.
  - apply Forall_forall. intros i. rewrite Hw. unfold colored.
    rewrite list_elem_of_filter, Hb, Hc. tauto.
Qed.

Lemma snapshot_wp b :
  wp snapshot (λ r b', nodes b' = nodes b ∧ unsatisfied b' = unsatisfied b
                       ∧ whiteCells b' = whiteCells b ∧ board b' = board b
                       ∧ size b' = size b ∧ r ≠ OutOfFuel) b.
Proof.
  unfold wp, snapshot, mbind, M_bind, modify, to_np_colorcode.
  destruct (mapM _ _); simpl; done.
Qed.

Lemma same_lists_inv b b' :
  nodes b' = nodes b → unsatisfied b' = unsatisfied b →
  whiteCells b' = whiteCells b → board b' = board b → size b' = size b →
  Inv b → Inv b' ∧ kept b b'.
Proof.
  intros Hn Hu Hw Hb Hs [Hbo Hl].
  split; [|by apply kept_same_nodes]. split.
  - apply (board_ok_same b); congruence.
  - unfold lists_ok in *. rewrite Hu, Hw, Hb.
    destruct Hl as (? & ? & Hfu & Hfw). repeat split; try done.
    + eapply Forall_impl; [exact Hfu|]. intros i. cbv beta.
      by rewrite (color_of_nodes b b').
    + eapply Forall_impl; [exact Hfw|]. intros i. cbv beta.
      by rewrite (color_of_nodes b b').
Qed.

(** The shared tail [reload_sets; snapshot; return True]. *)
Lemma finish_step_inv b :
  board_ok b →
  wp finish_step (λ r b', r ≠ OutOfFuel ∧ Inv b' ∧ kept b b') b.
Proof.
  intros Hbo. unfold finish_step. apply wp_bind, wp_modify. apply wp_bind.
  destruct (reload_sets_inv b Hbo) as [HI Hk].
  eapply wp_mono; [apply snapshot_wp|]. cbv beta.
  intros r b' (Hn & Hu & Hw & Hb & Hs & Hr).
  destruct (same_lists_inv _ b' Hn Hu Hw Hb Hs HI) as [HI' Hk'].
  assert (Hk2 : kept b b') by (by eapply kept_trans).
  destruct r as [[]|e|]; [apply wp_ret|..]; done.
Qed.

(** A single policy call keeps the invariant and the census, however it
    ends. *)
Lemma single_inv select b :
  sel_ok select → Inv b →
  wp (single select) (λ r b', r ≠ OutOfFuel ∧ Inv b' ∧ kept b b') b.
Proof.
  intros Hsel HI. unfold single. apply wp_bind.
  eapply wp_mono; [apply Hsel|]. cbv beta.
  intros [[[m e]|v]|ex|] b1 [Hsh Hr]; try done.
  - destruct Hr as [Hm He].
    destruct (halted_inv b b1 HI (shuffled_halted _ _ Hsh)) as [HI1 Hk1].
    destruct e as [e|].
    + apply wp_bind. unfold wp at 1. rewrite relocate_Some. cbn [fst snd].
      set (b2 := set_nodes _ b1).
      destruct HI1 as [Hbo1 (_ & _ & Hu1 & Hw1)].
      rewrite Forall_forall in Hu1, Hw1.
      rewrite <- (sh_unsatisfied _ _ Hsh) in Hm.
      destruct (Hu1 m Hm) as [Hmb Hmc]. destruct (Hw1 e (He e eq_refl)) as [Heb Hec].
      destruct (retype_effect b1 b2 m e Hbo1 Hmb Heb Hmc Hec) as (Hk2 & _);
        [done..|].
      assert (Hbo2 : board_ok b2).
      { destruct Hk2 as (_ & ? & ? & ?). by apply (board_ok_same b1). }
      eapply wp_mono; [by apply finish_step_inv|]. cbv beta.
      intros r b3 (Hr & HI3 & Hk3). split; [done|]. split; [done|].
      eapply kept_trans; [exact Hk1|]. by eapply kept_trans.
    + unfold relocate. apply wp_bind, wp_raise. done.
  - apply wp_ret. destruct (halted_inv b b1 HI (shuffled_halted _ _ Hsh)). done.
  - destruct (halted_inv b b1 HI (shuffled_halted _ _ Hsh)). done.
Qed.

(** The drain loop keeps the invariant and the census at every exit. *)
Lemma drain_loop_inv g s a fuel b :
  Inv b →
  wp (drain_loop fuel (body_of g s a)) (λ r b', Inv b' ∧ kept b b') b.
Proof.
  unfold drain_loop. revert b. induction fuel as [|fuel IH]; intros b HI.
  - unfold wp. simpl. destruct (both_nonempty b); simpl; auto using kept_refl.
  - unfold wp. simpl. destruct (both_nonempty b); [|simpl; auto using kept_refl].
    pose proof (body_of_wp g s a b) as Hbody. unfold wp in Hbody.
    destruct (body_of g s a b) as [[[[]|[]|v]|e|] b1]; simpl in *; try done.
    + destruct (moved_inv _ _ _ HI Hbody) as [HI1 Hk1].
      specialize (IH b1 HI1). unfold wp in IH. destruct IH as [HI2 Hk2].
      split; [done|]. by eapply kept_trans.
    + destruct Hbody as [_ Hh]. by apply halted_inv.
    + by apply halted_inv.
Qed.

Lemma drain_inv g s a fuel b :
  Inv b →
  wp (drain fuel (body_of g s a)) (λ r b', Inv b' ∧ kept b b') b.
Proof.
  intros HI. unfold drain. apply wp_bind.
  eapply wp_mono; [by apply drain_loop_inv|]. cbv beta.
  intros [[[]|v]|e|] b1 [HI1 Hk1]; try done.
  eapply wp_mono; [apply finish_step_inv, HI1|]. cbv beta.
  intros r b2 (_ & HI2 & Hk2). split; [done|]. by eapply kept_trans.
Qed.

(** Every one of the eighteen policy calls keeps the invariant and the
    census. *)
Lemma policy_inv g s a fuel b :
  Inv b → wp (policy g s a fuel) (λ r b', Inv b' ∧ kept b b') b.
Proof.
  intros HI. destruct (decide (g = Single)) as [->|Hg].
  - rewrite policy_single. eapply wp_mono; [apply single_inv|].
    + apply select_of_ok.
    + done.
    + cbv beta. tauto.
  - rewrite policy_drain by done. by apply drain_inv.
Qed.

(** ** The dispatch table of [run] *)

Lemma algoDict_table fuel :
  algoDict fuel = list_to_map (policy_entry fuel <$> policy_table).
Proof. reflexivity. Qed.

Lemma policy_names_NoDup : NoDup policy_names.
Proof. by apply (bool_decide_unpack _). Qed.

Lemma policy_entry_fst fuel : (policy_entry fuel <$> policy_table).*1 = policy_names.
Proof. reflexivity. Qed.

Lemma algoDict_Some fuel name f :
  algoDict fuel !! name = Some f →
  ∃ g s a, (name, (g, s, a)) ∈ policy_table ∧ f = policy g s a fuel.
Proof.
  rewrite algoDict_table. intros H. apply elem_of_list_to_map_2 in H.
  apply list_elem_of_fmap in H as ([n [[g s] a]] & Heq & Hin).
  unfold policy_entry in Heq. simpl in Heq. inversion Heq; subst.
  by exists g, s, a.
Qed.

Lemma algoDict_None fuel name :
  algoDict fuel !! name = None ↔ name ∉ policy_names.
Proof.
  rewrite algoDict_table, <- (policy_entry_fst fuel).
  symmetry. apply not_elem_of_list_to_map.
Qed.

Lemma algoDict_policy fuel name g s a :
  (name, (g, s, a)) ∈ policy_table →
  algoDict fuel !! name = Some (policy g s a fuel).
Proof.
  intros Hin. rewrite algoDict_table. apply elem_of_list_to_map_1.
  - rewrite policy_entry_fst. apply policy_names_NoDup.
  - apply list_elem_of_fmap. by exists (name, (g, s, a)).
Qed.

(** ** The driver keeps the invariant *)

Lemma run_loop_inv stepfunction iters fuel l b :
  (∀ b, Inv b → wp stepfunction (λ r b', Inv b' ∧ kept b b') b) →
  Inv b →
  wp (while_ fuel (λ l _, (Z.of_nat l.1 <? iters)%Z && l.2)
        (run_body stepfunction) l)
     (λ r b', Inv b' ∧ kept b b') b.
Proof.
  intros Hstep. revert l b. induction fuel as [|fuel IH]; intros l b HI.
  - unfold wp. simpl. destruct (_ && _); simpl; auto using kept_refl.
  - unfold wp. simpl. destruct (_ && _); [|simpl; auto using kept_refl].
    unfold run_body, mbind, M_bind, gets. simpl.
    destruct (unsatisfied b) as [|u us]; [simpl; auto using kept_refl|].
    specialize (Hstep b HI). unfold wp in Hstep.
    destruct (stepfunction b) as [[v|e|] b1]; simpl in *; try done.
    destruct Hstep as [HI1 Hk1].
    specialize (IH (S l.1, v) b1 HI1). unfold wp in IH. destruct IH as [HI2 Hk2].
    split; [done|]. by eapply kept_trans.
Qed.

Lemma run_inv fuel iters name b :
  Inv b → wp (run fuel iters name) (λ r b', Inv b' ∧ kept b b') b.
Proof.
  intros HI. unfold run.
  destruct (algoDict fuel !! name) as [f|] eqn:E;
    [|apply wp_raise; auto using kept_refl].
  apply algoDict_Some in E as (g & s & a & _ & ->).
  apply wp_bind. eapply wp_mono.
  - apply run_loop_inv; [|done]. intros b0 HI0. by apply policy_inv.
  - cbv beta. intros [[l|i]|e|] b' H; try done.
Qed.

Lemma calls_inv ps b : Inv b → Inv (calls ps b) ∧ kept b (calls ps b).
Proof.
  revert b. induction ps as [|[[[g s] a] fuel] ps IH]; intros b HI.
  - split; [done|apply kept_refl].
  - simpl. destruct (policy_inv g s a fuel b HI) as [HI1 Hk1].
    destruct (IH _ HI1) as [HI2 Hk2]. split; [done|]. by eapply kept_trans.
Qed.

(** C5. On a board whose two lists name distinct occupied and empty cells of
    a square grid: the two assignments of a relocation keep the number of
    red, of blue and of empty cells; so does every policy call, every
    sequence of policy calls and every run of the driver, whatever they
    return or raise; and the three numbers add up to the grid area. *)
Theorem relocation_conserves (b : Board) :
  Inv b →
  (∀ m e c, m ∈ unsatisfied b → e ∈ whiteCells b →
     census (relocate m (Some e) b).2 c = census b c)
  ∧ (∀ g s a fuel c,
       Inv (policy g s a fuel b).2 ∧ census (policy g s a fuel b).2 c = census b c)
  ∧ (∀ ps c, Inv (calls ps b) ∧ census (calls ps b) c = census b c)
  ∧ (∀ fuel iters name c,
       Inv (run fuel iters name b).2
       ∧ census (run fuel iters name b).2 c = census b c)
  ∧ census b red + census b blue + census b white = size b * size b.
Proof.
  intros HI. split; [|split; [|split; [|split]]].
  - intros m e c Hm He. rewrite relocate_Some. cbn [snd].
    destruct HI as [Hbo (_ & _ & Hu & Hw)]. rewrite Forall_forall in Hu, Hw.
    destruct (Hu m Hm) as [Hmb Hmc]. destruct (Hw e He) as [Heb Hec].
    destruct (retype_effect b (set_nodes (retype m e (nodes b)) b) m e)
      as ((Hk & _) & _); done.
  - intros g s a fuel c. destruct (policy_inv g s a fuel b HI) as [HI' (Hk & _)].
    done.
  - intros ps c. destruct (calls_inv ps b HI) as [HI' (Hk & _)]. done.
  - intros fuel iters name c.
    destruct (run_inv fuel iters name b HI) as [HI' (Hk & _)]. done.
  - destruct HI as [Hbo _]. rewrite <- (board_ok_area b Hbo), <- (census_sum b). lia.
Qed.

(** ** The driver: unknown names and an empty budget *)

(** C7. For a name outside the eighteen identifiers [run] raises
    [ValueError] and leaves the whole state as it was; for each of the
    eighteen, [run] with [iters = 0] returns 0 and leaves the whole state as
    it was. *)
Theorem run_invalid_or_zero (fuel : nat) (name : string) (b : Board) :
  (name ∉ policy_names →
     ∀ iters, run fuel iters name b = (Raise ValueError, b))
  ∧ (name ∈ policy_names → run fuel 0 name b = (Val 0, b)).
Proof.
  split.
  - intros Hn iters. apply (algoDict_None fuel) in Hn. unfold run. by rewrite Hn.
  - intros Hin. unfold run.
    destruct (algoDict fuel !! name) as [f|] eqn:E.
    + unfold mbind, M_bind. by destruct fuel.
    + apply algoDict_None in E. done.
Qed.

(** ** The closest search on a board without empty cells *)

Lemma while_S {L R} fuel (cond : L → Board → bool) (body : L → M (flow L R)) l b :
  while_ (S fuel) cond body l b
  = if cond l b then
      match body l b with
      | (Val (Next l'), b') => while_ fuel cond body l' b'
      | (Val (Break l'), b') => (Val (inl l'), b')
      | (Val (Return r), b') => (Val (inr r), b')
      | (Raise e, b') => (Raise e, b')
      | (OutOfFuel, b') => (OutOfFuel, b')
      end
    else (Val (inl l), b).
Proof. reflexivity. Qed.

Lemma shuffled_nonempty_unsat b b' :
  shuffled b b' → unsatisfied b ≠ [] → unsatisfied b' ≠ [].
Proof. intros [] H. congruence. Qed.

Lemma shuffled_white_nil b b' : shuffled b b' → whiteCells b = [] → whiteCells b' = [].
Proof. intros [] H. rewrite H in sh_whiteCells0. by apply Permutation_nil_r. Qed.

Lemma shuffled_white_nonempty b b' :
  shuffled b b' → whiteCells b ≠ [] → whiteCells b' ≠ [].
Proof.
  intros [] H Hnil. apply H. rewrite Hnil in sh_whiteCells0.
  symmetry in sh_whiteCells0. by apply Permutation_nil_r.
Qed.

Lemma shuffled_below_stopping b b' :
  shuffled b b' → below_stopping b' = below_stopping b.
Proof. intros []. unfold below_stopping. congruence. Qed.

Ltac wp_sample_nonempty m b1 Hs Hne :=
  apply wp_bind; eapply wp_mono; [apply random_sample_wp|];
  cbv beta; intros [m|?|] b1 [Hs ?];
  [|exfalso; apply Hne; tauto|tauto].

Lemma select_closest_IndexError b :
  unsatisfied b ≠ [] → whiteCells b = [] →
  wp select_closest (λ r b', r = Raise IndexError ∧ shuffled b b') b.
Proof.
  intros Hu Hw. unfold select_closest.
  wp_sample_nonempty m b1 Hs1 Hu. wp_shuffle sort_whiteCells_wp b2 Hs2.
  assert (Hs : shuffled b b2) by (by eapply shuffled_trans).
  apply wp_bind. eapply wp_mono; [apply whiteCells_0_wp|]. cbv beta.
  intros [e|e|] ? [-> He].
  - rewrite (shuffled_white_nil b b2) in He by done. by apply elem_of_nil in He.
  - by destruct He as [-> _].
  - done.
Qed.

(** C10. A call of [step_single_closest] with a non-empty unsatisfied list
    and an empty empty-cell list raises [IndexError], whatever the stopping
    floor is, and writes no cell; so does [run] with that policy on such a
    board as soon as it may make one call. *)
Theorem single_closest_no_empty_cell (b : Board) :
  unsatisfied b ≠ [] → whiteCells b = [] →
  (∃ b', step_single_closest b = (Raise IndexError, b') ∧ shuffled b b')
  ∧ (∀ fuel iters, 0 < fuel → (0 < iters)%Z →
       ∃ b', run fuel iters "singleClosest" b = (Raise IndexError, b')
             ∧ shuffled b b').
Proof.
  intros Hu Hw.
  assert (Hstep : ∃ b', step_single_closest b = (Raise IndexError, b')
                        ∧ shuffled b b').
  { pose proof (select_closest_IndexError b Hu Hw) as H. unfold wp in H.
    unfold step_single_closest, single, mbind, M_bind.
    destruct (select_closest b) as [r b']. simpl in H. destruct H as [-> Hs].
    by exists b'. }
  split; [done|].
  intros fuel iters Hfuel Hiters. destruct Hstep as (b' & Hrun & Hs).
  exists b'. split; [|done].
  unfold run. rewrite (algoDict_policy fuel "singleClosest" Single Closest Plain)
    by (by apply (bool_decide_unpack _)).
  destruct fuel as [|fuel]; [lia|].
  unfold mbind, M_bind. rewrite while_S. cbn [fst snd].
  change (Z.of_nat 0) with 0%Z.
  assert ((0 <? iters)%Z = true) as -> by (by apply Z.ltb_lt).
  cbn [andb]. unfold run_body, mbind, M_bind, gets.
  destruct (unsatisfied b) as [|u us]; [done|].
  change (policy Single Closest Plain (S fuel)) with step_single_closest.
  by rewrite Hrun.
Qed.

(** ** The stopping floor of the closest search *)



(** ** The candidate pools of a drain *)

Lemma paint_cache i c ns j :
  Node.pval (paint i c ns !!! j) = Node.pval (ns !!! j)
  ∧ Node.redval (paint i c ns !!! j) = Node.redval (ns !!! j)
  ∧ Node.blueval (paint i c ns !!! j) = Node.blueval (ns !!! j).
Proof.
  unfold paint. destruct (decide (i = j)) as [->|Hne].
  - destruct (decide (j < length ns)).
    + by rewrite list_lookup_total_insert_eq.
    + by rewrite list_insert_ge by lia.
  - by rewrite list_lookup_total_insert_ne.
Qed.

Lemma retype_cache m e ns j :
  Node.pval (retype m e ns !!! j) = Node.pval (ns !!! j)
  ∧ Node.redval (retype m e ns !!! j) = Node.redval (ns !!! j)
  ∧ Node.blueval (retype m e ns !!! j) = Node.blueval (ns !!! j).
Proof.
  unfold retype.
  destruct (paint_cache m white (paint e (Node.color (ns !!! m)) ns) j) as (-> & -> & ->).
  apply paint_cache.
Qed.

Lemma same_cache_refl b : same_cache b b.
Proof. by intros i. Qed.

Lemma same_cache_trans b1 b2 b3 :
  same_cache b1 b2 → same_cache b2 b3 → same_cache b1 b3.
Proof.
  intros H1 H2 i. destruct (H1 i) as (? & ? & ?), (H2 i) as (? & ? & ?).
  repeat split; congruence.
Qed.

Lemma same_cache_nodes b b' : nodes b' = nodes b → same_cache b b'.
Proof. intros H i. unfold node. by rewrite H. Qed.

Lemma moved_cache gb b b' : moved gb b b' → same_cache b b'.
Proof.
  intros [m e wc wl _ _ _ _ _ Hn _] i. unfold node. rewrite Hn.
  apply retype_cache.
Qed.

(** Through the loop of a drain no cached value is refreshed and no
    snapshot is taken, and the only value a [return] inside it gives is
    [False]. *)
Lemma drain_loop_cache g s a fuel b :
  wp (drain_loop fuel (body_of g s a))
     (λ r b', same_cache b b' ∧ animationList b' = animationList b
              ∧ match r with
                | Val (inr v) => v = false
                | _ => True
                end) b.
Proof.
  unfold drain_loop. revert b. induction fuel as [|fuel IH]; intros b.
  - unfold wp. simpl. destruct (both_nonempty b); simpl; auto using same_cache_refl.
  - unfold wp. rewrite while_S.
    destruct (both_nonempty b); [|simpl; auto using same_cache_refl].
    pose proof (body_of_wp g s a b) as Hbody. unfold wp in Hbody.
    destruct (body_of g s a b) as [[[[]|[]|v]|e|] b1]; simpl in Hbody; try done.
    + specialize (IH b1). unfold wp in IH. destruct IH as (Hc & Ha & Hr).
      split; [|split; [|done]].
      * eapply same_cache_trans; [|done]. by eapply moved_cache.
      * destruct Hbody as [? ? ? ? _ _ _ _ _ _ (_ & _ & _ & _ & Ha' & _)]. congruence.
    + destruct Hbody as [-> (Hn & _ & _ & _ & _ & _ & _ & Ha & _)]. simpl.
      split; [by apply same_cache_nodes|]. by split.
    + destruct Hbody as (Hn & _ & _ & _ & _ & _ & _ & Ha & _). simpl.
      split; [by apply same_cache_nodes|]. by split.
Qed.


(** ** Board.averagepval *)

Lemma reload_sets_consistent b : whiteCells_consistent (reload_sets b).
Proof.
  unfold whiteCells_consistent.
  destruct (reload_sets_lists b) as (Hw & _ & Hc & _ & _ & _ & _ & _ & _ & Hb & _).
  rewrite Hw, Hb. by rewrite (colored_ext (reload_sets b) b).
Qed.

Lemma add_pval_fold b l acc :
  (foldl (add_pval b) acc l
   == acc + sum_pval b (filter (λ i, color_of b i ≠ white) l))%Q.
Proof.
  revert acc. induction l as [|h t IH]; intros acc; simpl.
  - ring.
  - rewrite filter_cons. rewrite IH. unfold add_pval.
    destruct (color_of b h) eqn:E; case_decide; try done; simpl; ring.
Qed.

Lemma add_pval_rows b rows acc :
  foldl (λ acc row, foldl (add_pval b) acc row) acc rows
  = foldl (add_pval b) acc (concat rows).
Proof.
  revert acc. induction rows as [|row rows IH]; intros acc; [done|].
  simpl. by rewrite foldl_app, IH.
Qed.

Lemma occupied_count b :
  length (occupied_cells b) + census b white = length (concat (board b)).
Proof.
  unfold occupied_cells. rewrite length_occupied. rewrite <- (census_sum b).
  unfold census. lia.
Qed.

Lemma occupied_nil b l :
  (∀ i, i ∈ l → color_of b i = white) →
  filter (λ i, color_of b i ≠ white) l = [].
Proof.
  induction l as [|h t IH]; intros H; [done|].
  rewrite filter_cons_False; [apply IH|].
  - intros i Hi. apply H. by right.
  - intros Hc. apply Hc, H. left.
Qed.

(** C8. When the empty-cell list holds exactly the empty cells of a grid of
    [size * size] cells, [averagepval] raises [ZeroDivisionError] exactly
    when no cell is occupied, which is exactly when every cell is white,
    and otherwise returns the sum of the cached satisfaction of the
    occupied cells divided by their number; it changes nothing. *)
Theorem averagepval_spec (b : Board) :
  length (concat (board b)) = size b * size b →
  whiteCells_consistent b →
  let n := length (occupied_cells b) in
  ((averagepval b).1 = Raise ZeroDivisionError ↔ n = 0)
  ∧ (n = 0 ↔ ∀ i, i ∈ concat (board b) → color_of b i = white)
  ∧ (0 < n → ∃ q, (averagepval b).1 = Val q
                  ∧ (q == sum_pval b (occupied_cells b) / inject_Z (Z.of_nat n))%Q)
  ∧ (averagepval b).2 = b.
Proof.
  intros Harea Hcons n.
  assert (Hden : (Z.of_nat (size b) ^ 2 - Z.of_nat (length (whiteCells b)))%Z
                 = Z.of_nat n).
  { pose proof (occupied_count b) as Hc. fold n in Hc.
    unfold whiteCells_consistent in Hcons.
    apply Permutation_length in Hcons. rewrite Hcons. fold (census b white).
    rewrite Z.pow_2_r, <- Nat2Z.inj_mul, <- Harea. lia. }
  unfold averagepval. rewrite Hden.
  split; [|split; [|split]].
  - destruct (Z.of_nat n =? 0)%Z eqn:E; simpl.
    + apply Z.eqb_eq in E. split; [lia|done].
    + apply Z.eqb_neq in E. split; [done|lia].
  - subst n. unfold occupied_cells. split.
    + intros Hn i Hi. destruct (decide (color_of b i = white)) as [|Hc]; [done|].
      exfalso. assert (Hin : i ∈ filter (λ i, color_of b i ≠ white) (concat (board b)))
        by (by apply list_elem_of_filter).
      apply length_zero_iff_nil in Hn. rewrite Hn in Hin. by apply elem_of_nil in Hin.
    + intros H. by rewrite occupied_nil.
  - intros Hn. eexists. split.
    + destruct (Z.of_nat n =? 0)%Z eqn:E; [apply Z.eqb_eq in E; lia|]. reflexivity.
    + rewrite add_pval_rows, add_pval_fold. fold (occupied_cells b).
      rewrite Qplus_0_l. reflexivity.
  - by destruct (Z.of_nat n =? 0)%Z.
Qed.

(** ** The satisfy-stop policies when only one colour is unsatisfied *)

Lemma no_candidate_find b b' c :
  shuffled b b' → no_candidate b c → find_satisfying c b' = None.
Proof.
  intros Hs Hno. destruct c; simpl; [done| |];
    apply first_candidate_None; intros e He;
    rewrite (shuffled_white_elem b b') in He by done;
    specialize (Hno e He); simpl in Hno;
    destruct Hs; unfold node; by rewrite sh_nodes0, sh_pbound0.
Qed.

(** With no unsatisfied cell of another colour every iteration of the
    "try other color" loop is skipped by [continue]. *)
Lemma other_color_skips presort c others m e b :
  (∀ i, i ∈ others → color_of b i = c) →
  other_color presort c others m e b = (Val (inl (m, e)), b).
Proof.
  induction others as [|o others IH]; intros H; [done|].
  cbn [other_color]. unfold mbind, M_bind, gets. cbn [fst snd].
  rewrite decide_True by (apply H; left). apply IH.
  intros i Hi. apply H. by right.
Qed.

Lemma select_Sat_stop_None s b c :
  unsatisfied b ≠ [] → c ≠ white →
  (∀ i, i ∈ unsatisfied b → color_of b i = c) →
  no_candidate b c →
  (s = Closest → below_stopping b = false) →
  ∃ m b', select_of s SatisfyStop b = (Val (inl (m, None)), b')
          ∧ m ∈ unsatisfied b ∧ shuffled b b'.
Proof.
  intros Hu Hc Hall Hno Hfloor.
  assert (Hgoal : wp (select_of s SatisfyStop)
            (λ r b', ∃ m, r = Val (inl (m, None)) ∧ m ∈ unsatisfied b
                          ∧ shuffled b b') b).
  { assert (Hfin : ∀ presort m b2, shuffled b b2 → m ∈ unsatisfied b →
        wp (Empty ← gets (find_satisfying (color_of b2 m));
            try_other_color presort (color_of b2 m) m Empty)
           (λ r b', ∃ m, r = Val (inl (m, None)) ∧ m ∈ unsatisfied b
                         ∧ shuffled b b') b2).
    { intros presort m b2 Hs Hm. apply wp_bind, wp_gets.
      rewrite (shuffled_color b b2), (Hall m Hm) by done.
      rewrite (no_candidate_find b b2 c) by done.
      unfold try_other_color. apply wp_bind, wp_gets.
      unfold wp. rewrite other_color_skips.
      - exists m. done.
      - intros i Hi. rewrite (sh_unsatisfied _ _ Hs) in Hi.
        rewrite (shuffled_color b b2) by done. by apply Hall. }
    destruct s; simpl.
    - unfold select_randomSat_stop.
      wp_sample_nonempty m b1 Hs1 Hu. wp_shuffle shuffle_whiteCells_wp b2 Hs2.
      apply wp_bind, wp_gets. apply Hfin; [by eapply shuffled_trans|done].
    - unfold select_closestSat_stop.
      wp_sample_nonempty m b1 Hs1 Hu. wp_shuffle sort_whiteCells_wp b2 Hs2.
      assert (Hs : shuffled b b2) by (by eapply shuffled_trans).
      apply wp_bind, wp_gets. apply wp_bind, wp_gets.
      rewrite (shuffled_below_stopping b b2), Hfloor by done.
      by apply Hfin. }
  unfold wp in Hgoal. destruct (select_of s SatisfyStop b) as [r b'].
  simpl in Hgoal. destruct Hgoal as (m & -> & Hm & Hs). by exists m, b'.
Qed.

(** With an unsatisfied cell of another colour and no empty cell meeting the
    bound for any colour, the "try other color" loop returns [False] at the
    first such cell. *)
Lemma other_color_exhausted presort c others m b :
  presort_ok presort →
  (∀ c', no_candidate b c') →
  (∃ o, o ∈ others ∧ color_of b o ≠ c) →
  wp (other_color presort c others m None)
     (λ r b', r = Val (inr false) ∧ shuffled b b') b.
Proof.
  intros Hpre Hno. induction others as [|o others IH]; intros (o' & Ho' & Hc').
  - by apply elem_of_nil in Ho'.
  - cbn [other_color]. apply wp_bind, wp_gets.
    destruct (decide (color_of b o = c)) as [Heq|Hne].
    + apply IH. exists o'. split; [|done].
      apply elem_of_cons in Ho' as [->|]; done.
    + apply wp_bind. eapply wp_mono; [apply Hpre|]. cbv beta.
      intros ? b1 [-> Hs]. apply wp_bind, wp_gets.
      rewrite (no_candidate_find b b1) by done. by apply wp_ret.
Qed.

(** The exhausted case the code does handle: the unsatisfied cells are not
    all of one colour and no empty cell meets the bound for any colour. Then
    every satisfy-stop policy returns [False] and writes no cell. *)
Lemma satisfy_stop_exhausted_returns_false (g : granularity) (s : search)
    (fuel : nat) (b : Board) :
  (∃ i j, i ∈ unsatisfied b ∧ j ∈ unsatisfied b ∧ color_of b i ≠ color_of b j) →
  (∀ c, no_candidate b c) →
  (g ≠ Single → 0 < fuel ∧ whiteCells b ≠ []) →
  ∃ b', policy g s SatisfyStop fuel b = (Val false, b') ∧ shuffled b b'.
Proof.
  intros (i & j & Hi & Hj & Hij) Hno Hdrain.
  assert (Hu : unsatisfied b ≠ []).
  { intros Hnil. rewrite Hnil in Hi. by apply elem_of_nil in Hi. }
  assert (Hsel : wp (select_of s SatisfyStop)
                    (λ r b', r = Val (inr false) ∧ shuffled b b') b).
  { assert (Hfin : ∀ presort m b2, presort_ok presort → shuffled b b2 →
        wp (Empty ← gets (find_satisfying (color_of b2 m));
            try_other_color presort (color_of b2 m) m Empty)
           (λ r b', r = Val (inr false) ∧ shuffled b b') b2).
    { intros presort m b2 Hpre Hs. apply wp_bind, wp_gets.
      rewrite (no_candidate_find b b2) by done.
      unfold try_other_color. apply wp_bind, wp_gets.
      eapply wp_mono.
      - apply other_color_exhausted; [done| |].
        + intros c' e He. rewrite (shuffled_white_elem b b2) in He by done.
          specialize (Hno c' e He). destruct Hs. unfold node.
          by rewrite sh_nodes0, sh_pbound0.
        + rewrite (sh_unsatisfied _ _ Hs).
          destruct (decide (color_of b i = color_of b m)) as [Heq|Hne].
          * exists j. split; [done|].
            rewrite !(shuffled_color b b2) by done. congruence.
          * exists i. split; [done|]. by rewrite !(shuffled_color b b2).
      - cbv beta. intros r b3 [-> Hs3]. split; [done|by eapply shuffled_trans]. }
    destruct s; simpl.
    - unfold select_randomSat_stop.
      wp_sample_nonempty m b1 Hs1 Hu. wp_shuffle shuffle_whiteCells_wp b2 Hs2.
      apply wp_bind, wp_gets.
      apply Hfin; [exact no_sort_wp|by eapply shuffled_trans].
    - unfold select_closestSat_stop.
      wp_sample_nonempty m b1 Hs1 Hu. wp_shuffle sort_whiteCells_wp b2 Hs2.
      assert (Hs : shuffled b b2) by (by eapply shuffled_trans).
      apply wp_bind, wp_gets. apply wp_bind, wp_gets.
      destruct (below_stopping b2); [by apply wp_ret|].
      apply Hfin; [exact sort_whiteCells_wp|done]. }
  unfold wp in Hsel. destruct (select_of s SatisfyStop b) as [r b'] eqn:E.
  simpl in Hsel. destruct Hsel as [-> Hs]. exists b'. split; [|done].
  destruct (decide (g = Single)) as [->|Hg].
  - rewrite policy_single. unfold single, mbind, M_bind. by rewrite E.
  - destruct (Hdrain Hg) as [Hfuel Hw]. rewrite policy_drain by done.
    destruct fuel as [|fuel]; [lia|].
    unfold drain, drain_loop, mbind, M_bind. rewrite while_S.
    assert (both_nonempty b = true) as ->.
    { unfold both_nonempty. destruct (unsatisfied b); [done|].
      by destruct (whiteCells b). }
    unfold body_of, micro_move, mbind, M_bind. by rewrite E.
Qed.

(** C1, what the code does. When every unsatisfied cell has the same colour
    and no empty cell meets the bound for that colour, a satisfy-stop policy
    does not return [False]: the single variants raise [AttributeError]
    (the destination is still [None] when it is retyped) and the drains
    raise [ValueError] (when [None] is removed from the empty-cell list). No
    cell is written. *)
Theorem satisfy_stop_one_colour_raises (g : granularity) (s : search)
    (fuel : nat) (b : Board) (c : Color) :
  unsatisfied b ≠ [] → c ≠ white →
  (∀ i, i ∈ unsatisfied b → color_of b i = c) →
  no_candidate b c →
  (s = Closest → below_stopping b = false) →
  (g ≠ Single → 0 < fuel ∧ whiteCells b ≠ []) →
  (policy g s SatisfyStop fuel b).1
    = Raise (if decide (g = Single) then AttributeError else ValueError)
  ∧ nodes (policy g s SatisfyStop fuel b).2 = nodes b.
Proof.
  intros Hu Hc Hall Hno Hfloor Hdrain.
  destruct (select_Sat_stop_None s b c Hu Hc Hall Hno Hfloor)
    as (m & b' & Hsel & Hm & Hs).
  case_decide as Hg.
  - subst g. rewrite policy_single. unfold single, mbind, M_bind.
    rewrite Hsel. simpl. split; [done|apply Hs].
  - destruct (Hdrain Hg) as [Hfuel Hw]. rewrite policy_drain by done.
    destruct fuel as [|fuel]; [lia|].
    unfold drain, drain_loop, mbind, M_bind. rewrite while_S.
    assert (both_nonempty b = true) as ->.
    { unfold both_nonempty. destruct (unsatisfied b); [done|].
      by destruct (whiteCells b). }
    unfold body_of, micro_move, mbind, M_bind. rewrite Hsel.
    destruct (remove_first_elem m (unsatisfied b')) as [ul Hul];
      [by rewrite (sh_unsatisfied _ _ Hs)|].
    destruct (bookkeeping_None (giveback g) _ m ul b'
                (bookkeeping_of_ok s SatisfyStop (giveback g)) Hul)
      as (b2 & Hrun & Hn & _).
    rewrite Hrun. simpl. split; [done|]. rewrite Hn. apply Hs.
Qed.

(** ** Construction establishes the invariant *)

Lemma unscanned_refl b : unscanned b b.
Proof. by repeat split. Qed.

Lemma unscanned_trans b1 b2 b3 : unscanned b1 b2 → unscanned b2 b3 → unscanned b1 b3.
Proof. intros (?&?&?&?&?) (?&?&?&?&?). repeat split; congruence. Qed.

Lemma sample_color_wp b :
  wp sample_color (λ r b', nodes b' = nodes b ∧ unscanned b b') b.
Proof.
  unfold wp, sample_color, mbind, M_bind, gets, raise, randbelow, modify.
  cbn [fst snd]. destruct (_ <=? 0)%Z; [by split; [|apply unscanned_refl]|].
  cbn [fst snd]. destruct (_ <? _)%Z; [destruct (_ <? _)%Z|]; by repeat split.
Qed.

Lemma new_Node_wp c x y b :
  wp (new_Node c x y)
     (λ r b', r = Val (length (nodes b))
              ∧ length (nodes b') = S (length (nodes b)) ∧ unscanned b b') b.
Proof.
  unfold wp, new_Node. cbn [fst snd].
  set (b1 := set_nodes _ b).
  pose proof (update_frame (length (nodes b)) b1) as (? & ? & ? & ? & ? & _).
  split; [done|]. split.
  - rewrite update_length. unfold b1. simpl. rewrite length_app. simpl. lia.
  - by repeat split.
Qed.

Lemma neigh_add_frame n1 n2 b :
  length (nodes (neigh_add n1 n2 b)) = length (nodes b)
  ∧ unscanned b (neigh_add n1 n2 b).
Proof. unfold neigh_add. split; [apply length_nodes_set_node|by repeat split]. Qed.

Lemma update_unscanned i b :
  length (nodes (update i b).2) = length (nodes b) ∧ unscanned b (update i b).2.
Proof.
  pose proof (update_frame i b) as (? & ? & ? & ? & ? & _).
  split; [apply update_length|by repeat split].
Qed.

Lemma bind_nodes_wp n1 n2 b :
  wp (bind_nodes n1 n2)
     (λ r b', r = Val tt ∧ length (nodes b') = length (nodes b) ∧ unscanned b b') b.
Proof.
  unfold wp, bind_nodes, mbind, M_bind, modify. cbn [fst snd].
  split; [done|].
  destruct (neigh_add_frame n1 n2 b) as [Hl1 Hu1].
  destruct (neigh_add_frame n2 n1 (neigh_add n1 n2 b)) as [Hl2 Hu2].
  destruct (update_unscanned n1 (neigh_add n2 n1 (neigh_add n1 n2 b))) as [Hl3 Hu3].
  destruct (update_unscanned n2
              (update n1 (neigh_add n2 n1 (neigh_add n1 n2 b))).2) as [Hl4 Hu4].
  split; [congruence|]. eauto using unscanned_trans.
Qed.

Lemma at_wp rows i j b : wp (at_ rows i j) (λ r b', b' = b) b.
Proof. unfold wp, at_. by destruct (_ ≫= _). Qed.

(** A neighbour lookup followed by the binding. *)
Lemma at_bind_wp rows i j new_node b :
  wp (n ← at_ rows i j; bind_nodes n new_node)
     (λ r b', r = Val tt → length (nodes b') = length (nodes b) ∧ unscanned b b') b.
Proof.
  apply wp_bind. eapply wp_mono; [apply at_wp|]. cbv beta.
  intros [n|e|] ? ->; [|done..].
  eapply wp_mono; [apply bind_nodes_wp|]. cbv beta. tauto.
Qed.

Lemma row_append_last full cur n :
  row_append (length full) n (full ++ [cur]) = full ++ [cur ++ [n]].
Proof.
  unfold row_append.
  rewrite lookup_total_app_r, Nat.sub_diag by done. simpl.
  rewrite <- (Nat.add_0_r (length full)) at 1. by rewrite insert_app_r.
Qed.

Lemma building_append sz full cur b b' :
  building sz full cur b →
  length (nodes b') = S (length (nodes b)) →
  building sz full (cur ++ [length (nodes b)]) b'.
Proof.
  intros [Hc Hf] Hl. split; [|done].
  rewrite Hl, seq_S, <- Hc. simpl.
  rewrite !concat_app. simpl. by rewrite !app_nil_r, app_assoc.
Qed.

Lemma building_next_row sz full cur b :
  building sz full cur b → length cur = sz → building sz (full ++ [cur]) [] b.
Proof.
  intros [Hc Hf] Hl. split.
  - rewrite <- Hc. rewrite !concat_app. simpl. by rewrite !app_nil_r.
  - apply Forall_app. split; [done|]. by apply Forall_singleton.
Qed.

(** The loop invariant rule of [for_]: [P] holds of the elements already
    visited. Only runs that reach the end are constrained. *)
Lemma for_wp {A L} (l : list A) (body : A → L → M L)
    (P : list A → L → Board → Prop) acc b :
  P [] acc b →
  (∀ pre a post acc b, l = pre ++ a :: post → P pre acc b →
     wp (body a acc) (λ r b', ∀ acc', r = Val acc' → P (pre ++ [a]) acc' b') b) →
  wp (for_ l body acc) (λ r b', ∀ acc', r = Val acc' → P l acc' b') b.
Proof.
  intros H0 Hbody.
  assert (Hgen : ∀ post pre acc b, l = pre ++ post → P pre acc b →
    wp (for_ post body acc)
       (λ r b', ∀ acc', r = Val acc' → P (pre ++ post) acc' b') b).
  { induction post as [|a post IH]; intros pre acc0 b0 Hl HP.
    - apply wp_ret. intros acc' [= <-]. by rewrite app_nil_r.
    - cbn [for_]. apply wp_bind.
      eapply wp_mono; [by apply (Hbody pre a post)|]. cbv beta.
      intros [acc1|e|] b1 H1; [|done..].
      assert (Hl' : l = (pre ++ [a]) ++ post) by (by rewrite <- app_assoc).
      eapply wp_mono; [apply (IH _ _ _ Hl'), H1; done|]. cbv beta.
      intros r b2 H2 acc' Hr. rewrite (cons_middle a), app_assoc. by apply H2. }
  apply (Hgen l [] acc b eq_refl H0).
Qed.

Lemma seq_split_index s n pre a post :
  seq s n = pre ++ a :: post → a = s + length pre.
Proof.
  intros H.
  assert (Hl : seq s n !! length pre = Some a).
  { rewrite H. by rewrite list_lookup_middle. }
  apply lookup_seq in Hl as [-> _]. done.
Qed.

Lemma settled_trans b1 b2 b3 : settled b1 b2 → settled b2 b3 → settled b1 b3.
Proof. intros [? ?] [? ?]. split; [congruence|by eapply unscanned_trans]. Qed.

Lemma at_bind_settled rows i j new_node b :
  wp (n ← at_ rows i j; bind_nodes n new_node) (λ r b', r = Val tt → settled b b') b.
Proof. apply at_bind_wp. Qed.

Lemma seq_settled (m1 m2 : M unit) b :
  wp m1 (λ r b', r = Val tt → settled b b') b →
  (∀ b1, wp m2 (λ r b', r = Val tt → settled b1 b') b1) →
  wp (m1;; m2) (λ r b', r = Val tt → settled b b') b.
Proof.
  intros H1 H2. apply wp_bind. eapply wp_mono; [exact H1|]. cbv beta.
  intros [[]|e|] b1 Hs; [|done..].
  eapply wp_mono; [apply H2|]. cbv beta. intros r b2 Hs2 Hr.
  eapply settled_trans; eauto.
Qed.

Lemma at_bind_then_settled rows i j new_node (rest : M unit) b :
  (∀ b1, wp rest (λ r b', r = Val tt → settled b1 b') b1) →
  wp (n ← at_ rows i j; bind_nodes n new_node;; rest)
     (λ r b', r = Val tt → settled b b') b.
Proof.
  intros Hrest. apply wp_bind. eapply wp_mono; [apply at_wp|]. cbv beta.
  intros [n|e|] ? ->; [|done..].
  apply seq_settled; [|done].
  eapply wp_mono; [apply bind_nodes_wp|]. cbv beta. intros r b' (_ & ? & ?) _.
  by split.
Qed.

Lemma build_cell_wp sz i j full cur b :
  i = length full → building sz full cur b →
  wp (build_cell sz i j (full ++ [cur]))
     (λ r b', ∀ rows', r = Val rows' →
        ∃ n, rows' = full ++ [cur ++ [n]]
             ∧ building sz full (cur ++ [n]) b' ∧ unscanned b b') b.
Proof.
  intros -> Hb. unfold build_cell.
  apply wp_bind. eapply wp_mono; [apply sample_color_wp|]. cbv beta.
  intros [c|e|] b1 [Hn1 Hu1]; [|done..].
  apply wp_bind. eapply wp_mono; [apply new_Node_wp|]. cbv beta.
  intros r b2 (-> & Hl2 & Hu2).
  set (new_node := length (nodes b1)).
  apply wp_bind.
  eapply (wp_mono _ (λ r b', r = Val tt → settled b2 b')).
  { case_decide; [apply at_bind_settled|].
    case_decide.
    - apply at_bind_then_settled. intros ?. apply at_bind_settled.
    - apply at_bind_then_settled. intros ?.
      apply at_bind_then_settled. intros ?. apply at_bind_settled. }
  cbv beta. intros [[]|e|] b3 Hs3; [|done..]. destruct (Hs3 eq_refl) as [Hl3 Hu3].
  apply wp_bind. eapply wp_mono; [apply at_wp|]. cbv beta.
  intros [n|e|] ? ->; [|done..].
  apply wp_bind. eapply wp_mono; [apply bind_nodes_wp|]. cbv beta.
  intros ? b4 (-> & Hl4 & Hu4). apply wp_ret.
  intros rows' [= <-]. exists new_node. rewrite row_append_last.
  split; [done|]. split.
  - unfold new_node. rewrite Hn1.
    apply building_append; [done|]. unfold new_node in *. congruence.
  - eauto using unscanned_trans.
Qed.

Lemma build_first_row_wp sz n0 b :
  building sz [] [n0] b →
  wp (build_first_row sz [[n0]])
     (λ r b', ∀ rows, r = Val rows →
        ∃ cur, rows = [cur] ∧ length cur = 1 + (sz - 1)
               ∧ building sz [] cur b' ∧ unscanned b b') b.
Proof.
  intros Hb. unfold build_first_row.
  eapply wp_mono.
  - apply (for_wp _ _ (λ pre rows b',
        ∃ cur, rows = [cur] ∧ length cur = 1 + length pre
               ∧ building sz [] cur b' ∧ unscanned b b')).
    + exists [n0]. repeat split; try done. apply Hb.
    + intros pre j post rows b1 _ (cur & -> & Hlen & Hb1 & Hu1).
      apply wp_bind. eapply wp_mono; [apply sample_color_wp|]. cbv beta.
      intros [c|e|] b2 [Hn2 Hu2]; [|done..].
      apply wp_bind. eapply wp_mono; [apply new_Node_wp|]. cbv beta.
      intros r b3 (-> & Hl3 & Hu3).
      apply wp_bind. eapply wp_mono; [apply at_wp|]. cbv beta.
      intros [n|e|] ? ->; [|done..].
      apply wp_bind. eapply wp_mono; [apply bind_nodes_wp|]. cbv beta.
      intros ? b4 (-> & Hl4 & Hu4). apply wp_ret.
      intros rows' [= <-]. exists (cur ++ [length (nodes b2)]).
      change [cur] with ([] ++ [cur]).
      rewrite (row_append_last [] cur). simpl.
      split; [done|]. split; [rewrite !length_app; simpl; lia|]. split.
      * rewrite Hn2. apply building_append; [done|]. congruence.
      * eauto using unscanned_trans.
  - cbv beta. intros r b' H rows Hr. destruct (H rows Hr) as (cur & ? & Hlen & ? & ?).
    exists cur. rewrite length_seq in Hlen. done.
Qed.

Lemma build_rest_wp sz cur0 b :
  building sz [] cur0 b → length cur0 = sz →
  wp (build_rest sz [cur0])
     (λ r b', ∀ rows, r = Val rows →
        length rows = 1 + (sz - 1)
        ∧ Forall (λ row : list nat, length row = sz) rows
        ∧ concat rows = seq 0 (length (nodes b'))
        ∧ unscanned b b') b.
Proof.
  intros Hb Hlen0. unfold build_rest.
  eapply wp_mono.
  - apply (for_wp _ _ (λ pre rows b',
        length rows = 1 + length pre
        ∧ Forall (λ row : list nat, length row = sz) rows
        ∧ concat rows = seq 0 (length (nodes b'))
        ∧ unscanned b b')).
    + destruct Hb as [Hc _]. simpl in Hc. split; [done|].
      split; [by apply Forall_singleton|]. split; [done|apply unscanned_refl].
    + intros pre i post rows b1 Hseq (Hlen & Hall & Hc & Hu).
      apply seq_split_index in Hseq.
      assert (Hi : i = length rows) by lia. clear Hseq.
      eapply wp_mono.
      * apply (for_wp _ _ (λ pre' rows' b',
            ∃ cur, rows' = rows ++ [cur] ∧ length cur = length pre'
                   ∧ building sz rows cur b' ∧ unscanned b b')).
        -- exists []. split; [done|]. split; [done|]. split; [|done].
           split; [|done]. rewrite concat_app. simpl. by rewrite !app_nil_r.
        -- intros pre' j post' rows' b2 _ (cur & -> & Hl' & Hb2 & Hu2).
           eapply wp_mono; [by apply build_cell_wp|]. cbv beta.
           intros r b3 H rows'' Hr.
           destruct (H rows'' Hr) as (n & -> & Hb3 & Hu3).
           exists (cur ++ [n]). split; [done|].
           split; [rewrite !length_app; simpl; lia|].
           split; [done|by eapply unscanned_trans].
      * cbv beta. intros r b2 H rows' Hr.
        destruct (H rows' Hr) as (cur & -> & Hl' & [Hc' Hall'] & Hu').
        rewrite length_seq in Hl'.
        split; [rewrite !length_app; simpl; lia|].
        split; [|done]. apply Forall_app. split; [done|by apply Forall_singleton].
  - cbv beta. intros r b' H rows Hr.
    destruct (H rows Hr) as (Hl & Hall & Hc & Hu).
    rewrite length_seq in Hl. done.
Qed.

(** The scan that fills the two lists, on rows of distinct cells. *)
Lemma scan_rows_lists_ok rows b :
  NoDup (concat rows) →
  let r := scan_rows rows ([], [], b) in
  let b' := set_board rows (set_whiteCells r.1.1 (set_unsatisfied r.1.2 r.2)) in
  lists_ok b' ∧ length (nodes b') = length (nodes b) ∧ size b' = size b.
Proof.
  intros Hnd r b'. subst r b'.
  pose proof (scan_rows_scanned rows [] [] b) as H.
  destruct (scan_rows rows ([], [], b)) as [[w u] b1].
  destruct H as [Hw Hu Hc Hn Hl Hp Ho (Hs & _)]. simpl in *.
  split; [|by split].
  unfold lists_ok. simpl. rewrite Hw, Hu. unfold colored.
  repeat split.
  - by apply NoDup_filter.
  - by apply NoDup_filter.
  - apply Forall_forall. intros i.
    rewrite list_elem_of_filter. unfold color_of, node. simpl.
    fold (node b1 i) (color_of b1 i). rewrite Hc. tauto.
  - apply Forall_forall. intros i.
    rewrite list_elem_of_filter. unfold color_of, node. simpl.
    fold (node b1 i) (color_of b1 i). rewrite Hc. tauto.
Qed.

Lemma build_board_wp b :
  0 < size b → nodes b = [] → unsatisfied b = [] → whiteCells b = [] →
  wp build_board
     (λ r b', ∀ rows, r = Val rows → Inv (set_board rows b')) b.
Proof.
  intros Hsz Hn0 Hu0 Hw0. unfold build_board.
  apply wp_bind, wp_gets.
  apply wp_bind. eapply wp_mono; [apply sample_color_wp|]. cbv beta.
  intros [c|e|] b1 [Hn1 Hs1]; [|done..].
  apply wp_bind. eapply wp_mono; [apply new_Node_wp|]. cbv beta.
  intros ? b2 (-> & Hl2 & Hs2).
  rewrite Hn1, Hn0 in Hl2. rewrite Hn1, Hn0. simpl in Hl2. simpl.
  assert (Hb2 : building (size b) [] [0] b2).
  { split; [|done]. rewrite Hl2. done. }
  apply wp_bind. eapply wp_mono; [by apply build_first_row_wp|]. cbv beta.
  intros [rows1|e|] b3 H3; [|done..].
  destruct (H3 rows1 eq_refl) as (cur & -> & Hlen & Hb3 & Hs3).
  apply wp_bind. eapply wp_mono; [apply build_rest_wp; [done|lia]|]. cbv beta.
  intros [rows|e|] b4 H4; [|done..].
  destruct (H4 rows eq_refl) as (Hlr & Hall & Hc & Hs4).
  assert (Hs : unscanned b b4) by eauto using unscanned_trans.
  destruct Hs as (Hsize & _ & Hu4 & Hw4 & _).
  apply wp_bind, wp_modify. apply wp_ret. intros ? [= <-].
  rewrite Hu4, Hw4, Hu0, Hw0.
  assert (Hnd : NoDup (concat rows)) by (rewrite Hc; apply NoDup_seq).
  destruct (scan_rows_lists_ok rows b4 Hnd) as (Hlists & Hlen' & Hsize').
  destruct (scan_rows rows ([], [], b4)) as [[w u] b5]. simpl in *.
  split; [|done].
  unfold board_ok. simpl. rewrite Hlen', Hsize', Hsize.
  split; [done|]. split; [|split; [lia|done]].
  rewrite Hc. apply Forall_forall. intros i Hi.
  apply elem_of_seq in Hi. lia.
Qed.

(** Every board the constructor returns satisfies the invariant. *)
Lemma Board_init_Inv sz whiteP redP pb stop rand :
  (Board_init sz whiteP redP pb stop rand).1 = Val tt →
  Inv (Board_init sz whiteP redP pb stop rand).2.
Proof.
  unfold Board_init.
  set (wc := int_of _). set (rc := int_of _). set (self := mkBoard _ _ _ _ _ _ _ _ _ _ _ _ _).
  destruct sz as [|sz].
  - intros H. exfalso. revert H.
    unfold build_board, sample_color, mbind, M_bind, gets, raise. cbn [fst snd].
    assert (white_count self + red_count self + blue_count self = 0)%Z as ->
      by (unfold self; simpl; lia).
    done.
  - pose proof (build_board_wp self) as H. unfold wp in H.
    unfold mbind, M_bind.
    destruct (build_board self) as [[rows|e|] b1]; simpl; try done.
    intros _. apply H; try done. unfold self. simpl. lia.
Qed.

(** On every board the constructor returns, any sequence of policy calls
    and any run of the driver keep the three populations, which add up to
    the grid area. *)
Lemma constructed_board_conserves sz whiteP redP pb stop rand :
  (Board_init sz whiteP redP pb stop rand).1 = Val tt →
  let b := (Board_init sz whiteP redP pb stop rand).2 in
  (∀ ps c, census (calls ps b) c = census b c)
  ∧ (∀ fuel iters name c, census (run fuel iters name b).2 c = census b c)
  ∧ census b red + census b blue + census b white = size b * size b.
Proof.
  intros Hok b. pose proof (Board_init_Inv _ _ _ _ _ _ Hok) as HI. fold b in HI.
  split; [|split].
  - intros ps c. by destruct (calls_inv ps b HI) as [_ (Hk & _)].
  - intros fuel iters name c.
    by destruct (run_inv fuel iters name b HI) as [_ (Hk & _)].
  - destruct HI as [Hbo _].
    rewrite <- (board_ok_area b Hbo), <- (census_sum b). lia.
Qed.

(** ** The theorems at work on built boards *)

Ltac by_computation := apply (bool_decide_unpack _); vm_compute; exact I.

Lemma Inv_board_B : Inv board_B.
Proof. by_computation. Defined.

(** [update_values] on the red cell of [board_A]. *)
Lemma update_values_witness :
  1 < length (nodes board_A)
  ∧ (update 1 board_A).1 = Node.pval (node (update 1 board_A).2 1)
  ∧ (0 < length (occupied_neighbors board_A 1) →
     (Node.redval (node (update 1 board_A).2 1)
      + Node.blueval (node (update 1 board_A).2 1) == 1)%Q).
Proof.
  assert (H : 1 < length (nodes board_A)) by (vm_compute; lia).
  split; [exact H|].
  destruct (update_values board_A 1 H) as (H1 & _ & _ & H4).
  split; [exact H1|]. intros Hocc. by destruct (H4 Hocc).
Defined.

(** [drain_terminates] on [whitebatchRandom] from [board_B]. *)
Lemma drain_terminates_witness :
  Whitebatch ≠ Single
  ∧ length (unsatisfied board_B) ≤ 3
  ∧ (policy Whitebatch Random Plain 3 board_B).1 ≠ OutOfFuel.
Proof.
  assert (H1 : Whitebatch ≠ Single) by discriminate.
  assert (H2 : length (unsatisfied board_B) ≤ 3) by (vm_compute; lia).
  split; [exact H1|]. split; [exact H2|].
  exact (proj1 (drain_terminates Whitebatch Random Plain board_B 3 H1 H2)).
Defined.

(** [relocation_conserves] on [board_B]. *)
Lemma relocation_conserves_witness :
  Inv board_B
  ∧ (∀ c, census (run 3 10 "whitebatchClosest" board_B).2 c = census board_B c)
  ∧ census board_B red + census board_B blue + census board_B white = 2 * 2.
Proof.
  split; [exact Inv_board_B|].
  destruct (relocation_conserves board_B Inv_board_B) as (_ & _ & _ & Hrun & Hsum).
  split; [|exact Hsum]. intros c. exact (proj2 (Hrun 3 10%Z "whitebatchClosest" c)).
Defined.

(** [run_invalid_or_zero] on an unknown name and on a known one. *)
Lemma run_invalid_or_zero_witness :
  ("bogus" ∉ policy_names)
  ∧ ("batchRandom" ∈ policy_names)
  ∧ run 3 200 "bogus" board_A = (Raise ValueError, board_A)
  ∧ run 3 0 "batchRandom" board_A = (Val 0, board_A).
Proof.
  assert (H1 : "bogus" ∉ policy_names) by by_computation.
  assert (H2 : "batchRandom" ∈ policy_names) by by_computation.
  split; [exact H1|]. split; [exact H2|]. split.
  - exact (proj1 (run_invalid_or_zero 3 "bogus" board_A) H1 200%Z).
  - exact (proj2 (run_invalid_or_zero 3 "batchRandom" board_A) H2).
Defined.

(** [single_closest_no_empty_cell] on [board_C], which has no empty cell. *)
Lemma single_closest_no_empty_cell_witness :
  unsatisfied board_C ≠ []
  ∧ whiteCells board_C = []
  ∧ ∃ b', step_single_closest board_C = (Raise IndexError, b')
          ∧ shuffled board_C b'.
Proof.
  assert (H1 : unsatisfied board_C ≠ []) by (vm_compute; discriminate).
  assert (H2 : whiteCells board_C = []) by (vm_compute; reflexivity).
  split; [exact H1|]. split; [exact H2|].
  exact (proj1 (single_closest_no_empty_cell board_C H1 H2)).
Defined.



(** A whitebatch drain reuses a vacated cell: on [board_B] the first
    micro-move of [step_whitebatch_random] vacates cell 1 (into cell 0) and
    leaves it as the only empty-cell candidate; the second micro-move moves
    cell 2 into it. *)
Lemma whitebatch_reuses_vacated_cell :
  let body := body_of Whitebatch Random Plain in
  let b1 := (body board_B).2 in
  let b2 := (body b1).2 in
  (body board_B).1 = Val (Next tt)
  ∧ unsatisfied b1 = [2; 3] ∧ whiteCells b1 = [1]
  ∧ (body b1).1 = Val (Next tt)
  ∧ unsatisfied b2 = [3] ∧ whiteCells b2 = [2]
  ∧ color_of b2 <$> [0; 1; 2; 3] = [red; blue; white; blue].
Proof. vm_compute. repeat split. Qed.


(** [averagepval_spec] on [board_A]: three occupied cells. *)
Lemma averagepval_spec_witness :
  length (concat (board board_A)) = size board_A * size board_A
  ∧ whiteCells_consistent board_A
  ∧ (averagepval board_A).2 = board_A
  ∧ ∃ q, (averagepval board_A).1 = Val q
         ∧ (q == sum_pval board_A (occupied_cells board_A) / inject_Z 3)%Q.
Proof.
  assert (H1 : length (concat (board board_A)) = size board_A * size board_A)
    by (vm_compute; reflexivity).
  assert (H2 : whiteCells_consistent board_A).
  { unfold whiteCells_consistent.
    assert (whiteCells board_A = colored board_A white (concat (board board_A)))
      as -> by (vm_compute; reflexivity).
    reflexivity. }
  split; [exact H1|]. split; [exact H2|].
  destruct (averagepval_spec board_A H1 H2) as (_ & _ & Hq & Hst).
  split; [exact Hst|].
  assert (H3 : 0 < length (occupied_cells board_A)) by (vm_compute; lia).
  destruct (Hq H3) as (q & Hv & Heq). exists q. split; [exact Hv|].
  assert (length (occupied_cells board_A) = 3) as Hn by (vm_compute; reflexivity).
  rewrite Hn in Heq. exact Heq.
Defined.

(** [satisfy_stop_one_colour_raises] on [board_A]: the red cell is the only
    unsatisfied one, and the one empty cell has a red share of 1/3, below
    the bound 1/2. *)
Lemma satisfy_stop_one_colour_raises_witness :
  unsatisfied board_A ≠ []
  ∧ (∀ i, i ∈ unsatisfied board_A → color_of board_A i = red)
  ∧ no_candidate board_A red
  ∧ (step_single_randomSat_stop board_A).1 = Raise AttributeError
  ∧ nodes (step_single_randomSat_stop board_A).2 = nodes board_A.
Proof.
  assert (H1 : unsatisfied board_A ≠ []) by (vm_compute; discriminate).
  assert (H2 : ∀ i, i ∈ unsatisfied board_A → color_of board_A i = red).
  { intros i Hi. change (unsatisfied board_A) with [1] in Hi.
    apply list_elem_of_singleton in Hi as ->. vm_compute. reflexivity. }
  assert (H3 : no_candidate board_A red).
  { intros e He. change (whiteCells board_A) with [0] in He.
    apply list_elem_of_singleton in He as ->. vm_compute. reflexivity. }
  split; [exact H1|]. split; [exact H2|]. split; [exact H3|].
  assert (H4 : red ≠ white) by discriminate.
  refine (satisfy_stop_one_colour_raises Single Random 0 board_A red
            H1 H4 H2 H3 _ _).
  - intros H. discriminate H.
  - intros H. exfalso. apply H. reflexivity.
Defined.

(** * Further properties of the code *)

(** A run on a built board, by computation of its result. *)
Ltac by_run :=
  etransitivity; [apply surjective_pairing|]; f_equal; vm_compute; reflexivity.

(** ** Node.update, once more *)

Lemma with_vals_twice p r bl n :
  Node.with_vals p r bl (Node.with_vals p r bl n) = Node.with_vals p r bl n.
Proof. done. Qed.

Lemma set_node_twice i n b : set_node i n (set_node i n b) = set_node i n b.
Proof. unfold set_node, set_nodes. simpl. by rewrite list_insert_insert_eq. Qed.

(** X1. A second [update] of a cell, with no colour changed in between,
    returns the same satisfaction and leaves the whole state as the first
    one left it. *)
Theorem update_idempotent (b : Board) (i : nat) :
  update i (update i b).2 = update i b.
Proof.
  destruct (decide (i < length (nodes b))) as [Hi|Hi].
  - unfold update at 1.
    rewrite update_neigh. fold (node b i).
    assert (Hcount : count_neigh (update i b).2 (elements (Node.neigh (node b i)))
                     = count_neigh b (elements (Node.neigh (node b i)))).
    { rewrite !count_neigh_spec. f_equal; f_equal; apply colored_ext;
        intros j; apply update_color. }
    rewrite Hcount.
    assert (Hcol : Node.color (node (update i b).2 i) = Node.color (node b i))
      by apply (update_color i b i).
    rewrite Hcol. unfold update.
    destruct (count_neigh b _) as [r bl].
    destruct (r + bl =? 0); cbn [fst snd];
      rewrite node_set_node_eq by done; by rewrite with_vals_twice, set_node_twice.
  - assert (Hb : (update i b).2 = b).
    { unfold update. destruct (count_neigh b _) as [r bl].
      destruct (r + bl =? 0); cbn [snd]; apply node_set_node_ge; lia. }
    by rewrite Hb.
Qed.

Lemma ratio_range k n : k ≤ n → 0 < n → (0 <= ratio k n <= 1)%Q.
Proof.
  intros Hk Hn. unfold ratio.
  assert (Hpos : (0 < inject_Z (Z.of_nat n))%Q).
  { unfold Qlt. simpl. lia. }
  split.
  - apply Qle_shift_div_l; [done|]. rewrite Qmult_0_l.
    unfold Qle. simpl. lia.
  - apply Qle_shift_div_r; [done|]. rewrite Qmult_1_l.
    unfold Qle. simpl. lia.
Qed.

(** X2. After [update] the three cached values of the cell lie between 0
    and 1. *)
Theorem update_bounds (b : Board) (i : nat) :
  i < length (nodes b) →
  let n' := node (update i b).2 i in
  (0 <= Node.pval n' <= 1)%Q
  ∧ (0 <= Node.redval n' <= 1)%Q
  ∧ (0 <= Node.blueval n' <= 1)%Q.
Proof.
  intros Hi. cbv zeta. unfold update.
  destruct (count_neigh b _) as [r bl].
  destruct (r + bl =? 0) eqn:E; cbn [snd]; rewrite node_set_node_eq by done; simpl.
  - repeat split; done.
  - apply Nat.eqb_neq in E.
    assert (Hr : (0 <= ratio r (r + bl) <= 1)%Q) by (apply ratio_range; lia).
    assert (Hb : (0 <= ratio bl (r + bl) <= 1)%Q) by (apply ratio_range; lia).
    split; [|done]. by destruct (Node.color (node b i)).
Qed.

(** ** The driver: convergence, termination and the step count *)

Lemma algoDict_is_Some fuel name :
  name ∈ policy_names → is_Some (algoDict fuel !! name).
Proof.
  intros Hin. destruct (algoDict fuel !! name) eqn:E; [done|].
  by apply algoDict_None in E.
Qed.

(** X3. On a board with no unsatisfied cell, [run] with any of the eighteen
    policies returns 0 at once: no policy call, no snapshot, no change of
    state, whatever [iters] is. *)
Theorem run_converged (fuel : nat) (iters : Z) (name : string) (b : Board) :
  unsatisfied b = [] → name ∈ policy_names → 0 < fuel →
  run fuel iters name b = (Val 0, b).
Proof.
  intros Hu Hin Hfuel. unfold run.
  destruct (algoDict_is_Some fuel name Hin) as [f ->].
  destruct fuel as [|fuel]; [lia|].
  unfold mbind, M_bind. rewrite while_S. cbn [fst snd].
  destruct (_ && _); [|done].
  unfold run_body, mbind, M_bind, gets. cbn [fst snd]. by rewrite Hu.
Qed.

Lemma unsatisfied_bound b : Inv b → length (unsatisfied b) ≤ size b * size b.
Proof.
  intros [Hbo (Hnd & _ & Hu & _)]. rewrite <- (board_ok_area b Hbo).
  apply submseteq_length, NoDup_submseteq; [done|].
  rewrite Forall_forall in Hu. intros i Hi. by apply Hu.
Qed.

Lemma policy_fuel g s a fuel b :
  Inv b → size b * size b ≤ fuel → (policy g s a fuel b).1 ≠ OutOfFuel.
Proof.
  intros HI Hfuel. destruct (decide (g = Single)) as [->|Hg].
  - rewrite policy_single.
    by destruct (single_inv (select_of s a) b (select_of_ok s a) HI).
  - rewrite policy_drain by done.
    assert (Hlen : length (unsatisfied b) ≤ fuel).
    { pose proof (unsatisfied_bound b HI). lia. }
    destruct (drain_loop_bounded (body_of g s a) (body_of_shortens g s a) fuel b Hlen)
      as [Hne _].
    unfold drain, mbind, M_bind.
    destruct (drain_loop fuel (body_of g s a) b) as [[[[]|v]|e|] b1]; try done.
    apply finish_step_fuel.
Qed.

Lemma run_loop_terminates (J : Board → Prop) stepfunction iters k l b :
  (∀ b, J b → (stepfunction b).1 ≠ OutOfFuel ∧ J (stepfunction b).2) →
  J b → (iters - Z.of_nat l.1 <= Z.of_nat k)%Z →
  let r := while_ k (λ l _, (Z.of_nat l.1 <? iters)%Z && l.2)
             (run_body stepfunction) l b in
  match r.1 with
  | Val (inl l') => (Z.of_nat l'.1 <= Z.max (Z.of_nat l.1) iters)%Z
  | Val (inr _) | OutOfFuel => False
  | Raise _ => True
  end.
Proof.
  intros Hstep. revert l b. induction k as [|k IH]; intros l b HI Hk r; subst r.
  - simpl. destruct (Z.of_nat l.1 <? iters)%Z eqn:E; [apply Z.ltb_lt in E; lia|].
    simpl. lia.
  - rewrite while_S.
    destruct (Z.of_nat l.1 <? iters)%Z eqn:E; [|simpl; lia].
    apply Z.ltb_lt in E. destruct l.2; [|simpl; lia]. cbn [andb].
    unfold run_body, mbind, M_bind, gets. cbn [fst snd].
    destruct (unsatisfied b) as [|u us]; [simpl; lia|].
    destruct (Hstep b HI) as [Hne HI1].
    destruct (stepfunction b) as [[v|e|] b1]; simpl in *; try done.
    specialize (IH (S l.1, v) b1 HI1). cbn [fst snd] in IH.
    assert (Hk' : (iters - Z.of_nat (S l.1) <= Z.of_nat k)%Z) by lia.
    specialize (IH Hk').
    destruct (while_ k _ _ (S l.1, v) b1) as [[[l'|n]|e|] b2]; simpl in *;
      try done. lia.
Qed.

(** X4. From a board satisfying the invariant, with a budget that covers
    [iters] and the number of cells, [run] never exhausts the budget: it
    returns or raises, and a returned step count is at most [iters] (0 when
    [iters] is negative). *)
Theorem run_terminates (fuel : nat) (iters : Z) (name : string) (b : Board) :
  Inv b → size b * size b ≤ fuel → (iters <= Z.of_nat fuel)%Z →
  (run fuel iters name b).1 ≠ OutOfFuel
  ∧ ∀ n, (run fuel iters name b).1 = Val n → (Z.of_nat n <= Z.max 0 iters)%Z.
Proof.
  intros HI Hsize Hiters. unfold run.
  destruct (algoDict fuel !! name) as [f|] eqn:E; [|by split].
  apply algoDict_Some in E as (g & s & a & _ & ->).
  pose proof (run_loop_terminates (λ b0, Inv b0 ∧ size b0 = size b)
                (policy g s a fuel) iters fuel (0, true) b) as H.
  cbn [fst snd] in H. unfold mbind, M_bind.
  destruct (while_ fuel _ _ (0, true) b) as [[[l'|n]|e|] b2]; simpl in *.
  - assert (Hl : (Z.of_nat l'.1 <= Z.max 0 iters)%Z).
    { apply H; [|done|lia]. intros b0 [HI0 Hs0].
      split; [apply policy_fuel; [done|by rewrite Hs0]|].
      destruct (policy_inv g s a fuel b0 HI0) as [HI1 (_ & _ & Hs1 & _)].
      split; [done|congruence]. }
    split; [done|]. by intros ? [= <-].
  - exfalso. apply H; [|done|lia]. intros b0 [HI0 Hs0].
    split; [apply policy_fuel; [done|by rewrite Hs0]|].
    destruct (policy_inv g s a fuel b0 HI0) as [HI1 (_ & _ & Hs1 & _)].
    split; [done|congruence].
  - by split.
  - exfalso. apply H; [|done|lia]. intros b0 [HI0 Hs0].
    split; [apply policy_fuel; [done|by rewrite Hs0]|].
    destruct (policy_inv g s a fuel b0 HI0) as [HI1 (_ & _ & Hs1 & _)].
    split; [done|congruence].
Qed.

(** ** The closest search picks a nearest empty cell *)

(** The head of the stable sort is the first element of least key. *)
Lemma sort_by_head key l e rest :
  sort_by key l = e :: rest →
  ∃ pre post, l = pre ++ e :: post
    ∧ Forall (λ x, (key e < key x)%Z) pre
    ∧ Forall (λ x, (key e <= key x)%Z) post.
Proof.
  revert e rest. induction l as [|a t IH]; intros e rest; [done|].
  unfold sort_by. cbn [foldr]. fold (sort_by key t).
  destruct (sort_by key t) as [|h r] eqn:Et.
  - assert (t = []) as ->.
    { apply Permutation_nil_r. rewrite <- Et. symmetry. apply sort_by_perm. }
    simpl. intros [= <- <-]. by exists [], [].
  - destruct (IH h r eq_refl) as (pre & post & -> & Hpre & Hpost).
    simpl. destruct (key a <=? key h)%Z eqn:E.
    + apply Z.leb_le in E. intros [= <- <-].
      exists [], (pre ++ h :: post). split; [done|]. split; [done|].
      apply Forall_app. split; [|apply Forall_cons; split].
      * eapply Forall_impl; [exact Hpre|]. simpl. lia.
      * done.
      * eapply Forall_impl; [exact Hpost|]. simpl. lia.
    + apply Z.leb_gt in E. intros [= <- <-].
      exists (a :: pre), post. split; [done|]. split; [|done].
      by apply Forall_cons.
Qed.

(** X5. When the plain closest selection yields a mover and a destination,
    the destination is an empty-cell candidate at least distance from the
    mover and, among the candidates at that distance, the first one in the
    order the list had on entry. *)
Theorem closest_destination_nearest (b b' : Board) (m e : nat) :
  select_closest b = (Val (inl (m, Some e)), b') →
  m ∈ unsatisfied b
  ∧ ∃ pre post, whiteCells b = pre ++ e :: post
      ∧ Forall (λ x, (distance_sq b m e < distance_sq b m x)%Z) pre
      ∧ Forall (λ x, (distance_sq b m e <= distance_sq b m x)%Z) post.
Proof.
  unfold select_closest, random_sample, mbind, M_bind, gets. cbn [fst snd].
  destruct (unsatisfied b) as [|u us] eqn:Eu; [done|].
  unfold randbelow, mret, M_ret, sort_whiteCells, modify, whiteCells_0,
    mbind, M_bind, gets. cbn [fst snd].
  set (j := rng b (drawn b) mod length (u :: us)).
  set (m0 := (u :: us) !!! j).
  change (whiteCells (set_drawn (S (drawn b)) b)) with (whiteCells b).
  change (distance_sq (set_drawn (S (drawn b)) b) m0) with (distance_sq b m0).
  cbn [whiteCells set_whiteCells].
  destruct (sort_by (distance_sq b m0) (whiteCells b)) as [|e0 rest] eqn:Es;
    [done|].
  unfold raise, mret, M_ret. cbn [fst snd].
  destruct (below_stopping _); [done|].
  intros [= <- <- <-]. split.
  - apply list_elem_of_lookup_total_2. apply Nat.mod_upper_bound. done.
  - by apply sort_by_head in Es.
Qed.

(** ** The satisfy policies move a cell only where it will be satisfied *)

Lemma shuffled_qualifies b b' c x : shuffled b b' → qualifies b' c x ↔ qualifies b c x.
Proof.
  intros []. unfold qualifies, node. by rewrite sh_nodes0, sh_pbound0.
Qed.

Lemma find_satisfying_qualifies c b x :
  find_satisfying c b = Some x → qualifies b c x.
Proof.
  destruct c; simpl; [done| |]; intros H; by apply first_candidate_Some in H as [].
Qed.


(** Through the "try other color" loop the pair (mover, destination) stays
    one in which the destination qualifies for the mover's colour. *)
Lemma other_color_qualifies presort c others m e b :
  presort_ok presort →
  (∀ x, e = Some x → qualifies b (color_of b m) x) →
  wp (other_color presort c others m e)
     (λ r b', shuffled b b'
              ∧ ∀ m' x, r = Val (inl (m', Some x)) →
                  qualifies b (color_of b m') x) b.
Proof.
  intros Hpre. revert m e b.
  induction others as [|o others IH]; intros m e b He.
  - apply wp_ret. split; [apply shuffled_refl|]. intros m' x [= <- Hx]. auto.
  - cbn [other_color]. apply wp_bind, wp_gets.
    assert (Hgo : ∀ m1 e1 b1, shuffled b b1 →
              (∀ x, e1 = Some x → qualifies b (color_of b m1) x) →
              wp (other_color presort c others m1 e1)
                 (λ r b', shuffled b b'
                   ∧ ∀ m' x, r = Val (inl (m', Some x)) →
                       qualifies b (color_of b m') x) b1).
    { intros m1 e1 b1 Hs He1. eapply wp_mono.
      - apply IH. intros x Hx. rewrite (shuffled_color b b1) by done.
        apply (shuffled_qualifies b b1); auto.
      - cbv beta. intros r b' [Hs' Hq]. split; [by eapply shuffled_trans|].
        intros m' x Hr. specialize (Hq m' x Hr).
        rewrite (shuffled_color b b1) in Hq by done.
        by apply (shuffled_qualifies b b1) in Hq. }
    destruct (decide (color_of b o = c)).
    + apply Hgo; [apply shuffled_refl|done].
    + apply wp_bind. eapply wp_mono; [apply Hpre|]. cbv beta.
      intros ? b1 [-> Hs]. apply wp_bind, wp_gets.
      destruct (find_satisfying (color_of b o) b1) as [cand|] eqn:Ef.
      * apply Hgo; [done|]. intros x [= <-].
        apply (shuffled_qualifies b b1); [done|].
        by apply find_satisfying_qualifies.
      * destruct e as [x|]; [by apply Hgo|].
        apply wp_ret. split; [done|]. intros ? ? [=].
Qed.

Lemma select_Sat_stop_qualifies s b :
  wp (select_of s SatisfyStop)
     (λ r b', ∀ m x, r = Val (inl (m, Some x)) → qualifies b (color_of b m) x) b.
Proof.
  assert (Hfin : ∀ presort m b2, presort_ok presort → shuffled b b2 →
      wp (Empty ← gets (find_satisfying (color_of b2 m));
          try_other_color presort (color_of b2 m) m Empty)
         (λ r b', ∀ m x, r = Val (inl (m, Some x)) →
                    qualifies b (color_of b m) x) b2).
  { intros presort m b2 Hpre Hs. apply wp_bind, wp_gets.
    unfold try_other_color.
    destruct (find_satisfying (color_of b2 m) b2) as [x|] eqn:Ef.
    - apply wp_ret. intros ? ? [= <- <-].
      apply find_satisfying_qualifies in Ef.
      rewrite (shuffled_color b b2) in Ef by done.
      by apply (shuffled_qualifies b b2) in Ef.
    - apply wp_bind, wp_gets. eapply wp_mono.
      + by apply (other_color_qualifies presort _ _ m None b2).
      + cbv beta. intros r b3 [Hs3 Hq] m' x Hr. specialize (Hq m' x Hr).
        rewrite (shuffled_color b b2) in Hq by done.
        by apply (shuffled_qualifies b b2) in Hq. }
  destruct s; simpl.
  - unfold select_randomSat_stop.
    apply wp_bind. eapply wp_mono; [apply random_sample_wp|]. cbv beta.
    intros [m|?|] b1 [Hs1 _]; [|done..].
    wp_shuffle shuffle_whiteCells_wp b2 Hs2. apply wp_bind, wp_gets.
    apply Hfin; [exact no_sort_wp|by eapply shuffled_trans].
  - unfold select_closestSat_stop.
    apply wp_bind. eapply wp_mono; [apply random_sample_wp|]. cbv beta.
    intros [m|?|] b1 [Hs1 _]; [|done..].
    wp_shuffle sort_whiteCells_wp b2 Hs2.
    apply wp_bind, wp_gets. apply wp_bind, wp_gets.
    destruct (below_stopping b2); [by apply wp_ret|].
    apply Hfin; [exact sort_whiteCells_wp|by eapply shuffled_trans].
Qed.

(** X6. Whenever a satisfy-stop selection (random or closest) yields a
    mover and a destination, the destination is an empty-cell candidate
    whose cached share of the mover's colour meets the bound; this holds
    also when the "try other color" loop replaced the mover. *)
Theorem satisfy_stop_destination_qualifies (s : search) (b b' : Board)
    (m x : nat) :
  select_of s SatisfyStop b = (Val (inl (m, Some x)), b') →
  m ∈ unsatisfied b ∧ x ∈ whiteCells b ∧ qualifies b (color_of b m) x.
Proof.
  intros Hrun.
  pose proof (select_of_ok s SatisfyStop b) as Hok.
  pose proof (select_Sat_stop_qualifies s b) as Hq.
  unfold wp in Hok, Hq. rewrite Hrun in Hok, Hq. simpl in Hok, Hq.
  destruct Hok as [Hs [Hm Hx]]. split; [done|]. split.
  - rewrite <- (shuffled_white_elem b b') by done. by apply Hx.
  - by apply Hq.
Qed.



(** ** The grid exports: to_np_colorcode and to_np_pvals *)

Lemma grid_mapM {A} (f : nat → A) (rows : list (list nat)) sz :
  length rows = sz → Forall (λ row : list nat, length row = sz) rows →
  mapM (M := option)
       (λ i, mapM (M := option)
               (λ j, row ← rows !! i; n ← row !! j; Some (f n)) (seq 0 sz))
       (seq 0 sz)
  = Some ((λ row : list nat, f <$> row) <$> rows).
Proof.
  intros Hlen Hrows. apply mapM_Some.
  apply Forall2_same_length_lookup. split.
  { by rewrite length_seq, length_fmap. }
  intros i i' fr Hi Hfr. apply lookup_seq in Hi as [-> Hi]. simpl.
  rewrite list_lookup_fmap in Hfr.
  destruct (rows !! i) as [row|] eqn:Er; [|done]. simpl in Hfr.
  injection Hfr as <-.
  assert (Hrow : length row = sz).
  { rewrite Forall_forall in Hrows. apply Hrows. by eapply list_elem_of_lookup_2. }
  apply mapM_Some. apply Forall2_same_length_lookup. split.
  { by rewrite length_seq, length_fmap. }
  intros j j' v Hj Hv. apply lookup_seq in Hj as [-> Hj]. simpl.
  rewrite list_lookup_fmap in Hv.
  destruct (row !! j); simpl in *; congruence.
Qed.

(** X8. On a board of [size] rows of [size] cells, [to_np_colorcode] and
    [to_np_pvals] do not raise and change nothing; what they return has the
    shape of the board, with every cell replaced by the code of its colour
    (0, 100 or -100), respectively by its cached satisfaction. *)
Theorem grid_exports (b : Board) :
  length (board b) = size b →
  Forall (λ row : list nat, length row = size b) (board b) →
  to_np_colorcode b
  = (Val ((λ row : list nat, (λ n, colorcode (color_of b n)) <$> row)
          <$> board b), b)
  ∧ to_np_pvals b
    = (Val ((λ row : list nat, (λ n, Node.pval (node b n)) <$> row)
            <$> board b), b).
Proof.
  intros Hlen Hrows. split.
  - pose proof (grid_mapM (λ n, colorcode (color_of b n)) _ _ Hlen Hrows) as H.
    unfold to_np_colorcode. cbv beta in H. by rewrite H.
  - pose proof (grid_mapM (λ n, Node.pval (node b n)) _ _ Hlen Hrows) as H.
    unfold to_np_pvals. cbv beta in H. by rewrite H.
Qed.

Lemma grid_exports_witness :
  length (board board_A) = size board_A
  ∧ Forall (λ row : list nat, length row = size board_A) (board board_A)
  ∧ to_np_colorcode board_A
    = (Val ((λ row : list nat, (λ n, colorcode (color_of board_A n)) <$> row)
            <$> board board_A), board_A).
Proof.
  assert (H1 : length (board board_A) = size board_A) by (vm_compute; reflexivity).
  assert (H2 : Forall (λ row : list nat, length row = size board_A)
                 (board board_A)) by by_computation.
  split; [exact H1|]. split; [exact H2|].
  exact (proj1 (grid_exports board_A H1 H2)).
Defined.

(** ** The average satisfaction after a refresh *)

Lemma fresh_range b i : (0 <= fresh b i <= 1)%Q.
Proof.
  unfold fresh, update. destruct (count_neigh b _) as [r bl].
  destruct (r + bl =? 0) eqn:E; cbn [fst]; [done|].
  apply Nat.eqb_neq in E.
  destruct (Node.color (node b i)); [done| |]; apply ratio_range; lia.
Qed.

Lemma inject_Z_S n : (inject_Z (Z.of_nat (S n)) == 1 + inject_Z (Z.of_nat n))%Q.
Proof. rewrite Nat2Z.inj_succ, <- Z.add_1_l, inject_Z_plus. reflexivity. Qed.

Lemma sum_pval_range b l :
  (∀ i, i ∈ l → (0 <= Node.pval (node b i) <= 1)%Q) →
  (0 <= sum_pval b l <= inject_Z (Z.of_nat (length l)))%Q.
Proof.
  induction l as [|h t IH]; intros H; [done|].
  destruct (H h) as [Hh0 Hh1]; [left|].
  destruct IH as [Ht0 Ht1]; [intros i Hi; apply H; by right|].
  cbn [sum_pval foldr length]. fold (sum_pval b t). rewrite inject_Z_S. split.
  - rewrite <- (Qplus_0_l 0). by apply Qplus_le_compat.
  - by apply Qplus_le_compat.
Qed.

Lemma Inv_board_A : Inv board_A.
Proof. by_computation. Defined.

(** X9. After [reload_sets] on a well-formed board with at least one
    occupied cell, [averagepval] does not raise and its value lies between
    0 and 1. *)
Theorem averagepval_range (b : Board) :
  board_ok b →
  (∃ i, i ∈ concat (board b) ∧ color_of b i ≠ white) →
  ∃ q, averagepval (reload_sets b) = (Val q, reload_sets b) ∧ (0 <= q <= 1)%Q.
Proof.
  intros Hbo (i0 & Hi0 & Hc0).
  destruct (reload_sets_lists b)
    as (_ & _ & Hcol & _ & Hlen & Hpv & _ & Hsz & _ & Hbd & _).
  destruct (reload_sets_inv b Hbo) as [[Hbo' _] _].
  set (b' := reload_sets b) in *.
  set (n := length (occupied_cells b')).
  assert (Hden : (Z.of_nat (size b') ^ 2 - Z.of_nat (length (whiteCells b')))%Z
                 = Z.of_nat n).
  { pose proof (occupied_count b') as Hc. fold n in Hc.
    pose proof (reload_sets_consistent b) as Hcons. fold b' in Hcons.
    apply Permutation_length in Hcons. rewrite Hcons. fold (census b' white).
    rewrite Z.pow_2_r, <- Nat2Z.inj_mul, <- (board_ok_area b' Hbo'). lia. }
  assert (Hn : 0 < n).
  { assert (Hin : i0 ∈ occupied_cells b').
    { unfold occupied_cells. apply list_elem_of_filter. split.
      - by rewrite Hcol.
      - by rewrite Hbd. }
    subst n. destruct (occupied_cells b'); [by apply elem_of_nil in Hin|simpl; lia]. }
  assert (Hrange : (0 <= sum_pval b' (occupied_cells b')
                    <= inject_Z (Z.of_nat n))%Q).
  { apply sum_pval_range. intros i Hi.
    unfold occupied_cells in Hi. apply list_elem_of_filter in Hi as [_ Hi].
    rewrite Hbd in Hi. rewrite Hpv; [apply fresh_range|done|].
    destruct Hbo as (_ & Hall & _). rewrite Forall_forall in Hall. by apply Hall. }
  assert (Hpos : (0 < inject_Z (Z.of_nat n))%Q) by (unfold Qlt; simpl; lia).
  unfold averagepval. rewrite Hden.
  destruct (Z.of_nat n =? 0)%Z eqn:E; [apply Z.eqb_eq in E; lia|].
  eexists. split; [reflexivity|].
  rewrite add_pval_rows, add_pval_fold. fold (occupied_cells b').
  rewrite Qplus_0_l. destruct Hrange as [H0 H1]. split.
  - apply Qle_shift_div_l; [done|]. by rewrite Qmult_0_l.
  - apply Qle_shift_div_r; [done|]. by rewrite Qmult_1_l.
Qed.

Lemma averagepval_range_witness :
  board_ok board_A
  ∧ (∃ i, i ∈ concat (board board_A) ∧ color_of board_A i ≠ white)
  ∧ ∃ q, averagepval (reload_sets board_A) = (Val q, reload_sets board_A)
         ∧ (0 <= q <= 1)%Q.
Proof.
  assert (H1 : board_ok board_A) by exact (proj1 Inv_board_A).
  assert (H2 : ∃ i, i ∈ concat (board board_A) ∧ color_of board_A i ≠ white).
  { exists 1. split; [by_computation|vm_compute; discriminate]. }
  split; [exact H1|]. split; [exact H2|].
  exact (averagepval_range board_A H1 H2).
Defined.

(** ** What one policy call leaves behind *)

Lemma filter_ext_elem {A} (P Q : A → Prop) `{!∀ x, Decision (P x)}
    `{!∀ x, Decision (Q x)} (l : list A) :
  (∀ x, x ∈ l → P x ↔ Q x) → filter P l = filter Q l.
Proof.
  induction l as [|h t IH]; intros Hext; [done|].
  rewrite !filter_cons.
  rewrite IH by (intros x Hx; apply Hext; by right).
  destruct (Hext h) as [H1 H2]; [left|].
  by repeat case_decide; try done; exfalso; auto.
Qed.

Lemma paint_neigh i c ns j :
  Node.neigh (paint i c ns !!! j) = Node.neigh (ns !!! j).
Proof.
  unfold paint. destruct (decide (i < length ns)) as [Hi|Hi].
  - destruct (decide (j = i)) as [->|Hj].
    + by rewrite list_lookup_total_insert_eq.
    + by rewrite list_lookup_total_insert_ne.
  - by rewrite list_insert_ge by lia.
Qed.

Lemma retype_neigh m e ns j :
  Node.neigh (retype m e ns !!! j) = Node.neigh (ns !!! j).
Proof. unfold retype. by rewrite !paint_neigh. Qed.

Lemma finish_step_cases b :
  (∃ frame,
      to_np_colorcode (reload_sets b) = (Val frame, reload_sets b)
      ∧ finish_step b
        = (Val true,
           set_animationList (animationList b ++ [frame]) (reload_sets b)))
  ∨ finish_step b = (Raise IndexError, reload_sets b).
Proof.
  destruct (reload_sets_lists b)
    as (_ & _ & _ & _ & _ & _ & _ & _ & _ & _ & Hal & _).
  unfold finish_step, snapshot, mbind, M_bind, modify, mret, M_ret.
  unfold to_np_colorcode.
  destruct (mapM _ _) as [frame|]; [left|by right].
  exists frame. split; [done|]. cbn [fst snd]. by rewrite Hal.
Qed.

Lemma to_np_colorcode_frame al frame b :
  to_np_colorcode b = (Val frame, b) →
  to_np_colorcode (set_animationList al b) = (Val frame, set_animationList al b).
Proof.
  unfold to_np_colorcode.
  change (board (set_animationList al b)) with (board b).
  change (size (set_animationList al b)) with (size b).
  change (color_of (set_animationList al b)) with (color_of b).
  destruct (mapM _ _); [|done]. by intros [= ->].
Qed.

Lemma finish_step_frames b :
  wp finish_step
     (λ r b', match r with
              | Val true => ∃ frame, animationList b' = animationList b ++ [frame]
                                     ∧ to_np_colorcode b' = (Val frame, b')
              | _ => animationList b' = animationList b
              end) b.
Proof.
  unfold wp. destruct (finish_step_cases b) as [(frame & Hf & ->)| ->]; simpl.
  - exists frame. split; [done|]. by apply to_np_colorcode_frame.
  - by destruct (reload_sets_lists b)
      as (_ & _ & _ & _ & _ & _ & _ & _ & _ & _ & Hal & _).
Qed.

Lemma finish_step_appends b :
  wp finish_step
     (λ r b', match r with
              | Val true => ∃ frame, animationList b' = animationList b ++ [frame]
              | _ => animationList b' = animationList b
              end) b.
Proof.
  eapply wp_mono; [apply finish_step_frames|]. cbv beta.
  intros [[]|?|] b'; try done. intros (frame & Hal & _). by exists frame.
Qed.

(** The length of the animation list across a policy call. *)
Lemma policy_frames g s a fuel b :
  wp (policy g s a fuel)
     (λ r b', match r with
              | Val true => ∃ frame, animationList b' = animationList b ++ [frame]
              | _ => animationList b' = animationList b
              end) b.
Proof.
  destruct (decide (g = Single)) as [->|Hg].
  - rewrite policy_single.
    pose proof (select_of_ok s a b) as Hok. unfold wp, sel_post in Hok.
    unfold wp, single, mbind, M_bind.
    destruct (select_of s a b) as [[[[m [x|]]|v]|ex|] b1]; cbn [fst snd] in *;
      destruct Hok as [Hs Hr]; try (by destruct Hs).
    + rewrite relocate_Some.
      pose proof (finish_step_appends (set_nodes (retype m x (nodes b1)) b1)) as Hf.
      unfold wp in Hf. cbn [animationList set_nodes] in Hf.
      by rewrite (sh_animationList _ _ Hs) in Hf.
    + subst v. by destruct Hs.
  - rewrite policy_drain by done.
    pose proof (drain_loop_cache g s a fuel b) as Hloop. unfold wp in Hloop.
    unfold wp, drain, mbind, M_bind.
    destruct (drain_loop fuel (body_of g s a) b) as [[[[]|v]|ex|] b1];
      cbn [fst snd] in *; destruct Hloop as (_ & Hal & Hr); try done.
    + pose proof (finish_step_appends b1) as Hf. unfold wp in Hf.
      by rewrite Hal in Hf.
    + by subst v.
Qed.

(** X10. A policy call records an animation frame exactly when it returns
    [True]: one frame is appended then, and it is the colour grid of the
    state the call leaves. A call that returns [False], raises, or exhausts
    its budget leaves the animation list as it was. *)
Theorem frame_per_successful_step (g : granularity) (s : search)
    (a : acceptance) (fuel : nat) (b : Board) :
  let r := (policy g s a fuel b).1 in
  let b' := (policy g s a fuel b).2 in
  match r with
  | Val true => ∃ frame, animationList b' = animationList b ++ [frame]
                         ∧ to_np_colorcode b' = (Val frame, b')
  | _ => animationList b' = animationList b
  end.
Proof.
  cbv zeta. change (wp (policy g s a fuel)
    (λ r b', match r with
             | Val true => ∃ frame, animationList b' = animationList b ++ [frame]
                                    ∧ to_np_colorcode b' = (Val frame, b')
             | _ => animationList b' = animationList b
             end) b).
  destruct (decide (g = Single)) as [->|Hg].
  - rewrite policy_single. unfold single. apply wp_bind.
    eapply wp_mono; [apply select_of_ok|]. cbv beta.
    intros r b1 [Hs Hr].
    destruct r as [[[m e]|v]|ex|]; [| |by destruct Hs..|done].
    + destruct e as [x|].
      * apply wp_bind. unfold wp at 1. rewrite relocate_Some. cbn [fst snd].
        eapply wp_mono; [apply finish_step_frames|]. cbv beta.
        intros r b2. cbn [animationList set_nodes].
        by rewrite (sh_animationList _ _ Hs).
      * apply wp_bind. unfold wp, relocate, raise. cbn [fst snd]. by destruct Hs.
    + subst v. apply wp_ret. by destruct Hs.
  - rewrite policy_drain by done. unfold drain. apply wp_bind.
    eapply wp_mono; [apply drain_loop_cache|]. cbv beta.
    intros r b1 (_ & Hal & Hr).
    destruct r as [[[]|v]|ex|]; [| |done..].
    + eapply wp_mono; [apply finish_step_frames|]. cbv beta.
      intros r b2. by rewrite Hal.
    + subst v. by apply wp_ret.
Qed.

(** X11. A single policy that returns [True] on a well-formed state has
    moved exactly one cell: some unsatisfied cell [m] is now empty, some
    empty cell [e] has taken its colour, no other cell changed colour, no
    adjacency changed, and the two lists are again exactly the empty cells
    and the occupied cells below the bound. *)
Theorem single_step_effect (s : search) (a : acceptance) (fuel : nat)
    (b b' : Board) :
  Inv b →
  policy Single s a fuel b = (Val true, b') →
  ∃ m e, m ∈ unsatisfied b ∧ e ∈ whiteCells b
    ∧ color_of b' m = white
    ∧ color_of b' e = color_of b m
    ∧ (∀ i, i ≠ m → i ≠ e → color_of b' i = color_of b i)
    ∧ (∀ i, Node.neigh (node b' i) = Node.neigh (node b i))
    ∧ board b' = board b
    ∧ whiteCells b' = colored b' white (concat (board b))
    ∧ unsatisfied b'
      = filter (λ i, color_of b' i ≠ white
                     ∧ Qltb (Node.pval (node b' i)) (pbound b) = true)
               (concat (board b)).
Proof.
  intros [Hbo (_ & _ & Hun & Hwh)] Hrun.
  rewrite policy_single in Hrun. unfold single, mbind, M_bind in Hrun.
  pose proof (select_of_ok s a b) as Hsel. unfold wp, sel_post in Hsel.
  destruct (select_of s a b) as [[[[m e]|v]|ex|] b1]; cbn [fst snd] in Hsel;
    [| |done..].
  2: { destruct Hsel as [_ ->]. by inversion Hrun. }
  destruct Hsel as (Hs & Hm & He). destruct e as [x|]; [|by inversion Hrun].
  specialize (He x eq_refl). rewrite (shuffled_white_elem b b1) in He by done.
  rewrite relocate_Some in Hrun.
  set (b2 := set_nodes (retype m x (nodes b1)) b1) in *.
  rewrite Forall_forall in Hun, Hwh.
  destruct (Hun m Hm) as [Hmb Hmc]. destruct (Hwh x He) as [Hxb Hxc].
  assert (Hretype : nodes b2 = retype m x (nodes b)).
  { subst b2. cbn [nodes set_nodes]. by rewrite (sh_nodes _ _ Hs). }
  destruct (retype_effect b b2 m x Hbo Hmb Hxb Hmc Hxc Hretype)
    as (_ & Hcm & Hcx & Hco).
  { subst b2. cbn [board set_nodes]. apply (sh_board _ _ Hs). }
  { subst b2. cbn [size set_nodes]. apply (sh_size _ _ Hs). }
  assert (Hneigh2 : ∀ i, Node.neigh (node b2 i) = Node.neigh (node b i)).
  { intros i. unfold node. rewrite Hretype. apply retype_neigh. }
  assert (Hbd2 : board b2 = board b)
    by (subst b2; cbn [board set_nodes]; apply (sh_board _ _ Hs)).
  assert (Hpb2 : pbound b2 = pbound b)
    by (subst b2; cbn [pbound set_nodes]; apply (sh_pbound _ _ Hs)).
  assert (Hlen2 : length (nodes b2) = length (nodes b))
    by (rewrite Hretype; apply length_retype).
  destruct (reload_sets_lists b2)
    as (Hw & Hu & Hcol & Hng & _ & Hpv & _ & _ & _ & Hbd & _).
  assert (Hb' : ∃ al, b' = set_animationList al (reload_sets b2)).
  { destruct (finish_step_cases b2) as [(frame & _ & Hf)|Hf];
      rewrite Hf in Hrun; [|by inversion Hrun].
    injection Hrun as <-. by eexists. }
  destruct Hb' as [al ->].
  change (color_of (set_animationList al (reload_sets b2)))
    with (color_of (reload_sets b2)).
  change (node (set_animationList al (reload_sets b2)))
    with (node (reload_sets b2)).
  cbn [board whiteCells unsatisfied set_animationList].
  exists m, x. split; [done|]. split; [done|].
  split; [by rewrite Hcol|]. split; [by rewrite Hcol|].
  split; [intros i H1 H2; rewrite Hcol; by apply Hco|].
  split; [intros i; by rewrite Hng|].
  split; [by rewrite Hbd|].
  split.
  - rewrite Hw, Hbd2. apply colored_ext. intros j. symmetry. apply Hcol.
  - rewrite Hu, Hbd2, Hpb2. apply filter_ext_elem. intros i Hi.
    rewrite Hcol. rewrite Hpv; [done|by rewrite Hbd2|].
    rewrite Hlen2. destruct Hbo as (_ & Hall & _).
    rewrite Forall_forall in Hall. by apply Hall.
Qed.

(** ** A second refresh changes nothing *)

Lemma update_ge j b : length (nodes b) ≤ j → (update j b).2 = b.
Proof.
  intros Hj. unfold update. destruct (count_neigh b _) as [r bl].
  destruct (r + bl =? 0); cbn [snd]; apply node_set_node_ge; lia.
Qed.

Lemma update_snd_set_node j b :
  (update j b).2 = set_node j (node (update j b).2 j) b.
Proof.
  destruct (decide (j < length (nodes b))) as [Hj|Hj].
  - unfold update. destruct (count_neigh b _) as [r bl].
    destruct (r + bl =? 0); cbn [snd]; by rewrite node_set_node_eq.
  - rewrite update_ge by lia. by rewrite node_set_node_ge by lia.
Qed.

Lemma update_node_ext b1 b2 j :
  (∀ k, color_of b1 k = color_of b2 k) → node b1 j = node b2 j →
  length (nodes b1) = length (nodes b2) →
  node (update j b1).2 j = node (update j b2).2 j.
Proof.
  intros Hcol Hnode Hlen.
  destruct (decide (j < length (nodes b2))) as [Hj|Hj].
  - unfold update. rewrite Hnode.
    assert (Hcount : count_neigh b1 (elements (Node.neigh (node b2 j)))
                     = count_neigh b2 (elements (Node.neigh (node b2 j)))).
    { rewrite !count_neigh_spec. f_equal; f_equal; by apply colored_ext. }
    rewrite Hcount. destruct (count_neigh b2 _) as [r bl].
    destruct (r + bl =? 0); cbn [snd];
      rewrite !node_set_node_eq by (done || by rewrite Hlen); done.
  - rewrite !update_ge by lia. done.
Qed.

Lemma set_node_commute i j ni nj b :
  i ≠ j → set_node i ni (set_node j nj b) = set_node j nj (set_node i ni b).
Proof.
  intros Hij. unfold set_node, set_nodes. cbn [nodes size pbound white_count
    red_count blue_count unsatisfied whiteCells board animationList stopping
    rng drawn]. f_equal. by apply list_insert_insert_ne.
Qed.

Lemma uptodate_update i j b : uptodate b j → uptodate (update i b).2 j.
Proof.
  unfold uptodate. intros Hj.
  destruct (decide (i = j)) as [->|Hij].
  - by rewrite update_idempotent.
  - rewrite update_snd_set_node.
    rewrite (update_node_ext _ b j);
      [|intros k; apply update_color|by apply update_other|apply update_length].
    pose proof (update_snd_set_node i b) as Hi.
    set (Ni := node (update i b).2 i) in Hi. rewrite Hi.
    rewrite <- set_node_commute by done.
    rewrite <- (update_snd_set_node j b). by rewrite Hj.
Qed.

Lemma scan_node_state w u b i : (scan_node (w, u, b) i).2 = (update i b).2.
Proof.
  unfold scan_node. destruct (update i b) as [pv b1]. cbn [snd].
  destruct (color_of b1 i); [done| |]; by destruct (Qltb pv (pbound b1)).
Qed.

Lemma scan_rows_concat rows acc :
  scan_rows rows acc = foldl scan_node acc (concat rows).
Proof.
  unfold scan_rows. revert acc.
  induction rows as [|row rows IH]; intros acc; [done|].
  simpl. by rewrite foldl_app, IH.
Qed.

Lemma scan_uptodate l w u b :
  let r := foldl scan_node (w, u, b) l in
  (∀ i, i ∈ l → uptodate r.2 i) ∧ (∀ j, uptodate b j → uptodate r.2 j).
Proof.
  revert w u b. induction l as [|h t IH]; intros w u b; cbv zeta.
  - split; [|done]. intros i Hi. by apply elem_of_nil in Hi.
  - change (foldl scan_node (w, u, b) (h :: t))
      with (foldl scan_node (scan_node (w, u, b) h) t).
    pose proof (scan_node_state w u b h) as Hst.
    destruct (scan_node (w, u, b) h) as [[w1 u1] b1]. cbn [snd] in Hst.
    destruct (IH w1 u1 b1) as [Hin Hkeep]. split.
    + intros i Hi. apply elem_of_cons in Hi as [->|Hi]; [|by apply Hin].
      apply Hkeep. rewrite Hst. unfold uptodate. by rewrite update_idempotent.
    + intros j Hj. apply Hkeep. rewrite Hst. by apply uptodate_update.
Qed.

Lemma scan_fixed l w u b :
  (∀ i, i ∈ l → uptodate b i) → (foldl scan_node (w, u, b) l).2 = b.
Proof.
  revert w u. induction l as [|h t IH]; intros w u Hup; [done|].
  change (foldl scan_node (w, u, b) (h :: t))
    with (foldl scan_node (scan_node (w, u, b) h) t).
  pose proof (scan_node_state w u b h) as Hst.
  destruct (scan_node (w, u, b) h) as [[w1 u1] b1]. cbn [snd] in Hst.
  assert (b1 = b) as -> by (rewrite Hst; apply Hup; left).
  apply IH. intros i Hi. apply Hup. by right.
Qed.

Lemma reload_sets_unfold b :
  reload_sets b
  = set_whiteCells (whiteCells (reload_sets b))
      (set_unsatisfied (unsatisfied (reload_sets b))
         (scan_rows (board b) ([], [], b)).2).
Proof. unfold reload_sets. by destruct (scan_rows _ _) as [[w u] b1]. Qed.

Lemma set_lists_id b :
  set_whiteCells (whiteCells b) (set_unsatisfied (unsatisfied b) b) = b.
Proof. by destruct b. Qed.

Lemma uptodate_set_lists w u b i :
  uptodate b i → uptodate (set_whiteCells w (set_unsatisfied u b)) i.
Proof.
  unfold uptodate. intros Hi.
  assert (Hupd : (update i (set_whiteCells w (set_unsatisfied u b))).2
                 = set_whiteCells w (set_unsatisfied u (update i b).2)).
  { unfold update.
    change (node (set_whiteCells w (set_unsatisfied u b)) i) with (node b i).
    change (count_neigh (set_whiteCells w (set_unsatisfied u b)))
      with (count_neigh b).
    destruct (count_neigh b _) as [r bl]. by destruct (r + bl =? 0). }
  by rewrite Hupd, Hi.
Qed.

(** X12. [reload_sets] is idempotent: a second scan right after the first
    leaves every cached value, both lists and the rest of the state exactly
    as the first scan left them. *)
Theorem reload_sets_idempotent (b : Board) :
  reload_sets (reload_sets b) = reload_sets b.
Proof.
  assert (Hup : ∀ i, i ∈ concat (board b) → uptodate (reload_sets b) i).
  { intros i Hi. rewrite reload_sets_unfold. apply uptodate_set_lists.
    rewrite scan_rows_concat.
    exact (proj1 (scan_uptodate (concat (board b)) [] [] b) i Hi). }
  destruct (reload_sets_lists b)
    as (Hw & Hu & Hcol & Hng & _ & _ & _ & _ & Hpb & Hbd & _).
  destruct (reload_sets_lists (reload_sets b)) as (Hw' & Hu' & _).
  set (b' := reload_sets b) in *.
  rewrite (reload_sets_unfold b').
  rewrite scan_rows_concat, scan_fixed by (by rewrite Hbd).
  assert (whiteCells (reload_sets b') = whiteCells b') as ->.
  { rewrite Hw', Hw, Hbd. by apply colored_ext. }
  assert (unsatisfied (reload_sets b') = unsatisfied b') as ->.
  { rewrite Hu', Hu, Hbd, Hpb. apply list_filter_iff. intros i.
    rewrite Hcol. by rewrite (fresh_ext b' b). }
  apply set_lists_id.
Qed.

(** ** The policies that cannot fail *)

Lemma select_total s a b :
  a ≠ SatisfyStop → unsatisfied b ≠ [] → whiteCells b ≠ [] →
  wp (select_of s a)
     (λ r b', match r with
              | Val (inl (m, e)) => is_Some e
              | Val (inr v) => s = Closest
              | _ => False
              end) b.
Proof.
  intros Ha Hu Hw. destruct s, a; try done; simpl.
  - unfold select_random.
    wp_sample_nonempty m b1 Hs1 Hu.
    assert (Hw1 : whiteCells b1 ≠ []) by (by eapply shuffled_white_nonempty).
    wp_sample_nonempty e b2 Hs2 Hw1.
    by apply wp_ret.
  - unfold select_randomSat_cont.
    wp_sample_nonempty m b1 Hs1 Hu. wp_shuffle shuffle_whiteCells_wp b2 Hs2.
    apply wp_bind, wp_gets. apply wp_bind, wp_gets.
    destruct (find_satisfying _ b2); [by apply wp_ret|].
    assert (Hw2 : whiteCells b2 ≠ []) by eauto using shuffled_white_nonempty.
    wp_sample_nonempty e b3 Hs3 Hw2. by apply wp_ret.
  - unfold select_closest.
    wp_sample_nonempty m b1 Hs1 Hu. wp_shuffle sort_whiteCells_wp b2 Hs2.
    assert (Hw2 : whiteCells b2 ≠ []) by eauto using shuffled_white_nonempty.
    apply wp_bind. eapply wp_mono; [apply whiteCells_0_wp|]. cbv beta.
    intros [e|e|] ? [-> He]; [|by destruct He|done].
    apply wp_bind, wp_gets. destruct (below_stopping b2); by apply wp_ret.
  - unfold select_closestSat_cont.
    wp_sample_nonempty m b1 Hs1 Hu. wp_shuffle sort_whiteCells_wp b2 Hs2.
    assert (Hw2 : whiteCells b2 ≠ []) by eauto using shuffled_white_nonempty.
    apply wp_bind, wp_gets. apply wp_bind, wp_gets.
    destruct (below_stopping b2); [by apply wp_ret|].
    apply wp_bind, wp_gets.
    destruct (find_satisfying _ b2); [by apply wp_ret|].
    apply wp_bind. eapply wp_mono; [apply whiteCells_0_wp|]. cbv beta.
    intros [e|e|] ? [-> He]; [|by destruct He|done].
    by apply wp_ret.
Qed.

Lemma both_nonempty_true b :
  both_nonempty b = true → unsatisfied b ≠ [] ∧ whiteCells b ≠ [].
Proof. unfold both_nonempty. by destruct (unsatisfied b), (whiteCells b). Qed.

Lemma body_total g s a b :
  a ≠ SatisfyStop → both_nonempty b = true →
  wp (body_of g s a)
     (λ r b', match r with
              | Val (Next _) => moved (giveback g) b b'
              | Val (Return v) => v = false ∧ s = Closest ∧ halted b b'
              | _ => False
              end) b.
Proof.
  intros Ha Hne. apply both_nonempty_true in Hne as [Hu Hw].
  pose proof (body_of_wp g s a b) as Hwp.
  pose proof (select_total s a b Ha Hu Hw) as Htot.
  pose proof (select_of_ok s a b) as Hok.
  unfold wp, sel_post in *. unfold body_of, micro_move, mbind, M_bind in *.
  destruct (select_of s a b) as [[[[m e]|v]|ex|] b1]; cbn [fst snd] in *;
    [| |done..].
  - destruct Htot as [x ->]. destruct Hok as (Hsh & Hm & He).
    destruct (remove_first_elem m (unsatisfied b1)) as [ul Hul];
      [by rewrite (sh_unsatisfied _ _ Hsh)|].
    destruct (remove_first_elem x (whiteCells b1)) as [wl Hwl]; [by apply He|].
    destruct (bookkeeping_Some (giveback g) _ m x ul wl b1
                (bookkeeping_of_ok s a _) Hul Hwl) as (b2 & Hrun & _).
    rewrite Hrun in *. rewrite relocate_Some in *. exact Hwp.
  - unfold mret, M_ret in *. cbn [fst snd] in *. by destruct Hwp.
Qed.

Lemma drain_loop_total g s a fuel b :
  a ≠ SatisfyStop → length (unsatisfied b) ≤ fuel →
  wp (drain_loop fuel (body_of g s a))
     (λ r b', board b' = board b ∧ size b' = size b
              ∧ match r with
                | Val (inl _) => True
                | Val (inr v) => v = false ∧ s = Closest
                | _ => False
                end) b.
Proof.
  intros Ha. revert b. induction fuel as [|k IH]; intros b Hlen.
  - unfold drain_loop, wp. simpl. destruct (both_nonempty b) eqn:E; [|done].
    apply both_nonempty_true in E as [Hu _].
    destruct (unsatisfied b); [done|simpl in Hlen; lia].
  - unfold drain_loop, wp. rewrite while_S.
    destruct (both_nonempty b) eqn:E; [|done].
    pose proof (body_total g s a b Ha E) as Hb. unfold wp in Hb.
    destruct (body_of g s a b) as [[[[]|[]|v]|ex|] b1]; cbn [fst snd] in *;
      try done.
    + destruct (moved_lengths _ _ _ Hb) as [Hl _].
      assert (Hk : length (unsatisfied b1) ≤ k) by lia.
      specialize (IH b1 Hk). unfold wp, drain_loop in IH.
      destruct Hb as [? ? ? ? _ _ _ _ _ _ (Hbd & Hsz & _)].
      destruct IH as (Hbd' & Hsz' & Hr).
      split; [congruence|]. split; [congruence|done].
    + destruct Hb as (-> & -> & _ & _ & _ & (Hbd & Hsz & _)). done.
Qed.

Lemma finish_step_square b :
  length (board b) = size b →
  Forall (λ row : list nat, length row = size b) (board b) →
  (finish_step b).1 = Val true.
Proof.
  intros Hlen Hrows.
  destruct (reload_sets_lists b)
    as (_ & _ & _ & _ & _ & _ & _ & Hsz & _ & Hbd & _).
  rewrite <- Hbd, <- Hsz in Hlen, Hrows.
  pose proof (grid_mapM (λ n, colorcode (color_of (reload_sets b) n)) _ _
                Hlen Hrows) as H. cbv beta in H.
  unfold finish_step, snapshot, mbind, M_bind, modify, to_np_colorcode.
  by rewrite H.
Qed.

(** X13. The policies without the satisfy-stop rule cannot fail on a
    square board: a drain policy with a budget of at least the number of
    unsatisfied cells, and a single policy called with both lists non-empty,
    returns a value and never raises; with random search the value is
    [True]. *)
Theorem plain_and_continue_never_raise (g : granularity) (s : search)
    (a : acceptance) (fuel : nat) (b : Board) :
  a ≠ SatisfyStop →
  length (board b) = size b →
  Forall (λ row : list nat, length row = size b) (board b) →
  (g = Single → unsatisfied b ≠ [] ∧ whiteCells b ≠ []) →
  (g ≠ Single → length (unsatisfied b) ≤ fuel) →
  ∃ v, (policy g s a fuel b).1 = Val v ∧ (s = Random → v = true).
Proof.
  intros Ha Hlen Hrows Hsingle Hdrain.
  destruct (decide (g = Single)) as [->|Hg].
  - destruct (Hsingle eq_refl) as [Hu Hw].
    pose proof (select_total s a b Ha Hu Hw) as Htot.
    pose proof (select_of_ok s a b) as Hok.
    rewrite policy_single. unfold wp, sel_post in *.
    unfold single, mbind, M_bind.
    destruct (select_of s a b) as [[[[m e]|v]|ex|] b1]; cbn [fst snd] in *;
      [| |done..].
    + destruct Htot as [x ->]. destruct Hok as (Hsh & _).
      rewrite relocate_Some. exists true. split; [|done].
      apply finish_step_square; cbn [board size set_nodes].
      * by rewrite (sh_board _ _ Hsh), (sh_size _ _ Hsh).
      * by rewrite (sh_board _ _ Hsh), (sh_size _ _ Hsh).
    + exists v. split; [done|]. intros ->. done.
  - rewrite policy_drain by done.
    pose proof (drain_loop_total g s a fuel b Ha (Hdrain Hg)) as Hloop.
    unfold wp in Hloop. unfold drain, mbind, M_bind.
    destruct (drain_loop fuel (body_of g s a) b) as [[[[]|v]|ex|] b1];
      cbn [fst snd] in *; destruct Hloop as (Hbd & Hsz & Hr); [| |done..].
    + exists true. split; [|done].
      apply finish_step_square; by rewrite Hbd, Hsz.
    + destruct Hr as [-> ->]. exists false. split; [done|]. intros H. discriminate H.
Qed.

Lemma plain_and_continue_never_raise_witness :
  Plain ≠ SatisfyStop
  ∧ length (board board_B) = size board_B
  ∧ Forall (λ row : list nat, length row = size board_B) (board board_B)
  ∧ length (unsatisfied board_B) ≤ 3
  ∧ ∃ v, (policy Batch Random Plain 3 board_B).1 = Val v ∧ (Random = Random → v = true).
Proof.
  assert (H1 : Plain ≠ SatisfyStop) by discriminate.
  assert (H2 : length (board board_B) = size board_B) by (vm_compute; reflexivity).
  assert (H3 : Forall (λ row : list nat, length row = size board_B)
                 (board board_B)) by by_computation.
  assert (H4 : length (unsatisfied board_B) ≤ 3) by (vm_compute; lia).
  split; [exact H1|]. split; [exact H2|]. split; [exact H3|]. split; [exact H4|].
  refine (plain_and_continue_never_raise Batch Random Plain 3 board_B
            H1 H2 H3 _ (λ _, H4)).
  intros H. discriminate H.
Defined.

(** ** The driver and the animation list *)

Lemma while_done {L R} fuel (cond : L → Board → bool)
    (body : L → M (flow L R)) l b :
  cond l b = false → while_ fuel cond body l b = (Val (inl l), b).
Proof. intros H. destruct fuel; simpl; by rewrite H. Qed.

Lemma run_loop_frames stepfunction iters fuel l b :
  (∀ b0, wp stepfunction
           (λ r b', match r with
                    | Val true => ∃ frame,
                        animationList b' = animationList b0 ++ [frame]
                    | _ => animationList b' = animationList b0
                    end) b0) →
  l.2 = true →
  let r := while_ fuel (λ l _, (Z.of_nat l.1 <? iters)%Z && l.2)
             (run_body stepfunction) l b in
  match r.1 with
  | Val (inl l') =>
      ∃ frames, animationList r.2 = animationList b ++ frames
        ∧ l'.1 = l.1 + length frames + (if l'.2 then 0 else 1)
        ∧ ((Z.of_nat l'.1 < iters)%Z → l'.2 = true → unsatisfied r.2 = [])
  | Val (inr _) => False
  | _ => True
  end.
Proof.
  intros Hstep. revert l b. induction fuel as [|k IH]; intros [i running] b Hl;
    cbn [fst snd] in Hl; subst running; cbv zeta.
  - simpl. destruct (Z.of_nat i <? iters)%Z eqn:E; simpl; [done|].
    exists []. rewrite app_nil_r. split; [done|]. split; [simpl; lia|].
    apply Z.ltb_ge in E. lia.
  - rewrite while_S. cbn [fst snd].
    destruct (Z.of_nat i <? iters)%Z eqn:E; cbn [andb fst snd].
    2: { exists []. rewrite app_nil_r. split; [done|]. split; [simpl; lia|].
         apply Z.ltb_ge in E. simpl. lia. }
    unfold run_body, mbind, M_bind, gets. cbn [fst snd].
    destruct (unsatisfied b) as [|u us] eqn:Eu.
    { unfold mret, M_ret. cbn [fst snd]. exists []. rewrite app_nil_r.
      split; [done|]. split; [simpl; lia|done]. }
    specialize (Hstep b). unfold wp in Hstep.
    destruct (stepfunction b) as [[v|ex|] b1]; cbn [fst snd] in *; [|done..].
    unfold mret, M_ret. destruct v.
    + destruct Hstep as [frame Hal].
      specialize (IH (S i, true) b1 eq_refl). cbv zeta in IH.
      destruct (while_ k _ _ (S i, true) b1) as [[[l'|?]|?|] b2];
        cbn [fst snd] in *; try done.
      destruct IH as (frames & Hal2 & Hcount & Hconv).
      exists (frame :: frames). split.
      * rewrite Hal2, Hal. by rewrite <- app_assoc.
      * split; [simpl; lia|done].
    + rewrite while_done by (cbn [fst snd]; apply andb_false_r).
      cbn [fst snd]. exists []. rewrite app_nil_r. split; [done|].
      split; [simpl; lia|done].
Qed.

(** X14. When [run] returns [n], the animation list has grown by [n]
    frames, or by [n - 1] when the last policy call returned [False];
    the frames already present are kept. If [n] is below [iters], then
    the run ended because no cell is unsatisfied any more or because that
    last call returned [False]. *)
Theorem run_frames (fuel : nat) (iters : Z) (name : string) (b b' : Board)
    (n : nat) :
  run fuel iters name b = (Val n, b') →
  ∃ frames, animationList b' = animationList b ++ frames
    ∧ (n = length frames ∨ n = length frames + 1)
    ∧ ((Z.of_nat n < iters)%Z →
         unsatisfied b' = [] ∨ n = length frames + 1).
Proof.
  unfold run. intros Hrun.
  destruct (algoDict fuel !! name) as [stepfunction|] eqn:Ealg;
    [|by inversion Hrun].
  apply algoDict_Some in Ealg as (g & s & a & _ & ->).
  assert (Hstep : ∀ b0, wp (policy g s a fuel)
            (λ r b', match r with
                     | Val true => ∃ frame,
                         animationList b' = animationList b0 ++ [frame]
                     | _ => animationList b' = animationList b0
                     end) b0).
  { intros b0. apply policy_frames. }
  pose proof (run_loop_frames (policy g s a fuel) iters fuel (0, true) b
                Hstep eq_refl) as Hloop.
  cbv zeta in Hloop. unfold mbind, M_bind in Hrun.
  destruct (while_ fuel _ _ (0, true) b) as [[[l'|?]|?|] b2];
    cbn [fst snd] in *; try done.
  destruct Hloop as (frames & Hal & Hcount & Hconv).
  unfold mret, M_ret in Hrun. injection Hrun as <- <-.
  exists frames. split; [done|].
  destruct l' as [i running]. cbn [fst snd] in *. destruct running.
  - split; [left; lia|]. intros Hlt. left. by apply Hconv.
  - split; [right; lia|]. intros _. right. lia.
Qed.

Lemma run_frames_witness :
  run 3 5 "whitebatchClosest" board_B
  = (Val 1, (run 3 5 "whitebatchClosest" board_B).2)
  ∧ ∃ frames,
      animationList (run 3 5 "whitebatchClosest" board_B).2
      = animationList board_B ++ frames
      ∧ (1 = length frames ∨ 1 = length frames + 1).
Proof.
  assert (H : run 3 5 "whitebatchClosest" board_B
              = (Val 1, (run 3 5 "whitebatchClosest" board_B).2)) by by_run.
  split; [exact H|].
  destruct (run_frames 3 5%Z "whitebatchClosest" board_B _ 1 H)
    as (frames & Hal & Hn & _).
  exists frames. split; [exact Hal|exact Hn].
Defined.

(** ** A board without empty cells *)

Lemma finish_step_colors b : ∀ j, color_of (finish_step b).2 j = color_of b j.
Proof.
  intros j.
  destruct (reload_sets_lists b) as (_ & _ & Hcol & _).
  destruct (finish_step_cases b) as [(frame & _ & ->)| ->]; apply Hcol.
Qed.

(** X15. With no empty cell nobody can move: whatever the policy, the call
    leaves every colour in place; a single policy then never returns
    [True]. *)
Theorem full_board_frozen (g : granularity) (s : search) (a : acceptance)
    (fuel : nat) (b : Board) :
  whiteCells b = [] →
  (∀ j, color_of (policy g s a fuel b).2 j = color_of b j)
  ∧ (g = Single → (policy g s a fuel b).1 ≠ Val true).
Proof.
  intros Hw. destruct (decide (g = Single)) as [->|Hg].
  - rewrite policy_single.
    pose proof (select_of_ok s a b) as Hok. unfold wp, sel_post in Hok.
    unfold single, mbind, M_bind.
    destruct (select_of s a b) as [[[[m e]|v]|ex|] b1]; cbn [fst snd] in *.
    + destruct Hok as (Hsh & _ & He). destruct e as [x|].
      * exfalso. specialize (He x eq_refl).
        rewrite (shuffled_white_nil b b1 Hsh Hw) in He. by apply elem_of_nil in He.
      * cbn [relocate raise fst snd]. split; [|done].
        intros j. by apply shuffled_color.
    + destruct Hok as [Hsh ->]. split; [|done]. intros j. by apply shuffled_color.
    + destruct Hok as [Hsh _]. split; [|done]. intros j. by apply shuffled_color.
    + by destruct Hok.
  - split; [|done]. rewrite policy_drain by done.
    unfold drain, drain_loop, mbind, M_bind.
    rewrite while_done by (unfold both_nonempty; rewrite Hw; by destruct (unsatisfied b)).
    apply finish_step_colors.
Qed.

Lemma full_board_frozen_witness :
  whiteCells board_C = []
  ∧ (∀ j, color_of (policy Batch Closest Plain 4 board_C).2 j = color_of board_C j)
  ∧ (policy Single Random Plain 0 board_C).1 ≠ Val true.
Proof.
  assert (H : whiteCells board_C = []) by (vm_compute; reflexivity).
  split; [exact H|]. split.
  - exact (proj1 (full_board_frozen Batch Closest Plain 4 board_C H)).
  - exact (proj2 (full_board_frozen Single Random Plain 0 board_C H) eq_refl).
Defined.

(** ** Bounds that nobody or everybody meets *)

Lemma Qltb_lt p q : Qltb p q = true ↔ (p < q)%Q.
Proof.
  unfold Qltb. rewrite negb_true_iff. split.
  - intros H. apply Qnot_le_lt. intros Hle. apply Qle_bool_iff in Hle. congruence.
  - intros H. destruct (Qle_bool q p) eqn:E; [|done].
    apply Qle_bool_iff in E. by apply Qlt_not_le in H.
Qed.

Lemma filter_none {A} (P : A → Prop) `{!∀ x, Decision (P x)} (l : list A) :
  (∀ x, x ∈ l → ¬ P x) → filter P l = [].
Proof.
  induction l as [|h t IH]; intros Hno; [done|].
  rewrite filter_cons_False by (apply Hno; left).
  apply IH. intros x Hx. apply Hno. by right.
Qed.

(** X16. After [reload_sets], a bound of 0 or less leaves the unsatisfied
    list empty, and a bound above 1 puts every occupied cell of the board
    on it. *)
Theorem reload_sets_extreme_bounds (b : Board) :
  ((pbound b <= 0)%Q → unsatisfied (reload_sets b) = [])
  ∧ ((1 < pbound b)%Q → unsatisfied (reload_sets b) = occupied_cells b).
Proof.
  destruct (reload_sets_lists b) as (_ & -> & _).
  split; intros Hp.
  - apply filter_none. intros i _ [_ Hlt]. apply Qltb_lt in Hlt.
    destruct (fresh_range b i) as [H0 _].
    apply (Qlt_not_le _ _ Hlt). by apply (Qle_trans _ 0).
  - unfold occupied_cells. apply list_filter_iff. intros i. split; [by intros []|].
    intros Hc. split; [done|]. apply Qltb_lt.
    destruct (fresh_range b i) as [_ H1]. by apply (Qle_lt_trans _ 1).
Qed.

Lemma reload_sets_extreme_bounds_witness :
  (pbound board_E <= 0)%Q ∧ unsatisfied (reload_sets board_E) = [].
Proof.
  assert (H : (pbound board_E <= 0)%Q) by (vm_compute; discriminate).
  split; [exact H|]. exact (proj1 (reload_sets_extreme_bounds board_E) H).
Defined.

(** ** Board.animate: the frames of the default stride *)

Lemma slice_step_pos {A} `{Inhabited A} (k : Z) (l : list A) :
  (0 < k)%Z →
  slice_step k l
  = (λ i, l !!! (i * Z.to_nat k))
    <$> seq 0 (Z.to_nat ((Z.of_nat (length l) + k - 1) / k)).
Proof.
  intros Hk. unfold slice_step. rewrite Z.abs_eq by lia.
  apply list_fmap_ext. intros i x _.
  by destruct (0 <? k)%Z eqn:E; [|apply Z.ltb_ge in E; lia].
Qed.

Lemma default_stride_count (n T : Z) :
  (0 < T)%Z → (0 < n)%Z →
  let k := (n / T + 1)%Z in
  let count := ((n + k - 1) / k)%Z in
  (0 < k)%Z ∧ (1 <= count <= T)%Z ∧ ((count - 1) * k < n)%Z.
Proof.
  intros HT Hn k count.
  assert (Hq : (0 <= n / T)%Z) by (apply Z.div_pos; lia).
  assert (Hk : (0 < k)%Z) by (subst k; lia).
  pose proof (Z.div_mod n T ltac:(lia)) as Hdm.
  pose proof (Z.mod_pos_bound n T HT) as Hm.
  assert (HkT : (n < k * T)%Z) by (subst k; nia).
  pose proof (Z.mul_div_le (n + k - 1) k Hk) as Hle. fold count in Hle.
  split; [done|]. split; [split|].
  - subst count. apply Z.div_le_lower_bound; lia.
  - assert (count < T + 1)%Z; [|lia].
    subst count. apply Z.div_lt_upper_bound; [done|]. nia.
  - nia.
Qed.

(** X17. With the default stride, a positive [total_frames] and at least
    one recorded snapshot, the frames [animate] plays are computed without
    an error and without changing the state: they start with the first
    snapshot, end with the last one, are all taken from the animation list,
    and there are at most [total_frames + 1] of them. *)
Theorem animate_default_stride (total_frames : Z) (b : Board)
    (first : list (list Z)) (rest : list (list (list Z))) :
  (0 < total_frames)%Z →
  animationList b = first :: rest →
  ∃ frames,
    animate_frames total_frames None b = (Val frames, b)
    ∧ head frames = Some first
    ∧ last frames = last (animationList b)
    ∧ (Z.of_nat (length frames) <= total_frames + 1)%Z
    ∧ ∀ f, f ∈ frames → f ∈ animationList b.
Proof.
  intros HT Hal. unfold animate_frames. rewrite Hal.
  set (l := first :: rest).
  assert (Hn : (0 < Z.of_nat (length l))%Z) by (subst l; simpl; lia).
  destruct (default_stride_count _ _ HT Hn) as (Hk & [Hc1 HcT] & Hlast).
  set (k := (Z.of_nat (length l) / total_frames + 1)%Z) in *.
  set (count := ((Z.of_nat (length l) + k - 1) / k)%Z) in *.
  destruct (total_frames =? 0)%Z eqn:E0; [apply Z.eqb_eq in E0; lia|].
  destruct (k =? 0)%Z eqn:Ek; [apply Z.eqb_eq in Ek; lia|].
  eexists. split; [reflexivity|].
  rewrite slice_step_pos by done. fold count.
  assert (Hcount : Z.to_nat count = S (Z.to_nat count - 1)) by lia.
  split; [|split; [|split]].
  - rewrite Hcount. done.
  - rewrite last_snoc. rewrite last_lookup, <- Nat.sub_1_r.
    symmetry. apply list_lookup_lookup_total_lt. subst l. simpl. lia.
  - rewrite length_app, length_fmap, length_seq. simpl. lia.
  - intros f Hf. apply elem_of_app in Hf as [Hf|Hf].
    + apply list_elem_of_fmap in Hf as (i & -> & Hi).
      apply elem_of_seq in Hi. apply list_elem_of_lookup_total_2.
      apply Nat2Z.inj_lt. rewrite Nat2Z.inj_mul, Z2Nat.id by lia. nia.
    + apply list_elem_of_singleton in Hf as ->.
      apply list_elem_of_lookup_total_2. subst l. simpl. lia.
Qed.

Lemma animate_default_stride_witness :
  (0 < 200)%Z
  ∧ animationList (policy Single Random Plain 0 board_B).2
    = [[[100; 0]; [-100; -100]]%Z]
  ∧ ∃ frames,
      animate_frames 200 None (policy Single Random Plain 0 board_B).2
      = (Val frames, (policy Single Random Plain 0 board_B).2)
      ∧ (Z.of_nat (length frames) <= 200 + 1)%Z.
Proof.
  assert (H1 : (0 < 200)%Z) by lia.
  assert (H2 : animationList (policy Single Random Plain 0 board_B).2
               = [[[100; 0]; [-100; -100]]%Z]) by (vm_compute; reflexivity).
  split; [exact H1|]. split; [exact H2|].
  destruct (animate_default_stride 200 _ _ _ H1 H2) as (frames & Hrun & _ & _ & Hlen & _).
  exists frames. split; [exact Hrun|exact Hlen].
Defined.

(** ** bind_nodes *)

Lemma label_set_node i n b j :
  label n = label (node b i) → label (node (set_node i n b) j) = label (node b j).
Proof.
  intros H.
  destruct (decide (i = j)) as [<-|Hne]; [|by rewrite node_set_node_ne].
  destruct (decide (i < length (nodes b))).
  - by rewrite node_set_node_eq.
  - by rewrite node_set_node_ge by lia.
Qed.

Lemma update_label i b j : label (node (update i b).2 j) = label (node b j).
Proof.
  unfold update. destruct (count_neigh b _) as [r bl].
  destruct (r + bl =? 0); cbn [snd]; by apply label_set_node.
Qed.

Lemma update_outside i b : outside_arena (update i b).2 = outside_arena b.
Proof.
  unfold update. destruct (count_neigh b _) as [r bl].
  by destruct (r + bl =? 0).
Qed.

Lemma neigh_add_label n1 n2 b j :
  label (node (neigh_add n1 n2 b) j) = label (node b j).
Proof. unfold neigh_add. by apply label_set_node. Qed.

Lemma neigh_add_length n1 n2 b :
  length (nodes (neigh_add n1 n2 b)) = length (nodes b).
Proof. apply length_nodes_set_node. Qed.

Lemma neigh_add_neigh n1 n2 b j :
  n1 < length (nodes b) →
  Node.neigh (node (neigh_add n1 n2 b) j)
  = if decide (j = n1) then Node.neigh (node b n1) ∪ {[n2]}
    else Node.neigh (node b j).
Proof.
  intros H1. unfold neigh_add. case_decide as Hj.
  - subst j. by rewrite node_set_node_eq.
  - by rewrite node_set_node_ne.
Qed.

Lemma neigh_add_other n1 n2 b j : j ≠ n1 → node (neigh_add n1 n2 b) j = node b j.
Proof. intros H. unfold neigh_add. by rewrite node_set_node_ne. Qed.

Lemma color_of_label b b' j :
  label (node b' j) = label (node b j) → color_of b' j = color_of b j.
Proof. unfold label, color_of. congruence. Qed.

(** X18. [bind_nodes] on two allocated nodes does not raise; afterwards
    each of the two has the other among its neighbours and otherwise the
    neighbours it had, every other node is untouched, no colour changed, and
    the cached values of both nodes are current. *)
Theorem bind_nodes_spec (n1 n2 : nat) (b : Board) :
  n1 < length (nodes b) → n2 < length (nodes b) →
  let b' := (bind_nodes n1 n2 b).2 in
  (bind_nodes n1 n2 b).1 = Val tt
  ∧ Node.neigh (node b' n1) = Node.neigh (node b n1) ∪ {[n2]}
  ∧ Node.neigh (node b' n2) = Node.neigh (node b n2) ∪ {[n1]}
  ∧ (∀ j, j ≠ n1 → j ≠ n2 → node b' j = node b j)
  ∧ (∀ j, color_of b' j = color_of b j)
  ∧ uptodate b' n1 ∧ uptodate b' n2.
Proof.
  intros H1 H2. cbv zeta.
  unfold bind_nodes, mbind, M_bind, modify. cbn [fst snd].
  set (b1 := neigh_add n1 n2 b). set (b2 := neigh_add n2 n1 b1).
  set (b3 := (update n1 b2).2).
  assert (Hl1 : n2 < length (nodes b1)) by (unfold b1; by rewrite neigh_add_length).
  split; [done|]. split; [|split; [|split; [|split; [|split]]]].
  - unfold b3, b2, b1. rewrite !update_neigh.
    rewrite !neigh_add_neigh by (rewrite ?neigh_add_length; done).
    repeat case_decide; subst; try done.
    apply set_eq. intros x. rewrite !elem_of_union. tauto.
  - unfold b3, b2, b1. rewrite !update_neigh.
    rewrite !neigh_add_neigh by (rewrite ?neigh_add_length; done).
    repeat case_decide; subst; try done.
    apply set_eq. intros x. rewrite !elem_of_union. tauto.
  - intros j Hj1 Hj2. unfold b3, b2, b1. rewrite !update_other by done.
    by rewrite !neigh_add_other.
  - intros j. unfold b3, b2, b1. rewrite !update_color. apply color_of_label.
    by rewrite !neigh_add_label.
  - apply uptodate_update. unfold uptodate, b3. by rewrite update_idempotent.
  - unfold uptodate. by rewrite update_idempotent.
Qed.

Lemma bind_nodes_spec_witness :
  0 < length (nodes board_A) ∧ 3 < length (nodes board_A)
  ∧ (bind_nodes 0 3 board_A).1 = Val tt
  ∧ Node.neigh (node (bind_nodes 0 3 board_A).2 0)
    = Node.neigh (node board_A 0) ∪ {[3]}.
Proof.
  assert (H1 : 0 < length (nodes board_A)) by (vm_compute; lia).
  assert (H2 : 3 < length (nodes board_A)) by (vm_compute; lia).
  split; [exact H1|]. split; [exact H2|].
  destruct (bind_nodes_spec 0 3 board_A H1 H2) as (Hv & Hn & _).
  split; [exact Hv|exact Hn].
Defined.

(** ** Node.color_and_update *)

Lemma refresh_neighbors_spec pb l acc b :
  let r := foldl (refresh_neighbor pb) (acc, b) l in
  r.1 = acc ++ filter (λ n, color_of b n ≠ white ∧ Qltb (fresh b n) pb = true) l
  ∧ (∀ j, color_of r.2 j = color_of b j)
  ∧ (∀ j, Node.neigh (node r.2 j) = Node.neigh (node b j))
  ∧ length (nodes r.2) = length (nodes b)
  ∧ (∀ j, uptodate b j → uptodate r.2 j)
  ∧ (∀ j, j ∈ l → uptodate r.2 j)
  ∧ (∀ j, j ∉ l → node r.2 j = node b j).
Proof.
  revert acc b. induction l as [|h t IH]; intros acc b; cbv zeta.
  - simpl. rewrite app_nil_r. repeat split; try done.
    intros j Hj. by apply elem_of_nil in Hj.
  - change (foldl (refresh_neighbor pb) (acc, b) (h :: t))
      with (foldl (refresh_neighbor pb) (refresh_neighbor pb (acc, b) h) t).
    assert (Hstep : ∃ acc1,
      refresh_neighbor pb (acc, b) h = (acc1, (update h b).2)
      ∧ acc1 = acc ++ filter (λ n, color_of b n ≠ white
                                   ∧ Qltb (fresh b n) pb = true) [h]).
    { unfold refresh_neighbor.
      pose proof (update_color h b h) as Hc.
      destruct (update h b) as [pv b1] eqn:Eu. cbn [fst snd] in *.
      assert (Hpv : pv = fresh b h) by (unfold fresh; by rewrite Eu).
      rewrite filter_cons, filter_nil. rewrite Hc, Hpv.
      destruct (Qltb (fresh b h) pb) eqn:Eq; cbn [andb].
      - destruct (decide (color_of b h ≠ white)) as [Hw|Hw].
        + rewrite bool_decide_eq_true_2 by done. eexists. split; [reflexivity|].
          by rewrite decide_True.
        + rewrite bool_decide_eq_false_2 by done. eexists. split; [reflexivity|].
          rewrite decide_False by tauto. by rewrite app_nil_r.
      - eexists. split; [reflexivity|].
        rewrite decide_False by (intros [_ ?]; done). by rewrite app_nil_r. }
    destruct Hstep as (acc1 & -> & ->).
    destruct (IH (acc ++ filter (λ n, color_of b n ≠ white
                                    ∧ Qltb (fresh b n) pb = true) [h])
                 (update h b).2) as (Hl & Hc & Hn & Hlen & Hup & Hin & Hout).
    set (r := foldl _ _ t) in *.
    split; [|split; [|split; [|split; [|split; [|split]]]]].
    + rewrite Hl, <- app_assoc. f_equal.
      change (h :: t) with ([h] ++ t). rewrite filter_app. f_equal.
      apply list_filter_iff. intros n.
      rewrite update_color. by rewrite fresh_update.
    + intros j. by rewrite Hc, update_color.
    + intros j. by rewrite Hn, update_neigh.
    + by rewrite Hlen, update_length.
    + intros j Hj. by apply Hup, uptodate_update.
    + intros j Hj. apply elem_of_cons in Hj as [->|Hj]; [|by apply Hin].
      apply Hup. unfold uptodate. by rewrite update_idempotent.
    + intros j Hj. apply not_elem_of_cons in Hj as [Hjh Hjt].
      rewrite Hout by done. by apply update_other.
Qed.

(** X19. [color_and_update] gives the cell its new colour and changes no
    other colour and no adjacency. It returns, in the iteration order of the
    neighbour set and with the cell itself last, exactly those of the
    neighbours and the cell that are occupied and whose satisfaction under
    the new colouring is below [pbound]; afterwards the cached values of the
    cell and of all its neighbours are current. *)
Theorem color_and_update_spec (i : nat) (c : Color) (pb : Q) (b : Board) :
  i < length (nodes b) →
  let b1 := setcolor i c b in
  let r := color_and_update i c pb b in
  r.1 = filter (λ n, color_of b1 n ≠ white ∧ Qltb (fresh b1 n) pb = true)
          (elements (Node.neigh (node b i)) ++ [i])
  ∧ color_of r.2 i = c
  ∧ (∀ j, j ≠ i → color_of r.2 j = color_of b j)
  ∧ (∀ j, Node.neigh (node r.2 j) = Node.neigh (node b j))
  ∧ uptodate r.2 i
  ∧ (∀ j, j ∈ Node.neigh (node b i) → uptodate r.2 j).
Proof.
  intros Hi. cbv zeta. unfold color_and_update.
  set (b1 := setcolor i c b). set (b2 := (update i b1).2).
  assert (Hn1 : ∀ j, Node.neigh (node b1 j) = Node.neigh (node b j)).
  { intros j. unfold b1, setcolor. by apply neigh_set_node. }
  assert (Hc1 : color_of b1 i = c).
  { unfold b1, setcolor, color_of. by rewrite node_set_node_eq. }
  assert (Hc1' : ∀ j, j ≠ i → color_of b1 j = color_of b j).
  { intros j Hj. unfold b1, setcolor, color_of. by rewrite node_set_node_ne. }
  assert (Hl1 : length (nodes b1) = length (nodes b))
    by apply length_nodes_set_node.
  assert (Hn2 : Node.neigh (node b2 i) = Node.neigh (node b i))
    by (unfold b2; by rewrite update_neigh).
  rewrite Hn2.
  destruct (refresh_neighbors_spec pb (elements (Node.neigh (node b i))) [] b2)
    as (Hl & Hc & Hn & Hlen & Hup & Hin & Hout).
  destruct (foldl _ _ _) as [l b3]. cbn [fst snd] in *.
  assert (Hui : uptodate b3 i).
  { apply Hup. unfold uptodate, b2. by rewrite update_idempotent. }
  assert (Hpv : Node.pval (node b3 i) = fresh b1 i).
  { unfold uptodate in Hui. rewrite <- Hui.
    rewrite <- update_returns_pval by (rewrite Hlen; unfold b2;
      by rewrite update_length, Hl1).
    change ((update i b3).1) with (fresh b3 i). apply fresh_ext.
    - intros j. unfold b2 in Hc. by rewrite Hc, update_color.
    - unfold b2 in Hn. by rewrite Hn, update_neigh. }
  assert (Hcol3 : ∀ j, color_of b3 j = color_of b1 j).
  { intros j. unfold b2 in Hc. by rewrite Hc, update_color. }
  assert (Hlist : l ++ filter (λ n, color_of b1 n ≠ white
                                    ∧ Qltb (fresh b1 n) pb = true) [i]
                  = filter (λ n, color_of b1 n ≠ white
                                 ∧ Qltb (fresh b1 n) pb = true)
                      (elements (Node.neigh (node b i)) ++ [i])).
  { rewrite filter_app, Hl. simpl. f_equal.
    apply list_filter_iff. intros n. unfold b2.
    by rewrite update_color, fresh_update. }
  assert (Hrest : (∀ j, j ≠ i → color_of b3 j = color_of b j)
                  ∧ (∀ j, Node.neigh (node b3 j) = Node.neigh (node b j))
                  ∧ uptodate b3 i
                  ∧ (∀ j, j ∈ Node.neigh (node b i) → uptodate b3 j)).
  { split; [intros j Hj; by rewrite Hcol3, Hc1'|].
    split; [intros j; unfold b2 in Hn; by rewrite Hn, update_neigh, Hn1|].
    split; [done|]. intros j Hj. apply Hin. by apply elem_of_elements. }
  rewrite Hpv, Hcol3. rewrite <- Hlist, filter_cons, filter_nil.
  destruct (Qltb (fresh b1 i) pb) eqn:Eq; cbn [andb].
  - case_bool_decide as Hw; cbn [fst snd].
    + rewrite decide_True by done. split; [done|]. by rewrite Hcol3.
    + rewrite decide_False by tauto. rewrite app_nil_r.
      split; [done|]. by rewrite Hcol3.
  - cbn [fst snd]. rewrite decide_False by (intros [_ ?]; done).
    rewrite app_nil_r. split; [done|]. by rewrite Hcol3.
Qed.

Lemma color_and_update_spec_witness :
  0 < length (nodes board_A)
  ∧ color_of (color_and_update 0 blue (1 # 2) board_A).2 0 = blue
  ∧ (color_and_update 0 blue (1 # 2) board_A).1
    = filter (λ n, color_of (setcolor 0 blue board_A) n ≠ white
                   ∧ Qltb (fresh (setcolor 0 blue board_A) n) (1 # 2) = true)
        (elements (Node.neigh (node board_A 0)) ++ [0]).
Proof.
  assert (H : 0 < length (nodes board_A)) by (vm_compute; lia).
  split; [exact H|].
  destruct (color_and_update_spec 0 blue (1 # 2) board_A H) as (Hl & Hc & _).
  split; [exact Hc|exact Hl].
Defined.

(** ** Construction: populations, layout and adjacency *)

#[local] Arguments Nat.div : simpl never.

(** *** The arithmetic of the grid *)

Lemma divmod_cell sz i j : j < sz → cell sz i j / sz = i ∧ cell sz i j mod sz = j.
Proof.
  intros Hj. unfold cell. split.
  - rewrite Nat.div_add_l by lia. rewrite Nat.div_small by done. lia.
  - rewrite Nat.add_comm, Nat.Div0.mod_add. by apply Nat.mod_small.
Qed.

Lemma cell_divmod sz p : 0 < sz → p = cell sz (p / sz) (p mod sz) ∧ p mod sz < sz.
Proof.
  intros Hsz. unfold cell. split.
  - rewrite (Nat.div_mod_eq p sz) at 1. lia.
  - apply Nat.mod_upper_bound. lia.
Qed.

Lemma near_cells sz i j i' j' :
  j < sz → j' < sz →
  near sz (cell sz i j) (cell sz i' j')
  ↔ (i ≠ i' ∨ j ≠ j') ∧ i ≤ i' + 1 ∧ i' ≤ i + 1 ∧ j ≤ j' + 1 ∧ j' ≤ j + 1.
Proof.
  intros Hj Hj'. unfold near.
  destruct (divmod_cell sz i j Hj) as [-> ->].
  destruct (divmod_cell sz i' j' Hj') as [-> ->].
  split.
  - intros (Hne & ?). split; [|done].
    destruct (decide (i = i')) as [->|]; [|by left].
    right. intros ->. done.
  - intros (Hne & ?). split; [|done]. intros Heq.
    assert (Hd : cell sz i j / sz = cell sz i' j' / sz) by (by rewrite Heq).
    assert (Hm : cell sz i j mod sz = cell sz i' j' mod sz) by (by rewrite Heq).
    destruct (divmod_cell sz i j Hj) as [Hd1 Hm1].
    destruct (divmod_cell sz i' j' Hj') as [Hd2 Hm2].
    rewrite Hd1, Hd2 in Hd. rewrite Hm1, Hm2 in Hm. lia.
Qed.

Lemma near_sym sz p q : near sz p q → near sz q p.
Proof. unfold near. intros (? & ? & ? & ? & ?). repeat split; (done || lia). Qed.

Lemma cell_inj sz i j i' j' :
  j < sz → j' < sz → cell sz i j = cell sz i' j' → i = i' ∧ j = j'.
Proof.
  intros Hj Hj' Heq.
  destruct (divmod_cell sz i j Hj) as [Hd1 Hm1].
  destruct (divmod_cell sz i' j' Hj') as [Hd2 Hm2].
  rewrite Heq in Hd1, Hm1. lia.
Qed.

Lemma cell_lt sz i j i' j' :
  j < sz → j' < sz → cell sz i' j' < cell sz i j ↔ i' < i ∨ (i' = i ∧ j' < j).
Proof. intros Hj Hj'. unfold cell. nia. Qed.

Lemma cell_eq sz i j i' j' :
  j < sz → j' < sz → cell sz i j = cell sz i' j' ↔ i = i' ∧ j = j'.
Proof.
  intros Hj Hj'. split; [by apply cell_inj|]. by intros [-> ->].
Qed.

Lemma earlier_near sz i j q :
  j < sz →
  (q < cell sz i j ∧ near sz (cell sz i j) q)
  ↔ (0 < j ∧ q = cell sz i (j - 1))
    ∨ (0 < i ∧ 0 < j ∧ q = cell sz (i - 1) (j - 1))
    ∨ (0 < i ∧ q = cell sz (i - 1) j)
    ∨ (0 < i ∧ j + 1 < sz ∧ q = cell sz (i - 1) (j + 1)).
Proof.
  intros Hj.
  destruct (cell_divmod sz q ltac:(lia)) as [Hq Hjq].
  set (i' := q / sz) in *. set (j' := q mod sz) in *. clearbody i' j'. subst q.
  rewrite cell_lt, near_cells by done.
  rewrite (cell_eq sz i' j' (i - 1) j) by done.
  destruct (decide (0 < j)) as [H0|H0].
  - rewrite !(cell_eq sz i' j' _ (j - 1)) by lia.
    destruct (decide (j + 1 < sz)) as [H1|H1].
    + rewrite (cell_eq sz i' j' _ (j + 1)) by lia. lia.
    + lia.
  - destruct (decide (j + 1 < sz)) as [H1|H1].
    + rewrite (cell_eq sz i' j' _ (j + 1)) by lia. lia.
    + lia.
Qed.

(** *** The steps of the constructor *)

Lemma sample_color_total b :
  (0 <= white_count b)%Z → (0 <= red_count b)%Z → (0 <= blue_count b)%Z →
  (0 < white_count b + red_count b + blue_count b)%Z →
  wp sample_color
     (λ r b', ∃ c, r = Val c
        ∧ b' = set_counts (white_count b - drew c white)
                 (red_count b - drew c red) (blue_count b - drew c blue)
                 (set_drawn (S (drawn b)) b)
        ∧ (0 <= white_count b' ∧ 0 <= red_count b' ∧ 0 <= blue_count b')%Z) b.
Proof.
  intros Hw Hr Hb Htot.
  unfold wp, sample_color, mbind, M_bind, gets, raise, randbelow, modify.
  cbn [fst snd].
  destruct (_ <=? 0)%Z eqn:E; [apply Z.leb_le in E; lia|]. cbn [fst snd].
  set (t := (white_count b + red_count b + blue_count b)%Z) in *.
  assert (Hs : rng b (drawn b) mod Z.to_nat t < Z.to_nat t)
    by (apply Nat.mod_upper_bound; lia).
  set (s := rng b (drawn b) mod Z.to_nat t) in *.
  change (white_count (set_drawn (S (drawn b)) b)) with (white_count b).
  change (red_count (set_drawn (S (drawn b)) b)) with (red_count b).
  change (blue_count (set_drawn (S (drawn b)) b)) with (blue_count b).
  destruct (Z.of_nat s <? white_count b + red_count b)%Z eqn:E1;
    [destruct (Z.of_nat s <? white_count b)%Z eqn:E2|]; cbn [fst snd].
  - apply Z.ltb_lt in E2. exists white. unfold drew. simpl.
    rewrite !Z.sub_0_r. split; [done|]. split; [done|lia].
  - apply Z.ltb_lt in E1. apply Z.ltb_ge in E2. exists red. unfold drew. simpl.
    rewrite !Z.sub_0_r. split; [done|]. split; [done|lia].
  - apply Z.ltb_ge in E1. exists blue. unfold drew. simpl.
    rewrite !Z.sub_0_r. split; [done|]. split; [done|]. subst t. lia.
Qed.

Lemma new_Node_alloc c x y b :
  let n := length (nodes b) in
  let b' := (new_Node c x y b).2 in
  (new_Node c x y b).1 = Val n
  ∧ length (nodes b') = S n
  ∧ (∀ p, p < n → node b' p = node b p)
  ∧ label (node b' n) = (c, x, y)
  ∧ Node.neigh (node b' n) = ∅
  ∧ outside_arena b' = outside_arena b.
Proof.
  cbv zeta. unfold new_Node. cbn [fst snd].
  set (n := length (nodes b)).
  set (bx := set_nodes (nodes b ++ [Node.mk c x y ∅ 0 0 0]) b).
  assert (Hn : node bx n = Node.mk c x y ∅ 0 0 0).
  { unfold node, bx, n. cbn [nodes set_nodes].
    by rewrite lookup_total_app_r, Nat.sub_diag. }
  split; [done|]. split; [|split; [|split; [|split]]].
  - rewrite update_length. unfold bx. cbn [nodes set_nodes].
    rewrite length_app. simpl. lia.
  - intros p Hp. rewrite update_other by lia.
    unfold node, bx. cbn [nodes set_nodes]. by rewrite lookup_total_app_l.
  - by rewrite update_label, Hn.
  - by rewrite update_neigh, Hn.
  - by rewrite update_outside.
Qed.

Lemma alloc_after_sample c x y b b2 :
  (0 <= white_count b - drew c white
   ∧ 0 <= red_count b - drew c red ∧ 0 <= blue_count b - drew c blue)%Z →
  b2 = (new_Node c x y
          (set_counts (white_count b - drew c white)
             (red_count b - drew c red) (blue_count b - drew c blue)
             (set_drawn (S (drawn b)) b))).2 →
  allocated c x y b b2.
Proof.
  intros Hnn ->.
  set (b1 := set_counts _ _ _ _).
  destruct (new_Node_alloc c x y b1) as (_ & Hl & Ho & Hlab & Hng & Hout).
  change (length (nodes b1)) with (length (nodes b)) in *.
  change (node b1) with (node b) in *.
  set (b2 := (new_Node c x y b1).2) in *. clearbody b2.
  unfold outside_arena in Hout.
  injection Hout as Hsz Hpb Hwc Hrc Hbc Hun Hwh Hbd Hal Hst Hrng Hdr.
  split; try done.
  by rewrite Hwc, Hrc, Hbc.
Qed.

Lemma bound_to_trans n B1 B2 b1 b2 b3 :
  bound_to n B1 b1 b2 → bound_to n B2 b2 b3 → bound_to n (B1 ∪ B2) b1 b3.
Proof.
  intros (Hl1 & Ho1 & Hb1 & Hn1 & Hp1) (Hl2 & Ho2 & Hb2 & Hn2 & Hp2).
  split; [congruence|]. split; [congruence|].
  split; [intros j; by rewrite Hb2|]. split.
  - rewrite Hn2, Hn1. by rewrite (assoc_L (∪)).
  - intros p Hp. rewrite Hp2, Hp1 by done.
    apply set_eq. intros x. rewrite !elem_of_union.
    repeat case_decide; set_unfold; tauto.
Qed.

Lemma bind_nodes_bound q n b :
  q < length (nodes b) → n < length (nodes b) → q ≠ n →
  wp (bind_nodes q n) (λ r b', r = Val tt ∧ bound_to n {[q]} b b') b.
Proof.
  intros Hq Hn Hne.
  unfold wp, bind_nodes, mbind, M_bind, modify. cbn [fst snd].
  split; [done|].
  assert (Hl1 : n < length (nodes (neigh_add q n b)))
    by (by rewrite neigh_add_length).
  split; [by rewrite !update_length, !neigh_add_length|].
  split; [by rewrite !update_outside|].
  split; [intros j; by rewrite !update_label, !neigh_add_label|].
  split.
  - rewrite !update_neigh, !neigh_add_neigh by done.
    rewrite decide_True by done. by rewrite decide_False by done.
  - intros p Hp. rewrite !update_neigh, !neigh_add_neigh by done.
    rewrite (decide_False (P := p = n)) by done.
    destruct (decide (p = q)) as [->|Hpq].
    + by rewrite decide_True by (by apply elem_of_singleton).
    + rewrite decide_False by (by rewrite elem_of_singleton).
      by rewrite (right_id_L ∅ (∪)).
Qed.

Lemma concat_lookup_grid sz (rows : list (list nat)) i' j' row :
  Forall (λ r : list nat, length r = sz) (take i' rows) →
  rows !! i' = Some row → j' < length row →
  concat rows !! (i' * sz + j') = row !! j'.
Proof.
  revert rows. induction i' as [|k IH]; intros rows Hall Hrow Hj.
  - destruct rows as [|r0 rest]; [done|]. simpl in Hrow. injection Hrow as ->.
    simpl. by rewrite lookup_app_l.
  - destruct rows as [|r0 rest]; [done|]. simpl in Hall, Hrow.
    apply Forall_cons in Hall as [Hr0 Hall]. simpl.
    rewrite lookup_app_r by lia.
    replace (sz + k * sz + j' - length r0) with (k * sz + j') by lia.
    by apply IH.
Qed.

Lemma at_grid sz full cur n i' j' b :
  concat (full ++ [cur]) = seq 0 n →
  Forall (λ r : list nat, length r = sz) full →
  (i' < length full ∧ j' < sz) ∨ (i' = length full ∧ j' < length cur) →
  at_ (full ++ [cur]) i' j' b = (Val (cell sz i' j'), b) ∧ cell sz i' j' < n.
Proof.
  intros Hc Hall Hpos.
  assert (Hrow : ∃ row, (full ++ [cur]) !! i' = Some row ∧ j' < length row
                        ∧ Forall (λ r : list nat, length r = sz)
                            (take i' (full ++ [cur]))).
  { destruct Hpos as [[Hi Hj]|[-> Hj]].
    - destruct (lookup_lt_is_Some_2 full i' Hi) as [row Hrow].
      exists row. rewrite lookup_app_l by done. split; [done|].
      rewrite Forall_forall in Hall. split.
      + rewrite (Hall row); [done|]. by eapply list_elem_of_lookup_2.
      + rewrite take_app_le by lia. apply Forall_take. by apply Forall_forall.
    - exists cur. split; [by rewrite list_lookup_middle|]. split; [done|].
      by rewrite take_app_length. }
  destruct Hrow as (row & Hrow & Hj & Htake).
  pose proof (concat_lookup_grid sz _ i' j' row Htake Hrow Hj) as Hlk.
  destruct (lookup_lt_is_Some_2 row j' Hj) as [v Hv].
  rewrite Hc, Hv in Hlk. apply lookup_seq in Hlk as [Hv' Hlt].
  simpl in Hv'. subst v. split; [|done].
  unfold at_. rewrite Hrow. simpl. by rewrite Hv.
Qed.

Lemma at_bind_bound sz full cur i' j' n b :
  concat (full ++ [cur]) = seq 0 n →
  Forall (λ r : list nat, length r = sz) full →
  (i' < length full ∧ j' < sz) ∨ (i' = length full ∧ j' < length cur) →
  n < length (nodes b) →
  wp (q ← at_ (full ++ [cur]) i' j'; bind_nodes q n)
     (λ r b', r = Val tt ∧ bound_to n {[cell sz i' j']} b b') b.
Proof.
  intros Hc Hall Hpos Hn.
  destruct (at_grid sz full cur n i' j' b Hc Hall Hpos) as [Hat Hlt].
  apply wp_bind. unfold wp at 1. rewrite Hat. cbn [fst snd].
  apply bind_nodes_bound; lia.
Qed.

Lemma node_ge b p : length (nodes b) ≤ p → node b p = inhabitant.
Proof.
  intros H. unfold node. rewrite list_lookup_total_alt.
  by rewrite lookup_ge_None_2.
Qed.

Lemma population_S b b' c c' :
  length (nodes b') = S (length (nodes b)) →
  (∀ p, p < length (nodes b) → color_of b' p = color_of b p) →
  color_of b' (length (nodes b)) = c →
  Z.of_nat (population b' c') = (Z.of_nat (population b c') + drew c c')%Z.
Proof.
  intros Hl Hold Hnew. unfold population, drew. rewrite Hl, seq_S. simpl.
  assert (Happ : colored b' c' (seq 0 (length (nodes b)) ++ [length (nodes b)])
                 = colored b' c' (seq 0 (length (nodes b)))
                   ++ colored b' c' [length (nodes b)])
    by apply filter_app.
  rewrite Happ, length_app.
  rewrite (colored_length_ext b b') by (intros i Hi; apply elem_of_seq in Hi;
    apply Hold; lia).
  rewrite colored_length_cons, Hnew.
  case_decide; simpl; lia.
Qed.

Lemma constructing_step sz wc rc bc i j c B b b2 b4 :
  0 < sz → j < sz →
  constructing sz wc rc bc b →
  length (nodes b) = cell sz i j →
  allocated c (Z.of_nat i) (Z.of_nat j) b b2 →
  bound_to (length (nodes b)) B b2 b4 →
  (∀ q, q ∈ B ↔ q < cell sz i j ∧ near sz (cell sz i j) q) →
  constructing sz wc rc bc b4 ∧ length (nodes b4) = S (length (nodes b)).
Proof.
  intros Hsz Hj Hcs Hn Hal (Hl4 & Hout & Hlab & Hnn & Hnp) HB.
  destruct Hal as [al_length0 al_old0 al_label0 al_neigh0 al_white0 al_red0
                   al_blue0 al_nonneg0 al_drawn0 al_size0].
  destruct Hcs as [cs_white0 cs_red0 cs_blue0 cs_nonneg0 cs_drawn0 cs_xy0
                   cs_neigh0 cs_size0].
  set (n := length (nodes b)) in *.
  unfold outside_arena in Hout.
  injection Hout as Hsz4 Hpb Hwc Hrc Hbc Hun Hwh Hbd Hal Hst Hrng Hdr.
  assert (Hlen : length (nodes b4) = S n) by congruence.
  assert (Hold : ∀ p, p < n → label (node b4 p) = label (node b p)).
  { intros p Hp. by rewrite Hlab, al_old0. }
  assert (Hnew : label (node b4 n) = (c, Z.of_nat i, Z.of_nat j))
    by (by rewrite Hlab).
  assert (Hpop : ∀ c', Z.of_nat (population b4 c')
                       = (Z.of_nat (population b c') + drew c c')%Z).
  { intros c'. apply population_S; [done| |].
    - intros p Hp. apply color_of_label. by apply Hold.
    - unfold color_of. unfold label in Hnew. by injection Hnew. }
  split; [|done]. split.
  - rewrite Hwc, al_white0, cs_white0, Hpop. lia.
  - rewrite Hrc, al_red0, cs_red0, Hpop. lia.
  - rewrite Hbc, al_blue0, cs_blue0, Hpop. lia.
  - by rewrite Hwc, Hrc, Hbc.
  - rewrite Hdr, al_drawn0, cs_drawn0. by rewrite Hlen.
  - intros p Hp. rewrite Hlen in Hp.
    destruct (decide (p = n)) as [->|Hpn].
    + unfold label in Hnew. injection Hnew as _ Hx Hy. rewrite Hx, Hy, Hn.
      by destruct (divmod_cell sz i j Hj) as [-> ->].
    + specialize (Hold p ltac:(lia)). unfold label in Hold.
      injection Hold as _ Hx Hy. rewrite Hx, Hy. apply cs_xy0. lia.
  - intros p q. rewrite Hlen. fold n in HB. rewrite <- Hn in HB.
    destruct (decide (p = n)) as [->|Hpn].
    + rewrite Hnn, al_neigh0, (left_id_L ∅ (∪)), HB.
      split; [intros [? ?]; split; [lia|]; split; [lia|done]|].
      intros (_ & Hq & Hnear). split; [|done].
      destruct Hnear as [Hne _]. lia.
    + rewrite Hnp by done. rewrite elem_of_union.
      destruct (decide (p < n)) as [Hp|Hp].
      * rewrite al_old0 by done. rewrite cs_neigh0.
        case_decide as HpB.
        -- rewrite elem_of_singleton. apply HB in HpB as [_ Hnear].
           split.
           ++ intros [(_ & Hq & Hpq)| ->]; (split; [lia|]); (split; [lia|]);
                [done|by apply near_sym].
           ++ intros (_ & Hq & Hpq).
              destruct (decide (q = n)) as [->|Hqn]; [by right|].
              left. split; [done|]. split; [lia|done].
        -- split.
           ++ intros [(_ & Hq & Hpq)|Hq]; [|by apply elem_of_empty in Hq].
              split; [lia|]. split; [lia|done].
           ++ intros (_ & Hq & Hpq). left. split; [done|]. split; [|done].
              destruct (decide (q = n)) as [->|Hqn]; [|lia].
              exfalso. apply HpB, HB. split; [done|by apply near_sym].
      * assert (Hnb : Node.neigh (node b2 p) = ∅).
        { rewrite node_ge by lia. done. }
        rewrite Hnb. rewrite decide_False by (rewrite HB; lia).
        split; [intros [H|H]; by apply elem_of_empty in H|lia].
  - by rewrite Hsz4, al_size0.
Qed.

Lemma for_wp_total {A L} (l : list A) (body : A → L → M L)
    (P : list A → L → Board → Prop) acc b :
  P [] acc b →
  (∀ pre a post acc b, l = pre ++ a :: post → P pre acc b →
     wp (body a acc) (λ r b', ∃ acc', r = Val acc' ∧ P (pre ++ [a]) acc' b') b) →
  wp (for_ l body acc) (λ r b', ∃ acc', r = Val acc' ∧ P l acc' b') b.
Proof.
  intros H0 Hbody.
  assert (Hgen : ∀ post pre acc b, l = pre ++ post → P pre acc b →
    wp (for_ post body acc)
       (λ r b', ∃ acc', r = Val acc' ∧ P (pre ++ post) acc' b') b).
  { induction post as [|a post IH]; intros pre acc0 b0 Hl HP.
    - apply wp_ret. exists acc0. by rewrite app_nil_r.
    - cbn [for_]. apply wp_bind.
      eapply wp_mono; [by apply (Hbody pre a post)|]. cbv beta.
      intros r b1 (acc1 & -> & H1).
      assert (Hl' : l = (pre ++ [a]) ++ post) by (by rewrite <- app_assoc).
      eapply wp_mono; [apply (IH _ _ _ Hl'), H1|]. cbv beta.
      intros r b2 (acc2 & -> & H2). exists acc2. split; [done|].
      by rewrite (cons_middle a), app_assoc. }
  apply (Hgen l [] acc b eq_refl H0).
Qed.

Lemma colored_sum b l :
  length (colored b white l) + length (colored b red l)
  + length (colored b blue l) = length l.
Proof.
  induction l as [|h t IH]; [done|].
  rewrite !colored_length_cons. simpl.
  destruct (color_of b h); repeat case_decide; try done; lia.
Qed.

Lemma population_sum b :
  population b white + population b red + population b blue = length (nodes b).
Proof. unfold population. by rewrite colored_sum, length_seq. Qed.

Lemma constructing_remaining sz wc rc bc b :
  constructing sz wc rc bc b →
  (white_count b + red_count b + blue_count b
   = wc + rc + bc - Z.of_nat (length (nodes b)))%Z.
Proof.
  intros [Hw Hr Hb _ _ _ _ _]. rewrite Hw, Hr, Hb, <- (population_sum b). lia.
Qed.

Lemma building_length sz full cur b :
  building sz full cur b → length (nodes b) = cell sz (length full) (length cur).
Proof.
  intros [Hc Hall]. apply (f_equal length) in Hc.
  rewrite length_seq, concat_app, length_app in Hc. simpl in Hc.
  rewrite (length_concat_square full sz) in Hc by done.
  unfold cell. rewrite <- Hc, length_app. simpl. lia.
Qed.

Lemma bound_to_refl n b : bound_to n ∅ b b.
Proof.
  split; [done|]. split; [done|]. split; [done|].
  split; [by rewrite (right_id_L ∅ (∪))|].
  intros p _. rewrite decide_False by apply not_elem_of_empty.
  by rewrite (right_id_L ∅ (∪)).
Qed.

(** Drawing a colour and allocating the node of the next cell. *)
Lemma alloc_total sz wc rc bc x y {A} (rest : nat → M A)
    (Q : res A → Board → Prop) b :
  constructing sz wc rc bc b →
  (Z.of_nat (length (nodes b)) < wc + rc + bc)%Z →
  (∀ c b2, allocated c x y b b2 → wp (rest (length (nodes b))) Q b2) →
  wp (c ← sample_color; new_node ← new_Node c x y; rest new_node) Q b.
Proof.
  intros Hcs Hrem Hrest.
  pose proof (constructing_remaining _ _ _ _ _ Hcs) as Hsum.
  destruct Hcs as [_ _ _ (Hw & Hr & Hb) _ _ _ _].
  apply wp_bind. eapply wp_mono; [apply sample_color_total; lia|]. cbv beta.
  intros r b1 (c & -> & Hb1 & Hnn).
  apply wp_bind. unfold wp at 1.
  destruct (new_Node_alloc c x y b1) as (Hv & _).
  rewrite Hv. rewrite Hb1 at 1. cbn [nodes set_counts set_drawn].
  apply (Hrest c). apply alloc_after_sample; [|by rewrite Hb1].
  by rewrite Hb1 in Hnn.
Qed.

Lemma at_bind_bound_then sz full cur i' j' n {A} (rest : M A)
    (Q : res A → Board → Prop) b :
  concat (full ++ [cur]) = seq 0 n →
  Forall (λ r : list nat, length r = sz) full →
  (i' < length full ∧ j' < sz) ∨ (i' = length full ∧ j' < length cur) →
  n < length (nodes b) →
  (∀ b', bound_to n {[cell sz i' j']} b b' → wp rest Q b') →
  wp (q ← at_ (full ++ [cur]) i' j'; bind_nodes q n;; rest) Q b.
Proof.
  intros Hc Hall Hpos Hn Hrest.
  destruct (at_grid sz full cur n i' j' b Hc Hall Hpos) as [Hat Hlt].
  apply wp_bind. unfold wp at 1. rewrite Hat. cbn [fst snd].
  apply wp_bind. eapply wp_mono; [apply bind_nodes_bound; lia|]. cbv beta.
  intros r b' [-> Hb]. by apply Hrest.
Qed.

(** *** The loops *)

(** One cell of the first row. *)
Lemma first_row_cell_total sz wc rc bc j cur b :
  0 < j → j = length cur → j < sz →
  building sz [] cur b → constructing sz wc rc bc b →
  (Z.of_nat (length (nodes b)) < wc + rc + bc)%Z →
  wp (c ← sample_color;
      new_node ← new_Node c 0 (Z.of_nat j);
      left ← at_ [cur] 0 (j - 1);
      bind_nodes left new_node;;
      mret (row_append 0 new_node [cur]))
     (λ r b', r = Val [cur ++ [length (nodes b)]]
              ∧ building sz [] (cur ++ [length (nodes b)]) b'
              ∧ constructing sz wc rc bc b') b.
Proof.
  intros Hj0 Hjc Hj Hbl Hcs Hrem.
  pose proof (building_length _ _ _ _ Hbl) as Hn. simpl in Hn.
  rewrite <- Hjc in Hn.
  destruct Hbl as [Hc Hall].
  apply (alloc_total sz wc rc bc); [done..|]. intros c b2 Hal.
  change [cur] with ([] ++ [cur]).
  apply (at_bind_bound_then sz [] cur 0 (j - 1) (length (nodes b)));
    [done|done|right; simpl; lia|destruct Hal; lia|].
  intros b4 Hb4. apply wp_ret.
  destruct (constructing_step sz wc rc bc 0 j c {[cell sz 0 (j - 1)]} b b2 b4)
    as [Hcs4 Hl4]; [lia|done|done|done|done|done| |].
  { intros q. rewrite elem_of_singleton, earlier_near by done. lia. }
  split; [by rewrite (row_append_last [] cur)|]. split; [|done].
  by apply (building_append sz [] cur b b4).
Qed.

Lemma build_first_row_total sz wc rc bc b :
  0 < sz →
  building sz [] [0] b → constructing sz wc rc bc b →
  (Z.of_nat sz <= wc + rc + bc)%Z →
  wp (build_first_row sz [[0]])
     (λ r b', ∃ cur, r = Val [cur] ∧ length cur = sz
                     ∧ building sz [] cur b' ∧ constructing sz wc rc bc b') b.
Proof.
  intros Hsz Hbl Hcs Hrem. unfold build_first_row.
  eapply wp_mono.
  - apply (for_wp_total _ _ (λ pre rows b',
        ∃ cur, rows = [cur] ∧ length cur = 1 + length pre
               ∧ building sz [] cur b' ∧ constructing sz wc rc bc b')).
    + exists [0]. split; [done|]. split; [done|]. by split.
    + intros pre j post rows b1 Hseq (cur & -> & Hlen & Hb1 & Hcs1).
      assert (Hjin : j ∈ seq 1 (sz - 1)).
      { rewrite Hseq. apply elem_of_app. right. left. }
      apply elem_of_seq in Hjin. apply seq_split_index in Hseq.
      pose proof (building_length _ _ _ _ Hb1) as Hn. unfold cell in Hn.
      simpl in Hn.
      eapply wp_mono.
      * apply (first_row_cell_total sz wc rc bc j cur b1); [lia|lia|lia|done..|].
        lia.
      * cbv beta. intros r b2 (-> & Hb2 & Hcs2). eexists. split; [done|].
        exists (cur ++ [length (nodes b1)]). split; [done|].
        split; [rewrite !length_app; simpl; lia|done].
  - cbv beta. intros r b' (rows & -> & cur & -> & Hlen & Hb' & Hcs').
    exists cur. rewrite length_seq in Hlen. split; [done|]. split; [lia|done].
Qed.

(** One cell of a later row. *)
Lemma build_cell_total sz wc rc bc i j full cur b :
  i = length full → 0 < i → j = length cur → j < sz → 2 ≤ sz →
  building sz full cur b → constructing sz wc rc bc b →
  (Z.of_nat (length (nodes b)) < wc + rc + bc)%Z →
  wp (build_cell sz i j (full ++ [cur]))
     (λ r b', r = Val (full ++ [cur ++ [length (nodes b)]])
              ∧ building sz full (cur ++ [length (nodes b)]) b'
              ∧ constructing sz wc rc bc b') b.
Proof.
  intros Hi Hi0 Hjc Hj Hsz Hbl Hcs Hrem.
  pose proof (building_length _ _ _ _ Hbl) as Hn. rewrite <- Hi, <- Hjc in Hn.
  destruct Hbl as [Hc Hall].
  unfold build_cell.
  apply (alloc_total sz wc rc bc); [done..|]. intros c b2 Hal.
  set (n := length (nodes b)) in *.
  assert (Hn2 : n < length (nodes b2)) by (destruct Hal; lia).
  assert (Hfinish : ∀ B b3,
    bound_to n B b2 b3 →
    (∀ q, q ∈ B ∪ {[cell sz (i - 1) j]}
          ↔ q < cell sz i j ∧ near sz (cell sz i j) q) →
    wp (n0 ← at_ (full ++ [cur]) (i - 1) j;
        bind_nodes n0 n;; mret (row_append i n (full ++ [cur])))
       (λ r b', r = Val (full ++ [cur ++ [n]])
                ∧ building sz full (cur ++ [n]) b'
                ∧ constructing sz wc rc bc b') b3).
  { intros B b3 Hb3 HB.
    apply (at_bind_bound_then sz full cur (i - 1) j n);
      [done|done|left; lia|destruct Hb3; lia|].
    intros b4 Hb4. apply wp_ret.
    pose proof (bound_to_trans _ _ _ _ _ _ Hb3 Hb4) as Hb.
    destruct (constructing_step sz wc rc bc i j c (B ∪ {[cell sz (i - 1) j]})
                b b2 b4) as [Hcs4 Hl4];
      [lia|done|done|done|done|exact Hb|exact HB|].
    split; [by rewrite Hi, row_append_last|]. split; [|done].
    by apply (building_append sz full cur b b4). }
  apply wp_bind.
  case_decide as Hj0; [|case_decide as Hjl].
  - eapply wp_mono.
    + apply (at_bind_bound sz full cur (i - 1) (j + 1) n);
        [done|done|left; lia|done].
    + cbv beta. intros r b3 [-> Hb3]. apply (Hfinish _ _ Hb3).
      intros q. rewrite elem_of_union, !elem_of_singleton, earlier_near by done.
      lia.
  - apply (at_bind_bound_then sz full cur i (j - 1) n);
      [done|done|right; lia|done|].
    intros b3 Hb3. eapply wp_mono.
    + apply (at_bind_bound sz full cur (i - 1) (j - 1) n);
        [done|done|left; lia|destruct Hb3; lia].
    + cbv beta. intros r b4 [-> Hb4].
      apply (Hfinish _ _ (bound_to_trans _ _ _ _ _ _ Hb3 Hb4)).
      intros q. rewrite !elem_of_union, !elem_of_singleton, earlier_near by done.
      lia.
  - apply (at_bind_bound_then sz full cur i (j - 1) n);
      [done|done|right; lia|done|].
    intros b3 Hb3.
    apply (at_bind_bound_then sz full cur (i - 1) (j - 1) n);
      [done|done|left; lia|destruct Hb3; lia|].
    intros b4 Hb4. eapply wp_mono.
    + apply (at_bind_bound sz full cur (i - 1) (j + 1) n);
        [done|done|left; lia|destruct Hb3, Hb4; lia].
    + cbv beta. intros r b5 [-> Hb5].
      apply (Hfinish _ _ (bound_to_trans _ _ _ _ _ _
                            (bound_to_trans _ _ _ _ _ _ Hb3 Hb4) Hb5)).
      intros q. rewrite !elem_of_union, !elem_of_singleton, earlier_near by done.
      lia.
Qed.

Lemma build_rest_total sz wc rc bc cur0 b :
  0 < sz → length cur0 = sz →
  building sz [] cur0 b → constructing sz wc rc bc b →
  (Z.of_nat (sz * sz) <= wc + rc + bc)%Z →
  wp (build_rest sz [cur0])
     (λ r b', ∃ rows, r = Val rows ∧ length rows = sz
        ∧ Forall (λ row : list nat, length row = sz) rows
        ∧ concat rows = seq 0 (length (nodes b'))
        ∧ constructing sz wc rc bc b') b.
Proof.
  intros Hsz Hlen0 Hbl Hcs Hrem. unfold build_rest.
  eapply wp_mono.
  - apply (for_wp_total _ _ (λ pre rows b',
        length rows = 1 + length pre
        ∧ Forall (λ row : list nat, length row = sz) rows
        ∧ concat rows = seq 0 (length (nodes b'))
        ∧ constructing sz wc rc bc b')).
    + destruct Hbl as [Hc _]. simpl in Hc. split; [done|].
      split; [by apply Forall_singleton|]. by split.
    + intros pre i post rows b1 Hseq (Hlen & Hall & Hc & Hcs1).
      assert (Hiin : i ∈ seq 1 (sz - 1)).
      { rewrite Hseq. apply elem_of_app. right. left. }
      apply elem_of_seq in Hiin. apply seq_split_index in Hseq.
      assert (Hi : i = length rows) by lia.
      eapply wp_mono.
      * apply (for_wp_total _ _ (λ pre' rows' b',
            ∃ cur, rows' = rows ++ [cur] ∧ length cur = length pre'
                   ∧ building sz rows cur b' ∧ constructing sz wc rc bc b')).
        -- exists []. split; [done|]. split; [done|]. split; [|done].
           split; [|done]. rewrite concat_app. simpl. by rewrite !app_nil_r.
        -- intros pre' j post' rows' b2 Hseq' (cur & -> & Hl' & Hb2 & Hcs2).
           assert (Hjin : j ∈ seq 0 sz).
           { rewrite Hseq'. apply elem_of_app. right. left. }
           apply elem_of_seq in Hjin. apply seq_split_index in Hseq'.
           pose proof (building_length _ _ _ _ Hb2) as Hn. unfold cell in Hn.
           eapply wp_mono.
           ++ apply (build_cell_total sz wc rc bc i j rows cur b2);
                [done|lia|lia|lia|lia|done|done|]. nia.
           ++ cbv beta. intros r b3 (-> & Hb3 & Hcs3). eexists. split; [done|].
              exists (cur ++ [length (nodes b2)]). split; [done|].
              split; [rewrite !length_app; simpl; lia|done].
      * cbv beta. intros r b2 (rows' & -> & cur & -> & Hl' & [Hc' Hall'] & Hcs').
        rewrite length_seq in Hl'. eexists. split; [done|].
        split; [rewrite !length_app; simpl; lia|].
        split; [|done]. apply Forall_app. split; [done|by apply Forall_singleton].
  - cbv beta. intros r b' (rows & -> & Hl & Hall & Hc & Hcs').
    rewrite length_seq in Hl. exists rows. split; [done|]. split; [lia|done].
Qed.

(** The scan keeps everything but the cached values and its two lists. *)
Lemma scan_keeps l w u b :
  let r := foldl scan_node (w, u, b) l in
  length (nodes r.2) = length (nodes b)
  ∧ outside_arena r.2 = outside_arena b
  ∧ (∀ j, label (node r.2 j) = label (node b j))
  ∧ (∀ j, Node.neigh (node r.2 j) = Node.neigh (node b j)).
Proof.
  revert w u b. induction l as [|h t IH]; intros w u b; cbv zeta; [done|].
  change (foldl scan_node (w, u, b) (h :: t))
    with (foldl scan_node (scan_node (w, u, b) h) t).
  pose proof (scan_node_state w u b h) as Hst.
  destruct (scan_node (w, u, b) h) as [[w1 u1] b1]. cbn [snd] in Hst. subst b1.
  destruct (IH w1 u1 (update h b).2) as (Hl & Ho & Hlab & Hng).
  split; [by rewrite Hl, update_length|].
  split; [by rewrite Ho, update_outside|].
  split; [intros j; by rewrite Hlab, update_label|].
  intros j. by rewrite Hng, update_neigh.
Qed.

Lemma constructing_keeps sz wc rc bc b b' :
  length (nodes b') = length (nodes b) →
  white_count b' = white_count b → red_count b' = red_count b →
  blue_count b' = blue_count b → drawn b' = drawn b → size b' = size b →
  (∀ j, label (node b' j) = label (node b j)) →
  (∀ j, Node.neigh (node b' j) = Node.neigh (node b j)) →
  constructing sz wc rc bc b → constructing sz wc rc bc b'.
Proof.
  intros Hl Hw Hr Hb Hd Hs Hlab Hng [Hcw Hcr Hcb Hcnn Hcd Hcxy Hcng Hcs].
  assert (Hpop : ∀ c, population b' c = population b c).
  { intros c. unfold population. rewrite Hl. f_equal. apply colored_ext.
    intros j. by apply color_of_label. }
  split.
  - by rewrite Hw, Hpop.
  - by rewrite Hr, Hpop.
  - by rewrite Hb, Hpop.
  - by rewrite Hw, Hr, Hb.
  - by rewrite Hd, Hl.
  - intros p Hp. rewrite Hl in Hp. specialize (Hlab p). unfold label in Hlab.
    injection Hlab as _ -> ->. by apply Hcxy.
  - intros p q. by rewrite Hng, Hl.
  - by rewrite Hs.
Qed.

Lemma area_nat sz : (Z.of_nat sz ^ 2)%Z = Z.of_nat (sz * sz).
Proof. by rewrite Z.pow_2_r, Nat2Z.inj_mul. Qed.

Lemma Board_init_total sz whiteP redP pb stop rand :
  let wc := int_of (inject_Z (Z.of_nat sz ^ 2) * whiteP) in
  let rc := int_of (inject_Z (Z.of_nat sz ^ 2) * redP * (1 - whiteP)) in
  let bc := (Z.of_nat sz ^ 2 - rc - wc)%Z in
  let b := (Board_init sz whiteP redP pb stop rand).2 in
  0 < sz → (0 <= wc)%Z → (0 <= rc)%Z → (0 <= bc)%Z →
  (Board_init sz whiteP redP pb stop rand).1 = Val tt
  ∧ constructing sz wc rc bc b
  ∧ length (nodes b) = sz * sz
  ∧ length (board b) = sz
  ∧ Forall (λ row : list nat, length row = sz) (board b)
  ∧ concat (board b) = seq 0 (sz * sz).
Proof.
  intros wc rc bc b Hsz Hwc Hrc Hbc. subst b. unfold Board_init.
  fold wc rc. fold bc.
  set (self := mkBoard [] sz pb wc rc bc [] [] [] [] stop rand 0).
  assert (Htot : (wc + rc + bc)%Z = Z.of_nat (sz * sz))
    by (unfold bc; rewrite area_nat; lia).
  assert (Hcs0 : constructing sz wc rc bc self).
  { split; try done.
    - simpl. unfold population. simpl. lia.
    - simpl. unfold population. simpl. lia.
    - simpl. unfold population. simpl. lia.
    - simpl. intros p Hp. lia.
    - intros p q. simpl. split; [|lia]. intros H. by apply elem_of_empty in H. }
  enough (Hwp : wp (rows ← build_board; modify (set_board rows))
            (λ r b', r = Val tt
               ∧ constructing sz wc rc bc b'
               ∧ length (nodes b') = sz * sz
               ∧ length (board b') = sz
               ∧ Forall (λ row : list nat, length row = sz) (board b')
               ∧ concat (board b') = seq 0 (sz * sz)) self) by exact Hwp.
  apply wp_bind. unfold build_board.
  apply wp_bind, wp_gets. change (size self) with sz.
  apply (alloc_total sz wc rc bc); [done|simpl; nia|]. intros c b2 Hal.
  change (length (nodes self)) with 0.
  destruct (constructing_step sz wc rc bc 0 0 c ∅ self b2 b2) as [Hcs2 Hl2];
    [done|done|done|done|done|apply bound_to_refl| |].
  { intros q. unfold cell. split; [intros H; by apply elem_of_empty in H|lia]. }
  change (length (nodes self)) with 0 in Hl2.
  assert (Hbl2 : building sz [] [0] b2) by (split; [by rewrite Hl2|done]).
  apply wp_bind. eapply wp_mono; [apply (build_first_row_total sz wc rc bc);
    [done|done|done|nia]|]. cbv beta.
  intros r b3 (cur & -> & Hlen & Hbl3 & Hcs3).
  apply wp_bind. eapply wp_mono; [apply (build_rest_total sz wc rc bc);
    [done|done|done|done|lia]|]. cbv beta.
  intros r b4 (rows & -> & Hlr & Hall & Hc & Hcs4).
  apply wp_bind, wp_modify. apply wp_ret. apply wp_modify.
  rewrite scan_rows_concat.
  destruct (scan_keeps (concat rows) (whiteCells b4) (unsatisfied b4) b4)
    as (Hl5 & Ho5 & Hlab5 & Hng5).
  destruct (foldl scan_node _ _) as [[w u] b5]. cbn [fst snd] in *.
  unfold outside_arena in Ho5.
  injection Ho5 as Hsz5 Hpb5 Hwc5 Hrc5 Hbc5 Hun5 Hwh5 Hbd5 Hal5 Hst5 Hrng5 Hdr5.
  assert (Hn : length (nodes b4) = sz * sz).
  { apply (f_equal length) in Hc.
    rewrite length_seq, (length_concat_square rows sz) in Hc by done. lia. }
  split; [done|]. split.
  - apply (constructing_keeps sz wc rc bc b4); try done.
  - cbn [nodes board set_board set_whiteCells set_unsatisfied].
    split; [congruence|]. split; [done|]. split; [done|]. by rewrite Hc, Hn.
Qed.

Lemma int_of_bounds q :
  (0 <= q)%Q → (0 <= int_of q)%Z ∧ (inject_Z (int_of q) <= q)%Q.
Proof.
  destruct q as [n d]. unfold Qle, int_of. simpl. intros Hq.
  rewrite Z.mul_1_r in Hq.
  rewrite Z.quot_div_nonneg by lia. split.
  - apply Z.div_pos; lia.
  - rewrite Z.mul_1_r, Z.mul_comm. apply Z.mul_div_le. lia.
Qed.

(** In exact arithmetic, fractions between 0 and 1 give the constructor
    population targets that fit the grid. *)
Lemma fractions_fit (sz : nat) (whiteP redP : Q) :
  (0 <= whiteP <= 1)%Q → (0 <= redP <= 1)%Q →
  let wc := int_of (inject_Z (Z.of_nat sz ^ 2) * whiteP) in
  let rc := int_of (inject_Z (Z.of_nat sz ^ 2) * redP * (1 - whiteP)) in
  (0 <= wc)%Z ∧ (0 <= rc)%Z ∧ (wc + rc <= Z.of_nat sz ^ 2)%Z.
Proof.
  intros [Hw0 Hw1] [Hr0 Hr1] wc rc.
  set (A := inject_Z (Z.of_nat sz ^ 2)) in *.
  assert (HA : (0 <= A)%Q).
  { unfold A. rewrite area_nat. unfold Qle. simpl. lia. }
  assert (H1w : (0 <= 1 - whiteP)%Q).
  { unfold Qminus. rewrite <- (Qplus_opp_r whiteP).
    apply Qplus_le_compat; [done|apply Qle_refl]. }
  assert (Hp1 : (0 <= A * whiteP)%Q) by (by apply Qmult_le_0_compat).
  assert (Hp2 : (0 <= A * redP * (1 - whiteP))%Q)
    by (repeat apply Qmult_le_0_compat; done).
  destruct (int_of_bounds _ Hp1) as [Hwc Hwc'].
  destruct (int_of_bounds _ Hp2) as [Hrc Hrc'].
  fold wc in Hwc, Hwc'. fold rc in Hrc, Hrc'.
  split; [done|]. split; [done|].
  rewrite Zle_Qle, inject_Z_plus. fold A.
  assert (Hle : (A * redP * (1 - whiteP) <= A * (1 - whiteP))%Q).
  { assert (E1 : (A * redP * (1 - whiteP) == redP * (A * (1 - whiteP)))%Q)
      by ring.
    rewrite E1. apply Qle_trans with (1 * (A * (1 - whiteP)))%Q.
    - apply Qmult_le_compat_r; [done|]. by apply Qmult_le_0_compat.
    - rewrite Qmult_1_l. apply Qle_refl. }
  assert (E2 : (A == A * whiteP + A * (1 - whiteP))%Q) by ring.
  apply Qle_trans with (A * whiteP + A * (1 - whiteP))%Q.
  - apply Qplus_le_compat; [done|]. by eapply Qle_trans.
  - rewrite <- E2. apply Qle_refl.
Qed.

(** *** The constructed board *)


(** X21. On a board built with a size of at least 1 and population targets
    that fit the grid, [board[i][j]] is the node with coordinates [(i, j)],
    and two cells of the grid are neighbours exactly when they are distinct
    and at most one row and one column apart (the eight surrounding cells,
    fewer at the border); no node has a neighbour outside the grid. *)
Theorem Board_init_moore (sz : nat) (whiteP redP pb stop : Q)
    (rand : nat → nat) :
  let wc := int_of (inject_Z (Z.of_nat sz ^ 2) * whiteP) in
  let rc := int_of (inject_Z (Z.of_nat sz ^ 2) * redP * (1 - whiteP)) in
  let b := (Board_init sz whiteP redP pb stop rand).2 in
  0 < sz → (0 <= wc)%Z → (0 <= rc)%Z → (wc + rc <= Z.of_nat sz ^ 2)%Z →
  (∀ i j, i < sz → j < sz →
     board b !! i ≫= (.!! j) = Some (cell sz i j)
     ∧ Node.x (node b (cell sz i j)) = Z.of_nat i
     ∧ Node.y (node b (cell sz i j)) = Z.of_nat j)
  ∧ (∀ i j i' j', i < sz → j < sz → i' < sz → j' < sz →
       cell sz i' j' ∈ Node.neigh (node b (cell sz i j))
       ↔ (i ≠ i' ∨ j ≠ j') ∧ i ≤ i' + 1 ∧ i' ≤ i + 1 ∧ j ≤ j' + 1 ∧ j' ≤ j + 1)
  ∧ (∀ p q, q ∈ Node.neigh (node b p) → p < sz * sz ∧ q < sz * sz).
Proof.
  intros wc rc b Hsz Hwc Hrc Hsum.
  assert (Hbc : (0 <= Z.of_nat sz ^ 2 - rc - wc)%Z) by lia.
  destruct (Board_init_total sz whiteP redP pb stop rand Hsz Hwc Hrc Hbc)
    as (_ & Hcs & Hn & Hlen & Hall & Hc).
  fold wc rc b in Hcs. fold b in Hn, Hlen, Hall, Hc.
  destruct Hcs as [_ _ _ _ _ Hxy Hng _].
  assert (Hcell : ∀ i j, i < sz → j < sz → cell sz i j < sz * sz)
    by (intros i j Hi Hj; unfold cell; nia).
  split; [|split].
  - intros i j Hi Hj. split.
    + destruct (lookup_lt_is_Some_2 (board b) i) as [row Hrow]; [lia|].
      assert (Hrl : length row = sz).
      { rewrite Forall_forall in Hall. apply Hall.
        by eapply list_elem_of_lookup_2. }
      pose proof (concat_lookup_grid sz (board b) i j row) as Hlk.
      rewrite Hc in Hlk. rewrite Hrow. simpl. rewrite <- Hlk; [| |done|lia].
      * apply lookup_seq. split; [done|]. by apply Hcell.
      * by apply Forall_take.
    + destruct (Hxy (cell sz i j)) as [Hx Hy]; [rewrite Hn; by apply Hcell|].
      destruct (divmod_cell sz i j Hj) as [Hd Hm]. by rewrite Hx, Hy, Hd, Hm.
  - intros i j i' j' Hi Hj Hi' Hj'. rewrite Hng, Hn, near_cells by done.
    pose proof (Hcell i j Hi Hj). pose proof (Hcell i' j' Hi' Hj'). tauto.
  - intros p q Hq. apply Hng in Hq. rewrite Hn in Hq. tauto.
Qed.


Lemma Board_init_moore_witness :
  0 < 2
  ∧ (0 <= int_of (inject_Z (Z.of_nat 2 ^ 2) * (1 # 4)))%Z
  ∧ (cell 2 1 1
     ∈ Node.neigh (node (Board_init 2 (1 # 4) (1 # 2) (1 # 2) 1
                           (λ k, nth k [0; 0; 1; 0] 0)).2 (cell 2 0 0))
     ↔ (0 ≠ 1 ∨ 0 ≠ 1) ∧ 0 ≤ 1 + 1 ∧ 1 ≤ 0 + 1 ∧ 0 ≤ 1 + 1 ∧ 1 ≤ 0 + 1).
Proof.
  assert (H1 : 0 < 2) by lia.
  assert (H2 : (0 <= int_of (inject_Z (Z.of_nat 2 ^ 2) * (1 # 4)))%Z)
    by (vm_compute; discriminate).
  assert (H3 : (0 <= int_of (inject_Z (Z.of_nat 2 ^ 2) * (1 # 2)
                             * (1 - (1 # 4))))%Z)
    by (vm_compute; discriminate).
  assert (H4 : (int_of (inject_Z (Z.of_nat 2 ^ 2) * (1 # 4))
                + int_of (inject_Z (Z.of_nat 2 ^ 2) * (1 # 2) * (1 - (1 # 4)))
                <= Z.of_nat 2 ^ 2)%Z) by (vm_compute; discriminate).
  split; [exact H1|]. split; [exact H2|].
  destruct (Board_init_moore 2 (1 # 4) (1 # 2) (1 # 2) 1
              (λ k, nth k [0; 0; 1; 0] 0) H1 H2 H3 H4) as (_ & Hadj & _).
  assert (H01 : 0 < 2) by lia. assert (H11 : 1 < 2) by lia.
  exact (Hadj 0 0 1 1 H01 H01 H11 H11).
Defined.

(** ** States a fresh scan would not change *)

Lemma reload_sets_fixpoint b :
  (∀ i, i ∈ concat (board b) → uptodate b i) →
  whiteCells b = colored b white (concat (board b)) →
  unsatisfied b = filter (λ i, color_of b i ≠ white
                               ∧ Qltb (fresh b i) (pbound b) = true)
                    (concat (board b)) →
  reload_sets b = b.
Proof.
  intros Hup Hw Hu.
  destruct (reload_sets_lists b) as (Hw' & Hu' & _).
  rewrite reload_sets_unfold, Hw', Hu', <- Hw, <- Hu.
  rewrite scan_rows_concat, scan_fixed by done.
  apply set_lists_id.
Qed.

Lemma reload_sets_uptodate b i :
  i ∈ concat (board b) → uptodate (reload_sets b) i.
Proof.
  intros Hi. rewrite reload_sets_unfold. apply uptodate_set_lists.
  rewrite scan_rows_concat.
  exact (proj1 (scan_uptodate (concat (board b)) [] [] b) i Hi).
Qed.

Lemma update_same_arena i b b' :
  nodes b' = nodes b → (update i b').2 = set_nodes (nodes (update i b).2) b'.
Proof.
  intros Hn. unfold update.
  assert (Hnode : node b' i = node b i) by (unfold node; by rewrite Hn).
  assert (Hcount : count_neigh b' (elements (Node.neigh (node b i)))
                   = count_neigh b (elements (Node.neigh (node b i)))).
  { rewrite !count_neigh_spec. f_equal; f_equal; apply colored_ext;
      intros j; by apply color_of_nodes. }
  rewrite Hnode, Hcount. destruct (count_neigh b _) as [r bl].
  destruct (r + bl =? 0); cbn [snd]; unfold set_node; cbn [nodes set_nodes];
    by rewrite Hn.
Qed.

Lemma uptodate_same_arena b b' i :
  nodes b' = nodes b → uptodate b i → uptodate b' i.
Proof.
  unfold uptodate. intros Hn Hi.
  rewrite (update_same_arena i b b' Hn), Hi, <- Hn. by destruct b'.
Qed.

Lemma fresh_same_arena b b' i : nodes b' = nodes b → fresh b' i = fresh b i.
Proof.
  intros Hn. apply fresh_ext.
  - intros j. by apply color_of_nodes.
  - unfold node. by rewrite Hn.
Qed.

(** A state that holds a finished scan, whatever else was set since. *)
Lemma refreshed_fixpoint b b' :
  nodes b' = nodes (reload_sets b) → board b' = board b →
  pbound b' = pbound b →
  whiteCells b' = whiteCells (reload_sets b) →
  unsatisfied b' = unsatisfied (reload_sets b) →
  reload_sets b' = b'.
Proof.
  intros Hn Hbd Hpb Hw Hu.
  destruct (reload_sets_lists b)
    as (Hw0 & Hu0 & Hcol & Hng & _ & _ & _ & _ & Hpb0 & Hbd0 & _).
  assert (Hcol' : ∀ j, color_of b' j = color_of b j).
  { intros j. by rewrite (color_of_nodes _ _ j Hn). }
  apply reload_sets_fixpoint.
  - intros i Hi. apply (uptodate_same_arena (reload_sets b)); [done|].
    apply reload_sets_uptodate. by rewrite <- Hbd.
  - rewrite Hw, Hw0, Hbd. by apply colored_ext.
  - rewrite Hu, Hu0, Hbd, Hpb. apply list_filter_iff. intros i.
    rewrite Hcol'. rewrite (fresh_same_arena _ _ i Hn).
    by rewrite (fresh_ext (reload_sets b) b).
Qed.

(** X22. Every policy call that returns [True] leaves a state that
    [reload_sets] would not change: the two lists and all cached values of
    the board's cells are current. (After a call that returns [False] or
    raises this need not hold: a drain may have moved cells already.) *)
Theorem successful_step_refreshed (g : granularity) (s : search)
    (a : acceptance) (fuel : nat) (b b' : Board) :
  policy g s a fuel b = (Val true, b') → reload_sets b' = b'.
Proof.
  intros Hrun.
  assert (Hfin : ∃ b2, finish_step b2 = (Val true, b')).
  { destruct (decide (g = Single)) as [->|Hg].
    - rewrite policy_single in Hrun. unfold single, mbind, M_bind in Hrun.
      pose proof (select_of_ok s a b) as Hok. unfold wp, sel_post in Hok.
      destruct (select_of s a b) as [[[[m [x|]]|v]|ex|] b1];
        cbn [fst snd] in *; try (by inversion Hrun).
      + rewrite relocate_Some in Hrun. by eexists.
      + destruct Hok as [_ ->]. by inversion Hrun.
    - rewrite policy_drain in Hrun by done. unfold drain, mbind, M_bind in Hrun.
      pose proof (drain_loop_cache g s a fuel b) as Hloop. unfold wp in Hloop.
      destruct (drain_loop fuel (body_of g s a) b) as [[[[]|v]|ex|] b1];
        cbn [fst snd] in *; try (by inversion Hrun).
      + by eexists.
      + destruct Hloop as (_ & _ & ->). by inversion Hrun. }
  destruct Hfin as [b2 Hfin].
  destruct (finish_step_cases b2) as [(frame & _ & Hf)|Hf];
    rewrite Hf in Hfin; [|by inversion Hfin].
  injection Hfin as <-.
  destruct (reload_sets_lists b2)
    as (_ & _ & _ & _ & _ & _ & _ & _ & Hpb & Hbd & _).
  by apply (refreshed_fixpoint b2).
Qed.

Lemma build_board_scanned b :
  0 < size b → nodes b = [] →
  wp build_board
     (λ r b', ∀ rows, r = Val rows →
        ∃ b4, unscanned b b4
          ∧ b' = set_whiteCells
                   (scan_rows rows (whiteCells b4, unsatisfied b4, b4)).1.1
                   (set_unsatisfied
                      (scan_rows rows (whiteCells b4, unsatisfied b4, b4)).1.2
                      (scan_rows rows (whiteCells b4, unsatisfied b4, b4)).2)) b.
Proof.
  intros Hsz Hn0. unfold build_board.
  apply wp_bind, wp_gets.
  apply wp_bind. eapply wp_mono; [apply sample_color_wp|]. cbv beta.
  intros [c|e|] b1 [Hn1 Hs1]; [|done..].
  apply wp_bind. eapply wp_mono; [apply new_Node_wp|]. cbv beta.
  intros ? b2 (-> & Hl2 & Hs2).
  rewrite Hn1, Hn0 in Hl2. rewrite Hn1, Hn0. simpl in Hl2. simpl.
  assert (Hb2 : building (size b) [] [0] b2).
  { split; [|done]. rewrite Hl2. done. }
  apply wp_bind. eapply wp_mono; [by apply build_first_row_wp|]. cbv beta.
  intros [rows1|e|] b3 H3; [|done..].
  destruct (H3 rows1 eq_refl) as (cur & -> & Hlen & Hb3 & Hs3).
  apply wp_bind. eapply wp_mono; [apply build_rest_wp; [done|lia]|]. cbv beta.
  intros [rows|e|] b4 H4; [|done..].
  destruct (H4 rows eq_refl) as (Hlr & Hall & Hc & Hs4).
  assert (Hs : unscanned b b4) by eauto using unscanned_trans.
  apply wp_bind, wp_modify. apply wp_ret. intros ? [= <-].
  exists b4. split; [done|].
  by destruct (scan_rows rows _) as [[w u] b5].
Qed.

(** X23. Whenever the constructor returns, the board satisfies the
    invariant the policies rely on (a square of distinct allocated cells,
    lists of distinct cells, occupied ones in [unsatisfied], empty ones in
    [whiteCells]) and is a fixed point of [reload_sets]: the scan written
    out in [build_board] leaves exactly the lists and cached values that
    [reload_sets] computes. *)
Theorem constructed_board_ready (sz : nat) (whiteP redP pb stop : Q)
    (rand : nat → nat) :
  (Board_init sz whiteP redP pb stop rand).1 = Val tt →
  let b := (Board_init sz whiteP redP pb stop rand).2 in
  Inv b ∧ reload_sets b = b.
Proof.
  intros Hok b. split; [by apply Board_init_Inv|].
  subst b. revert Hok. unfold Board_init.
  set (wc := int_of _). set (rc := int_of _).
  set (self := mkBoard _ _ _ _ _ _ _ _ _ _ _ _ _).
  destruct sz as [|sz].
  { intros H. exfalso. revert H.
    unfold build_board, sample_color, mbind, M_bind, gets, raise. cbn [fst snd].
    assert (white_count self + red_count self + blue_count self = 0)%Z as ->
      by (unfold self; simpl; lia).
    done. }
  pose proof (build_board_scanned self) as H. unfold wp in H.
  unfold mbind, M_bind, modify.
  destruct (build_board self) as [[rows|e|] b1]; cbn [fst snd] in *; try done.
  intros _.
  destruct (H ltac:(unfold self; simpl; lia) eq_refl rows eq_refl)
    as (b4 & (_ & _ & Hu4 & Hw4 & _) & ->).
  change (unsatisfied self) with (@nil nat) in Hu4.
  change (whiteCells self) with (@nil nat) in Hw4.
  rewrite Hu4, Hw4.
  pose proof (scan_rows_scanned rows [] [] b4) as Hsc.
  pose proof (scan_uptodate (concat rows) [] [] b4) as [Hup _].
  rewrite <- scan_rows_concat in Hup.
  destruct (scan_rows rows ([], [], b4)) as [[w u] b5].
  destruct Hsc as [Hw Hu Hcol Hng _ _ _ (_ & Hpb & _)]. cbn [fst snd] in *.
  set (bf := set_board rows (set_whiteCells w (set_unsatisfied u b5))).
  assert (Hn : nodes bf = nodes b5) by done.
  apply reload_sets_fixpoint.
  - intros i Hi. apply (uptodate_same_arena b5); [done|]. by apply Hup.
  - change (whiteCells bf) with w. change (board bf) with rows.
    rewrite Hw. simpl. apply colored_ext. intros j.
    by rewrite <- Hcol, (color_of_nodes _ _ j Hn).
  - change (unsatisfied bf) with u. change (board bf) with rows.
    change (pbound bf) with (pbound b5).
    rewrite Hu, Hpb. simpl. apply list_filter_iff. intros i.
    rewrite (color_of_nodes _ _ i Hn), (fresh_same_arena _ _ i Hn).
    by rewrite Hcol, (fresh_ext b5 b4).
Qed.

Lemma constructed_board_ready_witness :
  (Board_init 2 (1 # 4) (1 # 2) (1 # 2) 1 (λ k, nth k [0; 0; 1; 0] 0)).1 = Val tt
  ∧ reload_sets (Board_init 2 (1 # 4) (1 # 2) (1 # 2) 1
                   (λ k, nth k [0; 0; 1; 0] 0)).2
    = (Board_init 2 (1 # 4) (1 # 2) (1 # 2) 1 (λ k, nth k [0; 0; 1; 0] 0)).2.
Proof.
  assert (H : (Board_init 2 (1 # 4) (1 # 2) (1 # 2) 1
                 (λ k, nth k [0; 0; 1; 0] 0)).1 = Val tt)
    by (vm_compute; reflexivity).
  split; [exact H|].
  exact (proj2 (constructed_board_ready 2 (1 # 4) (1 # 2) (1 # 2) 1
                  (λ k, nth k [0; 0; 1; 0] 0) H)).
Defined.

Lemma successful_step_refreshed_witness :
  policy Single Random Plain 0 board_B
  = (Val true, (policy Single Random Plain 0 board_B).2)
  ∧ reload_sets (policy Single Random Plain 0 board_B).2
    = (policy Single Random Plain 0 board_B).2.
Proof.
  assert (H : policy Single Random Plain 0 board_B
              = (Val true, (policy Single Random Plain 0 board_B).2)) by by_run.
  split; [exact H|].
  exact (successful_step_refreshed Single Random Plain 0 board_B _ H).
Defined.

(** ** A single step is all or nothing *)

(** X24. A single policy is all or nothing on a square board: a call that
    does not return [True] (it returned [False] or raised) has written no
    cell, no list content and no snapshot; only the order of the empty-cell
    list and the position in the random source may differ. *)
Theorem single_step_atomic (s : search) (a : acceptance) (fuel : nat)
    (b : Board) :
  length (board b) = size b →
  Forall (λ row : list nat, length row = size b) (board b) →
  (policy Single s a fuel b).1 ≠ Val true →
  shuffled b (policy Single s a fuel b).2.
Proof.
  intros Hlen Hrows. rewrite policy_single.
  pose proof (select_of_ok s a b) as Hok. unfold wp, sel_post in Hok.
  unfold single, mbind, M_bind.
  destruct (select_of s a b) as [[[[m [x|]]|v]|ex|] b1]; cbn [fst snd] in *;
    destruct Hok as [Hsh Hr]; try done.
  rewrite relocate_Some. intros Hne. exfalso. apply Hne.
  apply finish_step_square; cbn [board size set_nodes];
    by rewrite (sh_board _ _ Hsh), (sh_size _ _ Hsh).
Qed.

Lemma single_step_atomic_witness :
  length (board board_D) = size board_D
  ∧ (policy Single Closest Plain 0 board_D).1 ≠ Val true
  ∧ shuffled board_D (policy Single Closest Plain 0 board_D).2.
Proof.
  assert (H1 : length (board board_D) = size board_D) by (vm_compute; reflexivity).
  assert (H2 : Forall (λ row : list nat, length row = size board_D)
                 (board board_D)) by by_computation.
  assert (H3 : (policy Single Closest Plain 0 board_D).1 ≠ Val true)
    by (vm_compute; discriminate).
  split; [exact H1|]. split; [exact H3|].
  exact (single_step_atomic Closest Plain 0 board_D H1 H2 H3).
Defined.

(** ** The average satisfaction of a converged board *)





(** ** Board.animate on a short run *)

Lemma fmap_lookup_seq {A} `{Inhabited A} (l : list A) :
  (λ i, l !!! i) <$> seq 0 (length l) = l.
Proof.
  apply list_eq. intros i. rewrite list_lookup_fmap.
  destruct (decide (i < length l)) as [Hi|Hi].
  - rewrite lookup_seq_lt by done. simpl.
    symmetry. by apply list_lookup_lookup_total_lt.
  - rewrite lookup_seq_ge by lia. simpl. symmetry. apply lookup_ge_None_2. lia.
Qed.

(** X26. With the default stride and fewer recorded snapshots than
    [total_frames], [animate] plays every snapshot in order and then the
    last one once more. *)
Theorem animate_short_run (total_frames : Z) (b : Board) :
  animationList b ≠ [] →
  (Z.of_nat (length (animationList b)) < total_frames)%Z →
  animate_frames total_frames None b
  = (Val (animationList b
          ++ [animationList b !!! (length (animationList b) - 1)]), b).
Proof.
  intros Hne Hlt. unfold animate_frames.
  destruct (total_frames =? 0)%Z eqn:E0; [apply Z.eqb_eq in E0; lia|].
  rewrite Z.div_small by lia. simpl (0 + 1)%Z.
  destruct (animationList b) as [|first rest] eqn:El; [done|].
  cbn [Z.eqb]. rewrite slice_step_pos by lia.
  do 3 f_equal.
  rewrite Z.add_simpl_r, Z.div_1_r, Nat2Z.id.
  etransitivity; [|apply (fmap_lookup_seq (first :: rest))].
  apply list_fmap_ext. intros i x _.
  change (Z.to_nat (0 + 1)) with 1. by rewrite Nat.mul_1_r.
Qed.

Lemma animate_short_run_witness :
  animationList (policy Single Random Plain 0 board_B).2 ≠ []
  ∧ (Z.of_nat (length (animationList (policy Single Random Plain 0 board_B).2))
     < 200)%Z
  ∧ animate_frames 200 None (policy Single Random Plain 0 board_B).2
    = (Val (animationList (policy Single Random Plain 0 board_B).2
            ++ [animationList (policy Single Random Plain 0 board_B).2
                !!! (length (animationList
                               (policy Single Random Plain 0 board_B).2) - 1)]),
       (policy Single Random Plain 0 board_B).2).
Proof.
  assert (H1 : animationList (policy Single Random Plain 0 board_B).2 ≠ [])
    by (vm_compute; discriminate).
  assert (H2 : (Z.of_nat (length (animationList
                   (policy Single Random Plain 0 board_B).2)) < 200)%Z)
    by (vm_compute; reflexivity).
  split; [exact H1|]. split; [exact H2|].
  exact (animate_short_run 200 _ H1 H2).
Defined.

(** ** The further properties at work on built boards *)

(** [update_bounds] on the red cell of [board_A]. *)
Lemma update_bounds_witness :
  1 < length (nodes board_A)
  ∧ (0 <= Node.pval (node (update 1 board_A).2 1) <= 1)%Q.
Proof.
  assert (H : 1 < length (nodes board_A)) by (vm_compute; lia).
  split; [exact H|]. exact (proj1 (update_bounds board_A 1 H)).
Defined.

(** [run_converged] on [board_E], where nobody is unsatisfied. *)
Lemma run_converged_witness :
  unsatisfied board_E = []
  ∧ ("singleRandom" ∈ policy_names)
  ∧ run 1 100 "singleRandom" board_E = (Val 0, board_E).
Proof.
  assert (H1 : unsatisfied board_E = []) by (vm_compute; reflexivity).
  assert (H2 : "singleRandom" ∈ policy_names) by by_computation.
  split; [exact H1|]. split; [exact H2|].
  exact (run_converged 1 100%Z "singleRandom" board_E H1 H2 Nat.lt_0_1).
Defined.

(** [run_terminates] on [board_B] with a budget of four. *)
Lemma run_terminates_witness :
  Inv board_B
  ∧ size board_B * size board_B ≤ 4
  ∧ (run 4 3 "batchClosestSatisfyContinue" board_B).1 ≠ OutOfFuel.
Proof.
  assert (H2 : size board_B * size board_B ≤ 4) by (vm_compute; lia).
  assert (H3 : (3 <= Z.of_nat 4)%Z) by lia.
  split; [exact Inv_board_B|]. split; [exact H2|].
  exact (proj1 (run_terminates 4 3%Z "batchClosestSatisfyContinue" board_B
                  Inv_board_B H2 H3)).
Defined.

(** [closest_destination_nearest] on [board_B]: the mover is cell 1 and the
    only empty cell is cell 0. *)
Lemma closest_destination_nearest_witness :
  select_closest board_B
  = (Val (inl (1, Some 0)), (select_closest board_B).2)
  ∧ 1 ∈ unsatisfied board_B.
Proof.
  assert (H : select_closest board_B
              = (Val (inl (1, Some 0)), (select_closest board_B).2)) by by_run.
  split; [exact H|].
  exact (proj1 (closest_destination_nearest board_B _ 1 0 H)).
Defined.

(** [satisfy_stop_destination_qualifies] on [board_F]: the red cell drawn
    first finds no destination, and the loop over the other colour ends
    with the blue cell 3 and the empty cell 0. *)
Lemma satisfy_stop_destination_qualifies_witness :
  select_of Random SatisfyStop board_F
  = (Val (inl (3, Some 0)), (select_of Random SatisfyStop board_F).2)
  ∧ 3 ∈ unsatisfied board_F ∧ 0 ∈ whiteCells board_F
  ∧ qualifies board_F (color_of board_F 3) 0.
Proof.
  assert (H : select_of Random SatisfyStop board_F
              = (Val (inl (3, Some 0)), (select_of Random SatisfyStop board_F).2))
    by by_run.
  split; [exact H|].
  exact (satisfy_stop_destination_qualifies Random board_F _ 3 0 H).
Defined.


(** [single_step_effect] on [singleRandom] from [board_B]. *)
Lemma single_step_effect_witness :
  Inv board_B
  ∧ policy Single Random Plain 0 board_B
    = (Val true, (policy Single Random Plain 0 board_B).2)
  ∧ ∃ m e, m ∈ unsatisfied board_B ∧ e ∈ whiteCells board_B
      ∧ color_of (policy Single Random Plain 0 board_B).2 m = white
      ∧ color_of (policy Single Random Plain 0 board_B).2 e = color_of board_B m.
Proof.
  assert (H : policy Single Random Plain 0 board_B
              = (Val true, (policy Single Random Plain 0 board_B).2)) by by_run.
  split; [exact Inv_board_B|]. split; [exact H|].
  destruct (single_step_effect Random Plain 0 board_B _ Inv_board_B H)
    as (m & e & Hm & He & Hcm & Hce & _).
  exists m, e. split; [exact Hm|]. split; [exact He|]. split; [exact Hcm|exact Hce].
Defined.
